(** * HRV capstone: sample hand-off buffer, statistics helpers and the
      quality-gated extraction pipeline

    The development follows the repository layout:

    - [Arduino]: the interrupt-to-loop sample buffer of the acquisition
      sketches ([ppg_sensor_only.cpp] for AVR and its two ESP32 variants);
    - [Helpers]: [react_native/src/utils/helpers.ts];
    - [Processor]: [JavaScriptHRVProcessor.processData];
    - [Pipeline]: the quality-gated pipeline of the design document, whose
      implementation is not part of the sources;
    - [Handoff]: schedules of the sample buffer and what they deliver;
    - [Polar]: [setupPolarSensor] and [readPolarSensor] of the sketches;
    - [Factories]: [HRVProcessorFactory], [DataCollectorFactory] and the
      classes they instantiate;
    - [Format]: [formatDuration] of [helpers.ts] and the JavaScript
      operations it uses.

    JavaScript numbers are IEEE 754 binary64 values; they are modelled by
    the primitive floats of the kernel, whose [+ - * / sqrt] and comparisons
    are the binary64 ones. *)

From Stdlib Require Import ZArith List Bool Lia Lqa Floats Uint63 QArith Qround.
From Stdlib Require Import String DecimalString.
From stdpp Require Import base tactics option list.
Import ListNotations.

#[local] Set Warnings "-inexact-float".
#[local] Open Scope Z_scope.

(* ===================================================================== *)
(** * The acquisition sketches: timer -> loop sample buffer              *)
(* ===================================================================== *)

Module Arduino.

(** [const uint8_t SAMPLE_BUFFER_SIZE = 64;] *)
Definition SAMPLE_BUFFER_SIZE : Z := 64.

(** Conversion of an [int] to [uint8_t]: reduction modulo 2^8. *)
Definition to_uint8 (z : Z) : Z := z mod 256.

(** The globals shared by the interrupt handler and [loop()].
    [serial] lists what [Serial.println(Signal)] has printed, oldest first. *)
Record state := mkState {
  sampleBuffer : list Z;
  sampleHead : Z;
  sampleTail : Z;
  sampleFlag : bool;
  Signal : Z;
  serial : list Z
}.

(** Static initialisation: the buffer is zero-filled, both indices are 0. *)
Definition init : state :=
  {| sampleBuffer := replicate 64 0; sampleHead := 0; sampleTail := 0;
     sampleFlag := false; Signal := 0; serial := [] |}.

(** The write block, identical in [ISR(TIMER1_COMPA_vect)] (AVR) and in the
    [if (doSample)] branch of [readPulseSensor] (ESP32):
<<
    uint8_t nextHead = (sampleHead + 1) % SAMPLE_BUFFER_SIZE;
    if (nextHead != sampleTail) {
      sampleBuffer[sampleHead] = s;
      sampleHead = nextHead;
    }
>>
    Both operands of [%] are promoted to [int] and are non-negative, so
    C's remainder is [Z.modulo]. *)
Definition store (s : Z) (st : state) : state :=
  let nextHead := to_uint8 ((sampleHead st + 1) mod SAMPLE_BUFFER_SIZE) in
  if negb (nextHead =? sampleTail st) then
    {| sampleBuffer := <[Z.to_nat (sampleHead st) := s]> (sampleBuffer st);
       sampleHead := nextHead;
       sampleTail := sampleTail st;
       sampleFlag := sampleFlag st;
       Signal := Signal st;
       serial := serial st |}
  else st.

(** The read block of [readPulseSensor], run with interrupts masked:
<<
    if (sampleTail != sampleHead) {
      s = sampleBuffer[sampleTail];
      sampleTail = (sampleTail + 1) % SAMPLE_BUFFER_SIZE;
      hasSample = true;
    }
>>
    The result is [Some s] when [hasSample] is set. *)
Definition take (st : state) : option Z * state :=
  if negb (sampleTail st =? sampleHead st) then
    (Some (sampleBuffer st !!! Z.to_nat (sampleTail st)),
     {| sampleBuffer := sampleBuffer st;
        sampleHead := sampleHead st;
        sampleTail := to_uint8 ((sampleTail st + 1) mod SAMPLE_BUFFER_SIZE);
        sampleFlag := sampleFlag st;
        Signal := Signal st;
        serial := serial st |})
  else (None, st).

(** [if (hasSample) { Signal = s; Serial.println(Signal); }] *)
Definition emit (r : option Z * state) : state :=
  match r with
  | (Some s, st) =>
      {| sampleBuffer := sampleBuffer st; sampleHead := sampleHead st;
         sampleTail := sampleTail st; sampleFlag := sampleFlag st;
         Signal := s; serial := serial st ++ [s] |}
  | (None, st) => st
  end.

(** The two kinds of sketch in the repository. *)
Inductive sketch := AVR | ESP32.

(** AVR: [ISR(TIMER1_COMPA_vect)] samples the ADC and stores the reading.
    ESP32: [onSampleTimer] only raises [sampleFlag]. *)
Definition onTimer (sk : sketch) (adc : Z) (st : state) : state :=
  match sk with
  | AVR => store adc st
  | ESP32 =>
      {| sampleBuffer := sampleBuffer st; sampleHead := sampleHead st;
         sampleTail := sampleTail st; sampleFlag := true;
         Signal := Signal st; serial := serial st |}
  end.

(** [readPulseSensor].  On ESP32 it first consumes the flag and, when it was
    raised, samples the ADC and runs the write block; both sketches then run
    the read block and print the sample they took. [adc] is what
    [analogRead] returns if it is called. *)
Definition readPulseSensor (sk : sketch) (adc : Z) (st : state) : state :=
  match sk with
  | AVR => emit (take st)
  | ESP32 =>
      let doSample := sampleFlag st in
      let st1 :=
        if doSample then
          {| sampleBuffer := sampleBuffer st; sampleHead := sampleHead st;
             sampleTail := sampleTail st; sampleFlag := false;
             Signal := Signal st; serial := serial st |}
        else st in
      let st2 := if doSample then store adc st1 else st1 in
      emit (take st2)
  end.

(** What can happen to the globals: the sampling timer fires, or [loop()]
    runs [readPulseSensor] once. Each carries the ADC reading available at
    that moment. *)
Inductive event := Timer (adc : Z) | Loop (adc : Z).

Definition step (sk : sketch) (ev : event) (st : state) : state :=
  match ev with
  | Timer adc => onTimer sk adc st
  | Loop adc => readPulseSensor sk adc st
  end.

(** Execution of a schedule of events, earliest first. *)
Definition run (sk : sketch) (evs : list event) (st : state) : state :=
  fold_left (fun st ev => step sk ev st) evs st.

(** Number of samples written and not yet read. *)
Definition stored (st : state) : nat :=
  Z.to_nat ((sampleHead st - sampleTail st) mod SAMPLE_BUFFER_SIZE).

(** The samples written and not yet read, oldest first: the slots from
    [sampleTail] up to, excluding, [sampleHead], cyclically. *)
Definition pending (st : state) : list Z :=
  (fun k : nat =>
     sampleBuffer st !!! Z.to_nat ((sampleTail st + Z.of_nat k) mod SAMPLE_BUFFER_SIZE))
  <$> seq 0 (stored st).

(** The buffer is full when the write block would refuse a sample. *)
Definition full (st : state) : bool :=
  to_uint8 ((sampleHead st + 1) mod SAMPLE_BUFFER_SIZE) =? sampleTail st.

(** Indices in range and the array of its declared size. *)
Definition wf (st : state) : Prop :=
  0 <= sampleHead st < SAMPLE_BUFFER_SIZE /\
  0 <= sampleTail st < SAMPLE_BUFFER_SIZE /\
  length (sampleBuffer st) = 64%nat.

(** A schedule in which the timer fires [n] times in a row, delivering the
    readings [1, 2, ..., n], while [loop()] never gets to run. *)
Definition ticks (n : nat) : list event :=
  (fun k : nat => Timer (Z.of_nat k)) <$> seq 1 n.

End Arduino.

(* ===================================================================== *)
(** * JavaScript numbers                                                  *)
(* ===================================================================== *)

Module JS.

(** A JavaScript [number]. *)
Abbreviation number := float.

(** A non-negative integer below 2^63 as a number; exact below 2^53. *)
Definition of_int (z : Z) : number := PrimFloat.of_uint63 (Uint63.of_Z z).

(** [values.length] as a number. An array holds fewer than 2^32 elements,
    so the conversion is exact. *)
Definition length_number (n : nat) : number := of_int (Z.of_nat n).

(** [Math.pow(x, 2)]. ECMAScript fixes its value at zeros, infinities and
    NaN and leaves the last bit elsewhere to the engine; the correctly
    rounded square is used here. *)
Definition Math_pow_2 (x : number) : number := (x * x)%float.

(** [Math.sqrt] and [Math.abs] are the binary64 operations. *)
Definition Math_sqrt (x : number) : number := PrimFloat.sqrt x.
Definition Math_abs (x : number) : number := PrimFloat.abs x.

(** Two classes of binary64 values, read off their decoded form: those that
    are neither zero nor NaN and carry the sign [sx], and those that are
    neither infinite nor NaN. *)
Definition signed_nonzero (sx : bool) (x : spec_float) : Prop :=
  match x with
  | S754_finite s _ _ | S754_infinity s => s = sx
  | _ => False
  end.

Definition finite_or_zero (x : spec_float) : Prop :=
  match x with
  | S754_zero _ | S754_finite _ _ _ => True
  | _ => False
  end.

(** Not NaN. *)
Definition a_number (x : spec_float) : Prop :=
  match x with
  | S754_nan => False
  | _ => True
  end.

(** Not NaN and not negative: [+0], a positive finite number or
    [+Infinity]. *)
Definition not_negative (x : spec_float) : Prop :=
  match x with
  | S754_zero false | S754_finite false _ _ | S754_infinity false => True
  | _ => False
  end.

End JS.

(* ===================================================================== *)
(** * react_native/src/utils/helpers.ts                                   *)
(* ===================================================================== *)

Module Helpers.
Import JS.
#[local] Open Scope float_scope.

(** [values.reduce((sum, val) => sum + val, 0)] *)
Definition sum (values : list number) : number :=
  fold_left PrimFloat.add values 0.

(**
<<
  export function average(values: number[]): number {
    if (values.length === 0) return 0;
    return values.reduce((sum, val) => sum + val, 0) / values.length;
  }
>> *)
Definition average (values : list number) : number :=
  if (length values =? 0)%nat then 0
  else sum values / length_number (length values).

(**
<<
  export function standardDeviation(values: number[]): number {
    if (values.length === 0) return 0;
    const avg = average(values);
    const squareDiffs = values.map((value) => Math.pow(value - avg, 2));
    return Math.sqrt(average(squareDiffs));
  }
>> *)
Definition standardDeviation (values : list number) : number :=
  if (length values =? 0)%nat then 0
  else
    let avg := average values in
    let squareDiffs := map (fun value => Math_pow_2 (value - avg)) values in
    Math_sqrt (average squareDiffs).

(** [return value >= min && value <= max;] *)
Definition isPhysiologicallyValid (value min max : number) : bool :=
  (min <=? value) && (value <=? max).

End Helpers.

(* ===================================================================== *)
(** * Sensor readings                                                     *)
(* ===================================================================== *)

(** The sketches print what [analogRead] returns: an integer from 0 to 1023
    (AVR) or 0 to 4095 (ESP32). The functions below decide, by running the
    additions and the division, that the mean of up to [lengths] copies of
    such a reading is the reading itself. *)

Module Readings.
Import JS.
#[local] Open Scope float_scope.

(** Largest reading of the 12-bit converter, and the longest segment: 3
    seconds at 1000 Hz. *)
Definition maxReading : nat := 4095.
Definition maxSegment : nat := 3000.

(** [n] copies of [c] added to [s], as [reduce] adds them. *)
Definition addCopies (c s : number) (n : nat) : number :=
  Nat.iter n (fun acc => acc + c) s.

(** The integer [n], counted up from 0. *)
Definition counted (n : nat) : number := addCopies 1 0 n.

(** [s] holds some copies of [c] and [k] their count: is the mean exact for
    each of the next [n] lengths? *)
Fixpoint meansExact (c s k : number) (n : nat) : bool :=
  match n with
  | O => true
  | S n' =>
      let s' := s + c in
      let k' := k + 1 in
      PrimFloat.Leibniz.eqb (s' / k') c && meansExact c s' k' n'
  end.

(** The same for the [n] readings from [c] upwards, each of them finite. *)
Fixpoint readingsExact (c : number) (n lengths : nat) : bool :=
  match n with
  | O => true
  | S n' => is_finite c && meansExact c 0 0 lengths && readingsExact (c + 1) n' lengths
  end.

(** Does the conversion of each of the [n] integers from [i] upwards agree
    with counting up to it? [k] is [i] counted. *)
Fixpoint countsAgree (k : number) (i n : nat) : bool :=
  match n with
  | O => true
  | S n' => PrimFloat.Leibniz.eqb (length_number i) k && countsAgree (k + 1) (S i) n'
  end.

End Readings.

(* ===================================================================== *)
(** * services/processing: the processor interface and its two backends   *)
(* ===================================================================== *)

Module Processor.
Import JS.

(** [types/index.ts] *)
Record PPGDataPoint := { timestamp : number; value : number }.

Record PPGDataBatch := {
  sessionId : string;
  deviceId : string;
  dataPoints : list PPGDataPoint;
  sampleRate : number;
  startTime : number;
  endTime : number
}.

Inductive Quality := good | fair | poor.

Record HRVMetrics := {
  rmssd : number;
  sdnn : option number;
  meanHR : option number;
  nnIntervals : option (list number);
  metricsTimestamp : number;
  quality : option Quality
}.

(** The part of the environment the processors read: the wall clock that
    [Date.now()] returns, in milliseconds since the epoch. *)
Record world := { clock : number }.

Definition Date_now (w : world) : number := clock w.

(** [IHRVProcessor], restricted to the two processing entry points. *)
Class IHRVProcessor (P : Type) := {
  processData : P -> world -> PPGDataBatch -> HRVMetrics;
  processRealtime : P -> world -> PPGDataBatch -> number -> option HRVMetrics
}.

Inductive JavaScriptHRVProcessor : Set := NewJavaScriptHRVProcessor.
Inductive PythonBridgeHRVProcessor : Set := NewPythonBridgeHRVProcessor.

(** Both backends end [processData] with
<<
    return { rmssd: 0, timestamp: Date.now() };
>>
    every processing step before it being commented out. *)
Definition placeholderMetrics (w : world) : HRVMetrics :=
  {| rmssd := 0%float; sdnn := None; meanHR := None; nnIntervals := None;
     metricsTimestamp := Date_now w; quality := None |}.

(** [JavaScriptHRVProcessor]: [processRealtime] returns [null]. *)
#[export] Instance javascript_processor : IHRVProcessor JavaScriptHRVProcessor := {
  processData := fun _ w _ => placeholderMetrics w;
  processRealtime := fun _ _ _ _ => None
}.

(** [PythonBridgeHRVProcessor]: [processRealtime] is
    [return this.processData(recentData);]. *)
#[export] Instance python_processor : IHRVProcessor PythonBridgeHRVProcessor := {
  processData := fun _ w _ => placeholderMetrics w;
  processRealtime := fun _ w recentData _ => Some (placeholderMetrics w)
}.

End Processor.

(* ===================================================================== *)
(** * The quality-gated extraction pipeline                               *)
(* ===================================================================== *)

(** The pipeline runs in a Python service ([main.py], [hrv_processor.py])
    that is not among the sources, and the TypeScript counterparts
    ([calculateRRIntervals], [removeArtifacts], [calculateRMSSD], ...) are
    commented-out stubs. The stages below are therefore written from the
    design document; they call the helpers of [helpers.ts] wherever the
    document asks for a mean, a standard deviation or a range test. *)

Module Pipeline.
Import JS Helpers.

(** Modelled from the spec: the data model of section 3, which no source
    file declares. A sample is a timestamp in milliseconds and an
    amplitude. *)
Record Sample := { timestamp : number; amplitude : number }.

(** Modelled from the spec: the configuration structure of section 9 with
    the defaults stated in section 4; the service's own settings are
    missing. Durations and rates are exact rationals. *)
Record Config := {
  flatlineStdThreshold : number;
  uniqueFractionThreshold : number;
  jumpThreshold : number;
  minPeaksPerSegment : nat;
  maxPeaksPerSegment : nat;
  minRR : number;
  maxRR : number;
  outlierK : number;
  relativeJumpPct : number;
  maxBadSegments : nat;
  minDurationSeconds : Q;
  minPeakDistanceMs : number
}.

(** Modelled from the spec: the default of every option (sections 4.1 to
    4.6). *)
Definition defaultConfig : Config :=
  {| flatlineStdThreshold := 1%float;
     uniqueFractionThreshold := 0.02%float;
     jumpThreshold := 2000%float;
     minPeaksPerSegment := 2;
     maxPeaksPerSegment := 6;
     minRR := 300%float;
     maxRR := 2000%float;
     outlierK := 3%float;
     relativeJumpPct := 20%float;
     maxBadSegments := 0;
     minDurationSeconds := 10%Q;
     minPeakDistanceMs := 300%float |}.

(** Modelled from the spec: the request field [max_bad_segments], which
    overrides the tolerance and nothing else. *)
Definition withMaxBadSegments (k : nat) (cfg : Config) : Config :=
  {| flatlineStdThreshold := flatlineStdThreshold cfg;
     uniqueFractionThreshold := uniqueFractionThreshold cfg;
     jumpThreshold := jumpThreshold cfg;
     minPeaksPerSegment := minPeaksPerSegment cfg;
     maxPeaksPerSegment := maxPeaksPerSegment cfg;
     minRR := minRR cfg;
     maxRR := maxRR cfg;
     outlierK := outlierK cfg;
     relativeJumpPct := relativeJumpPct cfg;
     maxBadSegments := k;
     minDurationSeconds := minDurationSeconds cfg;
     minPeakDistanceMs := minPeakDistanceMs cfg |}.

(** Modelled from the spec: the error taxonomy of section 7. *)
Inductive ErrorClass :=
  | ConfigurationError
  | InsufficientDataError
  | PoorSignalQualityError
  | InsufficientPeaksError
  | InsufficientIntervalsError.

(** Modelled from the spec: the failure output of section 6,
    [{success: false, error: string, badSegments: int}], with its
    classification. *)
Record Failure := {
  errorClass : ErrorClass;
  error : string;
  failureBadSegments : nat
}.

(** Modelled from the spec: the success output of section 6. *)
Record HRVResult := {
  rmssd : number;
  sdnn : number;
  meanHR : number;
  nnIntervals : list number;
  badSegments : nat
}.

(** Modelled from the spec: the two final states of the orchestrator,
    [Done] holding the result and [Failed] the classified failure. *)
Inductive Outcome :=
  | Done (r : HRVResult)
  | Failed (f : Failure).

(** Modelled from the spec: a stage either hands a value to the next stage
    or fails the invocation (section 4.8: any stage failure goes directly
    to [Failed]). *)
Inductive Stage (A : Type) :=
  | Pass (a : A)
  | Fail (f : Failure).
Arguments Pass {A} a.
Arguments Fail {A} f.

(** Sequencing of stages, written [x ← stage; rest]. *)
#[export] Instance Stage_bind : MBind Stage := fun A B k c =>
  match c with
  | Pass a => k a
  | Fail f => Fail f
  end.

(** Decimal rendering of a count inside a message. *)
Definition decimal (n : nat) : string := NilZero.string_of_uint (Nat.to_uint n).

Definition Qlt_bool (a b : Q) : bool := negb (Qle_bool b a).

(** ** 4.1 Windower, batch mode *)

(** Modelled from the spec: [samplingRate] must lie in (0, 1000]. *)
Definition validSamplingRate (rate : Q) : bool :=
  Qlt_bool 0 rate && Qle_bool rate 1000.

(** Modelled from the spec: the input covers less than
    [minDurationSeconds], i.e. [sampleCount < samplingRate * 10] with the
    default. *)
Definition tooShort (cfg : Config) (sampleCount : nat) (rate : Q) : bool :=
  Qlt_bool (inject_Z (Z.of_nat sampleCount)) (rate * minDurationSeconds cfg).

(** Modelled from the spec: batch-mode validation of the Windower, in the
    order of section 6: configuration bounds, then minimum duration. The
    request validation of the service is missing. No segment has been
    scored at this point, so the payload reports 0 bad segments. *)
Definition validateBatch (cfg : Config) (samples : list Sample) (rate : Q)
  : Stage (list Sample) :=
  if negb (validSamplingRate rate) then
    Fail {| errorClass := ConfigurationError;
            error := "sampling rate must be > 0 and <= 1000";
            failureBadSegments := 0 |}
  else if tooShort cfg (length samples) rate then
    Fail {| errorClass := InsufficientDataError;
            error := "Insufficient data: less than the minimum duration of samples";
            failureBadSegments := 0 |}
  else Pass samples.

(** ** 4.2 SegmentQualityAnalyzer *)

(** Rounding to the nearest integer, halves upwards. *)
Definition roundQ (q : Q) : Z := Qfloor (q + (1 # 2)).

(** Modelled from the spec: [segmentSampleCount = round(3 * samplingRate)]. *)
Definition segmentSampleCount (rate : Q) : nat := Z.to_nat (roundQ (3 * rate)).

(** Modelled from the spec: the number of full segments of a window of
    [sampleCount] samples; a trailing partial segment is not counted. *)
Definition totalSegmentCount (rate : Q) (sampleCount : nat) : nat :=
  (sampleCount / segmentSampleCount rate)%nat.

(** Modelled from the spec: the full 3-second segments of a window, in
    order; the segmentation code of the service is missing. Segment [i]
    holds the samples [i * L .. (i + 1) * L - 1]. *)
Definition fullSegments (rate : Q) (samples : list Sample) : list (list Sample) :=
  (fun i : nat => take (segmentSampleCount rate) (drop (i * segmentSampleCount rate) samples))
  <$> seq 0 (totalSegmentCount rate (length samples)).

(** The four quality checks. *)
Inductive QualityCheck := Flatline | Clipping | ExtremeJump | PeakImplausible.

(** The peak detector of section 4.4 (band-pass filter, then local maxima
    under separation and prominence constraints) is specified only in
    outline; it is a parameter of the pipeline. It maps samples and their
    sampling rate to the timestamps of the peaks. *)
Definition PeakDetector : Type := list Sample -> Q -> list number.

(** Modelled from the spec: check 1, standard deviation of amplitude below
    [flatlineStdThreshold]. *)
Definition isFlatline (cfg : Config) (amplitudes : list number) : bool :=
  (standardDeviation amplitudes <? flatlineStdThreshold cfg)%float.

(** The distinct values of a list, compared as numbers. *)
Definition distinctValues (xs : list number) : list number :=
  fold_right (fun x acc => if existsb (PrimFloat.eqb x) acc then acc else x :: acc) [] xs.

(** Modelled from the spec: check 2, fraction of distinct amplitude values
    below [uniqueFractionThreshold]. *)
Definition isClipped (cfg : Config) (amplitudes : list number) : bool :=
  (length_number (length (distinctValues amplitudes)) / length_number (length amplitudes)
   <? uniqueFractionThreshold cfg)%float.

(** Largest absolute difference between neighbouring values. *)
Fixpoint maxAbsDelta (xs : list number) : number :=
  match xs with
  | a :: (b :: _) as rest =>
      let d := Math_abs (b - a)%float in
      let m := maxAbsDelta rest in
      if (m <? d)%float then d else m
  | _ => 0%float
  end.

(** Modelled from the spec: check 3, maximum sample-to-sample delta above
    [jumpThreshold]. *)
Definition hasExtremeJump (cfg : Config) (amplitudes : list number) : bool :=
  (jumpThreshold cfg <? maxAbsDelta amplitudes)%float.

(** Modelled from the spec: check 4, number of detected peaks outside
    [minPeaksPerSegment, maxPeaksPerSegment]. *)
Definition peakCountImplausible (cfg : Config) (peakCount : nat) : bool :=
  (peakCount <? minPeaksPerSegment cfg)%nat || (maxPeaksPerSegment cfg <? peakCount)%nat.

(** Modelled from the spec: [SegmentQualityResult] of section 3. *)
Record SegmentQualityResult := {
  index : nat;
  passed : bool;
  failedChecks : list QualityCheck
}.

Definition flag (b : bool) (c : QualityCheck) : list QualityCheck :=
  if b then [c] else [].

(** Modelled from the spec: scoring of one segment against the four
    independent checks, any one failing marks the segment failed. *)
Definition scoreSegment (cfg : Config) (detectPeaks : PeakDetector) (rate : Q)
    (i : nat) (segment : list Sample) : SegmentQualityResult :=
  let amplitudes := amplitude <$> segment in
  let failed :=
    flag (isFlatline cfg amplitudes) Flatline ++
    flag (isClipped cfg amplitudes) Clipping ++
    flag (hasExtremeJump cfg amplitudes) ExtremeJump ++
    flag (peakCountImplausible cfg (length (detectPeaks segment rate))) PeakImplausible in
  {| index := i;
     passed := match failed with [] => true | _ => false end;
     failedChecks := failed |}.

(** Modelled from the spec: the analyzer's output, one result per full
    segment, in segment order. *)
Definition analyzeSegments (cfg : Config) (detectPeaks : PeakDetector) (rate : Q)
    (samples : list Sample) : list SegmentQualityResult :=
  imap (scoreSegment cfg detectPeaks rate) (fullSegments rate samples).

(** ** 4.3 QualityGate *)

(** Modelled from the spec: [badSegments = count(result.passed == false)],
    counted in one pass over the results. *)
Definition countBadSegments (results : list SegmentQualityResult) : nat :=
  fold_left (fun bad r => if passed r then bad else S bad) results 0%nat.

(** Modelled from the spec: [QualityDecision] of section 3. *)
Record QualityDecision := {
  accepted : bool;
  badSegmentCount : nat;
  maxAllowed : nat
}.

(** Modelled from the spec: [accepted = badSegments <= maxBadSegments]. *)
Definition qualityGate (cfg : Config) (results : list SegmentQualityResult)
  : QualityDecision :=
  let bad := countBadSegments results in
  {| accepted := (bad <=? maxBadSegments cfg)%nat;
     badSegmentCount := bad;
     maxAllowed := maxBadSegments cfg |}.

(** Modelled from the spec: the diagnostic of a rejection, worded as the
    service's README shows it:
    ["Poor signal quality: 3 bad segments detected (max allowed: 2)"]. *)
Definition poorQualityMessage (bad maxBad : nat) : string :=
  ("Poor signal quality: " ++ decimal bad ++ " bad segments detected (max allowed: "
   ++ decimal maxBad ++ ")")%string.

(** Modelled from the spec: the gate as a pipeline stage; a rejection is
    routed to [Failed] with [PoorSignalQualityError]. *)
Definition gateStage (cfg : Config) (results : list SegmentQualityResult) : Stage nat :=
  let decision := qualityGate cfg results in
  if accepted decision then Pass (badSegmentCount decision)
  else Fail {| errorClass := PoorSignalQualityError;
               error := poorQualityMessage (badSegmentCount decision) (maxAllowed decision);
               failureBadSegments := badSegmentCount decision |}.

(** ** 4.4 PeakDetector *)

(** Modelled from the spec: fewer than 2 peaks over the whole window fail
    with [InsufficientPeaksError]. *)
Definition peakStage (detectPeaks : PeakDetector) (rate : Q) (bad : nat)
    (samples : list Sample) : Stage (list number) :=
  let peaks := detectPeaks samples rate in
  if (length peaks <? 2)%nat then
    Fail {| errorClass := InsufficientPeaksError;
            error := "fewer than 2 peaks detected";
            failureBadSegments := bad |}
  else Pass peaks.

(** ** 4.5 IntervalExtractor *)

(** Differences of neighbours, [xs[i+1] - xs[i]], in order. *)
Fixpoint successiveDifferences (xs : list number) : list number :=
  match xs with
  | a :: (b :: _) as rest => (b - a)%float :: successiveDifferences rest
  | _ => []
  end.

(** Modelled from the spec: the peak detector returns a strictly increasing
    sequence of peak timestamps (section 4.4); this is the test of it. *)
Fixpoint strictlyIncreasing (xs : list number) : bool :=
  match xs with
  | a :: (b :: _) as rest => (a <? b)%float && strictlyIncreasing rest
  | _ => true
  end.

(** Modelled from the spec: [RR[i] = timestamp(peak[i+1]) - timestamp(peak[i])]
    for consecutive peak pairs; [calculateRRIntervals] is a commented-out
    stub in the TypeScript processor. *)
Definition calculateRRIntervals (peakTimestamps : list number) : list number :=
  successiveDifferences peakTimestamps.

(** The stub of [calculateRRIntervals] in the TypeScript processor
    describes the same extraction on peak positions counted in samples:
    [interval[i] = (peaks[i+1] - peaks[i]) / sampleRate * 1000]. *)
Definition rrFromPeakIndices (peakIndices : list number) (sampleRate : number)
  : list number :=
  (fun d => (d / sampleRate * 1000)%float) <$> successiveDifferences peakIndices.

(** ** 4.6 ArtifactRejector *)

(** Modelled from the spec: the running mean and the standard deviation of
    the outlier rule. The rejector is a sequential filter, so they are taken
    over the intervals accepted so far, with [average] and
    [standardDeviation] of [helpers.ts]. *)
Definition runningMean (accepted : list number) : number := average accepted.
Definition runningSD (accepted : list number) : number := standardDeviation accepted.

(** The document does not say how many intervals must have been accepted
    before the outlier rule applies. With none the mean is 0, and with one
    the deviation is 0, so that every other interval deviates by more than
    any multiple of it. That count is the one setting of the statistics. *)
Record RunningStats := { warmUp : nat }.

(** The outlier rule applies once two intervals have been accepted. *)
Definition helperStats : RunningStats := {| warmUp := 2 |}.

(** What the rejector carries along the sequence: the intervals accepted so
    far, in order, and the last accepted one. *)
Record RejectorState := {
  acceptedSoFar : list number;
  lastAccepted : option number
}.

Definition rejectorStart : RejectorState :=
  {| acceptedSoFar := []; lastAccepted := None |}.

(** Modelled from the spec: outside [[minRR, maxRR]]. *)
Definition outOfRange (cfg : Config) (rr : number) : bool :=
  negb (isPhysiologicallyValid rr (minRR cfg) (maxRR cfg)).

(** Modelled from the spec: deviates from the running mean by more than
    [outlierK] standard deviations, once [warmUp] intervals have been
    accepted. *)
Definition isOutlier (cfg : Config) (stats : RunningStats) (st : RejectorState)
    (rr : number) : bool :=
  (warmUp stats <=? length (acceptedSoFar st))%nat &&
  (outlierK cfg * runningSD (acceptedSoFar st)
   <? Math_abs (rr - runningMean (acceptedSoFar st)))%float.

(** Modelled from the spec: differs from the last accepted interval by more
    than [relativeJumpPct] percent; nothing to compare with before the first
    acceptance. *)
Definition isRelativeJump (cfg : Config) (st : RejectorState) (rr : number) : bool :=
  match lastAccepted st with
  | Some reference =>
      (relativeJumpPct cfg / 100 * Math_abs reference <? Math_abs (rr - reference))%float
  | None => false
  end.

(** Modelled from the spec: the three removal conditions of section 4.6. *)
Definition isArtifact (cfg : Config) (stats : RunningStats) (st : RejectorState)
    (rr : number) : bool :=
  outOfRange cfg rr || isOutlier cfg stats st rr || isRelativeJump cfg st rr.

(** Modelled from the spec: one step of the sequential filter. A rejected
    interval is dropped and leaves the state alone; an accepted one is
    appended and becomes the reference. *)
Definition rejectorStep (cfg : Config) (stats : RunningStats) (st : RejectorState)
    (rr : number) : RejectorState :=
  if isArtifact cfg stats st rr then st
  else {| acceptedSoFar := acceptedSoFar st ++ [rr]; lastAccepted := Some rr |}.

(** Modelled from the spec: the ArtifactRejector; [removeArtifacts] is a
    commented-out stub in the TypeScript processor. *)
Definition removeArtifacts (cfg : Config) (stats : RunningStats) (rrIntervals : list number)
  : list number :=
  acceptedSoFar (fold_left (rejectorStep cfg stats) rrIntervals rejectorStart).



(** ** 4.7 MetricsCalculator *)

(** Modelled from the spec: [RMSSD = sqrt(mean_i((RR[i+1] - RR[i])^2))];
    [calculateRMSSD] is a commented-out stub in the TypeScript processor. *)
Definition calculateRMSSD (rrIntervals : list number) : number :=
  Math_sqrt (average (Math_pow_2 <$> successiveDifferences rrIntervals)).

(** Modelled from the spec: [SDNN = population_stddev(cleaned RR)]. *)
Definition calculateSDNN (rrIntervals : list number) : number :=
  standardDeviation rrIntervals.

(** Modelled from the spec: [meanHR = 60000 / mean(cleaned RR)]. *)
Definition calculateMeanHR (rrIntervals : list number) : number :=
  (60000 / average rrIntervals)%float.

(** Modelled from the spec: at least 2 cleaned intervals are required,
    otherwise [InsufficientIntervalsError]. Rounding of the outputs is left
    to the implementation by the document and is not applied. *)
Definition metricsStage (bad : nat) (cleaned : list number) : Stage HRVResult :=
  if (length cleaned <? 2)%nat then
    Fail {| errorClass := InsufficientIntervalsError;
            error := "fewer than 2 valid RR intervals";
            failureBadSegments := bad |}
  else
    Pass {| rmssd := calculateRMSSD cleaned;
            sdnn := calculateSDNN cleaned;
            meanHR := calculateMeanHR cleaned;
            nnIntervals := cleaned;
            badSegments := bad |}.

(** ** 4.8 Pipeline Orchestrator *)

(** Modelled from the spec: the stages that follow an accepting gate, peak
    detection, interval extraction, artifact rejection and metrics; [bad] is
    the number of bad segments the gate let through. *)
Definition afterGate (cfg : Config) (detectPeaks : PeakDetector) (stats : RunningStats)
    (rate : Q) (window : list Sample) (bad : nat) : Stage HRVResult :=
  peaks ← peakStage detectPeaks rate bad window;
  metricsStage bad (removeArtifacts cfg stats (calculateRRIntervals peaks)).

(** Modelled from the spec: the stages in their fixed forward order; the
    first failure ends the invocation. The orchestrating endpoint of the
    service is missing. *)
Definition stages (cfg : Config) (detectPeaks : PeakDetector) (stats : RunningStats)
    (samples : list Sample) (rate : Q) : Stage HRVResult :=
  window ← validateBatch cfg samples rate;
  bad ← gateStage cfg (analyzeSegments cfg detectPeaks rate window);
  afterGate cfg detectPeaks stats rate window bad.

Definition runPipeline (cfg : Config) (detectPeaks : PeakDetector) (stats : RunningStats)
    (samples : list Sample) (rate : Q) : Outcome :=
  match stages cfg detectPeaks stats samples rate with
  | Pass r => Done r
  | Fail f => Failed f
  end.

(** A window of [n] samples of one amplitude [c], sampled every [step]
    milliseconds from time 0. *)
Definition constantWindow (c step : number) (n : nat) : list Sample :=
  (fun k : nat => {| timestamp := (length_number k * step)%float; amplitude := c |})
  <$> seq 0 n.

(** A detector that reports the same peaks whatever the samples. *)
Definition fixedPeaks (peaks : list number) : PeakDetector := fun _ _ => peaks.

End Pipeline.

(* ===================================================================== *)
(** * Schedules of the sample buffer                                      *)
(* ===================================================================== *)

(** What a schedule of timer interrupts and [loop()] iterations offers to
    the sketches of [Arduino], for comparison with what they print. *)

Module Handoff.
Import Arduino.

(** The readings the ADC holds at the timer interrupts, earliest first: on
    AVR these are the values [ISR(TIMER1_COMPA_vect)] reads. *)
Definition timerReadings (evs : list event) : list Z :=
  omap (fun ev => match ev with Timer adc => Some adc | Loop _ => None end) evs.

(** The number of timer interrupts of an AVR schedule, run from [st], that
    find the buffer full. *)
Fixpoint overruns (evs : list event) (st : state) : nat :=
  match evs with
  | [] => 0
  | ev :: evs' =>
      ((match ev with Timer _ => if full st then 1 else 0 | Loop _ => 0 end)
       + overruns evs' (step AVR ev st))%nat
  end.

(** The readings of the [loop()] iterations that come first after a timer
    interrupt; [armed] tells whether an interrupt is still unanswered. *)
Fixpoint sampled (armed : bool) (evs : list event) : list Z :=
  match evs with
  | [] => []
  | Timer _ :: evs' => sampled true evs'
  | Loop adc :: evs' =>
      if armed then adc :: sampled false evs' else sampled false evs'
  end.

(** [loop()] running once for each element of [adcs], with no interrupt in
    between. *)
Definition loops (adcs : list Z) : list event := Loop <$> adcs.

End Handoff.

(* ===================================================================== *)
(** * The Polar receiver: [setupPolarSensor] and [readPolarSensor]         *)
(* ===================================================================== *)

(** The two functions are the same text in [ppg_sensor_only.cpp], in
    [test/compare_sensors_and_export.cpp] and in the first ESP32 sketch; they
    differ by the width of [int] on the board. Signed overflow and division
    by zero are undefined in C: a call that meets either has no state to
    return, only the [fault]. *)

Module Polar.
Import Arduino(sketch, AVR, ESP32).

(** Width of [int]: 16 bits on the AVR boards, 32 on the ESP32.
    [unsigned long] has 32 bits on both. *)
Definition intBits (sk : sketch) : Z :=
  match sk with AVR => 16 | ESP32 => 32 end.

Definition INT_MAX (sk : sketch) : Z := 2 ^ (intBits sk - 1) - 1.
Definition INT_MIN (sk : sketch) : Z := - 2 ^ (intBits sk - 1).

(** What C leaves undefined in [readPolarSensor]. *)
Inductive fault := DivisionByZero | SignedOverflow.

Inductive outcome (A : Type) :=
  | Ok (a : A)
  | Undefined (f : fault).
Arguments Ok {A} a.
Arguments Undefined {A} f.

(** Sequencing: the first fault ends the call. *)
#[export] Instance outcome_bind : MBind outcome := fun A B k c =>
  match c with
  | Ok a => k a
  | Undefined f => Undefined f
  end.

(** The value of an [int] expression: the exact result when [int] can
    hold it. *)
Definition int_of (sk : sketch) (z : Z) : outcome Z :=
  if (INT_MIN sk <=? z) && (z <=? INT_MAX sk) then Ok z else Undefined SignedOverflow.

(** Conversion of an [unsigned long] to [int], which C leaves to the
    implementation and gcc defines as reduction modulo 2^width into the
    signed range. *)
Definition to_int (sk : sketch) (z : Z) : Z :=
  (z + 2 ^ (intBits sk - 1)) mod 2 ^ intBits sk - 2 ^ (intBits sk - 1).

(** [unsigned long] arithmetic wraps modulo 2^32. *)
Definition to_ulong (z : Z) : Z := z mod 2 ^ 32.

(** [const int polarNumReadings = 5;] *)
Definition polarNumReadings : Z := 5.

(** The globals of the Polar receiver; [serial] lists the lines printed,
    oldest first. *)
Record state := mkState {
  polarOldSample : Z;
  polarSample : Z;
  polarBeatCount : Z;
  polarLastBeatTime : Z;
  polarCurrentBeatTime : Z;
  polarBeatInterval : Z;
  polarBPM : Z;
  polarBpmReadings : list Z;
  polarReadIndex : Z;
  polarBpmTotal : Z;
  polarBpmAverage : Z;
  serial : list string
}.

(** Static initialisation: every global is zero. *)
Definition init : state :=
  {| polarOldSample := 0; polarSample := 0; polarBeatCount := 0;
     polarLastBeatTime := 0; polarCurrentBeatTime := 0; polarBeatInterval := 0;
     polarBPM := 0; polarBpmReadings := replicate 5 0; polarReadIndex := 0;
     polarBpmTotal := 0; polarBpmAverage := 0; serial := [] |}.

(** [Serial.print] of an [int]: its decimal digits, with a minus sign when
    negative. *)
Definition print_int (z : Z) : string := NilZero.string_of_int (Z.to_int z).

(** The line a beat prints, up to the line break of [Serial.println()]:
<<
      Serial.print(">");
      Serial.print("PolarRealtimeBPM:");
      Serial.print(polarBPM);
      Serial.print(",PolarBPM:");
      Serial.print(polarBpmAverage);
      Serial.println();
>> *)
Definition line (bpm avg : Z) : string :=
  (">" ++ "PolarRealtimeBPM:" ++ print_int bpm ++ ",PolarBPM:" ++ print_int avg)%string.

(** [setupPolarSensor]:
<<
  Serial.println("Waiting for heart beat...");
  for (int i = 0; i < polarNumReadings; i++) {
    polarBpmReadings[i] = 0;
  }
  while (!digitalRead(POLAR_PIN)) {};
  Serial.println("Heart beat detected!");
  polarLastBeatTime = millis();
>>
    [pins] lists what the successive [digitalRead]s of the wait see; the
    function returns once one of them is HIGH, and [now] is [millis()] at
    that moment. With no HIGH among them it is still waiting. *)
Definition setupPolarSensor (pins : list bool) (now : Z) (st : state) : option state :=
  if existsb id pins then
    Some {| polarOldSample := polarOldSample st;
            polarSample := polarSample st;
            polarBeatCount := polarBeatCount st;
            polarLastBeatTime := to_ulong now;
            polarCurrentBeatTime := polarCurrentBeatTime st;
            polarBeatInterval := polarBeatInterval st;
            polarBPM := polarBPM st;
            polarBpmReadings :=
              fold_left (fun readings i => <[i := 0]> readings)
                        (seq 0 (Z.to_nat polarNumReadings)) (polarBpmReadings st);
            polarReadIndex := polarReadIndex st;
            polarBpmTotal := polarBpmTotal st;
            polarBpmAverage := polarBpmAverage st;
            serial := serial st ++ ["Waiting for heart beat..."; "Heart beat detected!"]%string |}
  else None.

(** [readPolarSensor]; [pin] is what [digitalRead(POLAR_PIN)] returns and
    [now] what [millis()] returns if it is called.
<<
  polarSample = digitalRead(POLAR_PIN);
  if (polarSample && (polarOldSample != polarSample)) {
    polarCurrentBeatTime = millis();
    polarBeatInterval = polarCurrentBeatTime - polarLastBeatTime;
    polarLastBeatTime = polarCurrentBeatTime;
    polarBPM = 60000 / polarBeatInterval;
    polarBpmTotal = polarBpmTotal - polarBpmReadings[polarReadIndex];
    polarBpmReadings[polarReadIndex] = polarBPM;
    polarBpmTotal = polarBpmTotal + polarBpmReadings[polarReadIndex];
    polarReadIndex = (polarReadIndex + 1) % polarNumReadings;
    polarBpmAverage = polarBpmTotal / polarNumReadings;
    if (polarBeatCount > 5) { ... the line ... }
    polarBeatCount++;
  }
  polarOldSample = polarSample;
>>
    The division is one of [unsigned long]s ([60000] does not fit a 16-bit
    [int]), its quotient is converted to [int]; the sums, the increment
    and [%] and [/] by [polarNumReadings] are [int] arithmetic, with C's
    truncating quotient and remainder. *)
Definition readPolarSensor (sk : sketch) (pin : bool) (now : Z) (st : state) : outcome state :=
  let sample := if pin then 1 else 0 in
  if negb (sample =? 0) && negb (polarOldSample st =? sample) then
    let current := to_ulong now in
    let interval := to_ulong (current - polarLastBeatTime st) in
    if interval =? 0 then Undefined DivisionByZero
    else
      let bpm := to_int sk (60000 / interval) in
      let i := Z.to_nat (polarReadIndex st) in
      total ← int_of sk (polarBpmTotal st - polarBpmReadings st !!! i);
      let readings := <[i := bpm]> (polarBpmReadings st) in
      total ← int_of sk (total + readings !!! i);
      next ← int_of sk (polarReadIndex st + 1);
      let average := Z.quot total polarNumReadings in
      let printed :=
        if polarBeatCount st >? 5 then serial st ++ [line bpm average]
        else serial st in
      count ← int_of sk (polarBeatCount st + 1);
      Ok {| polarOldSample := sample;
            polarSample := sample;
            polarBeatCount := count;
            polarLastBeatTime := current;
            polarCurrentBeatTime := current;
            polarBeatInterval := interval;
            polarBPM := bpm;
            polarBpmReadings := readings;
            polarReadIndex := Z.rem next polarNumReadings;
            polarBpmTotal := total;
            polarBpmAverage := average;
            serial := printed |}
  else
    Ok {| polarOldSample := sample;
          polarSample := sample;
          polarBeatCount := polarBeatCount st;
          polarLastBeatTime := polarLastBeatTime st;
          polarCurrentBeatTime := polarCurrentBeatTime st;
          polarBeatInterval := polarBeatInterval st;
          polarBPM := polarBPM st;
          polarBpmReadings := polarBpmReadings st;
          polarReadIndex := polarReadIndex st;
          polarBpmTotal := polarBpmTotal st;
          polarBpmAverage := polarBpmAverage st;
          serial := serial st |}.

(** Successive calls, as [loop()] makes them; each comes with the pin level
    and the clock it meets. *)
Fixpoint run (sk : sketch) (calls : list (bool * Z)) (st : state) : outcome state :=
  match calls with
  | [] => Ok st
  | (pin, now) :: calls' => st' ← readPolarSensor sk pin now st; run sk calls' st'
  end.

(** ** The beats of a schedule of calls *)

(** The calls that detect a beat: the pin reads HIGH and the sample kept
    from the call before is LOW. Listed are the values of [millis()]. *)
Fixpoint beats (old : bool) (calls : list (bool * Z)) : list Z :=
  match calls with
  | [] => []
  | (pin, now) :: calls' =>
      if pin && negb old then now :: beats pin calls' else beats pin calls'
  end.

(** The intervals between successive beats, in [unsigned long] arithmetic;
    [last] is the time of the beat before the first. *)
Fixpoint intervals (last : Z) (times : list Z) : list Z :=
  match times with
  | [] => []
  | t :: times' => to_ulong (to_ulong t - last) :: intervals (to_ulong t) times'
  end.

(** The pin level of the last call, and the time of the last beat. *)
Definition lastPin (old : bool) (calls : list (bool * Z)) : bool :=
  default old (last (fst <$> calls)).

Definition lastTime (t0 : Z) (times : list Z) : Z :=
  default t0 (last (to_ulong <$> times)).

(** [polarBPM] for a beat interval. *)
Definition bpmOf (sk : sketch) (interval : Z) : Z := to_int sk (60000 / interval).

(** The sum of a list of integers. *)
Definition sumZ (l : list Z) : Z := foldr Z.add 0 l.

(** The five most recent values, zeros standing for the beats not yet seen. *)
Definition recent (bpms : list Z) : list Z :=
  drop (length bpms) (replicate 5 0 ++ bpms).

(** Their mean, as C's [/] truncates it. *)
Definition average5 (bpms : list Z) : Z := Z.quot (sumZ (recent bpms)) 5.

(** The lines of a run: beat number [i], counted from 0, prints from [i = 6]
    on, its own rate and the mean of the five rates up to it. *)
Definition report (bpms : list Z) : list string :=
  (fun i : nat => line (bpms !!! i) (average5 (take (S i) bpms)))
  <$> seq 6 (length bpms - 6).

(** The globals when [loop()] starts, with or without [setupPolarSensor]. *)
Definition atStart (st : state) : Prop :=
  polarOldSample st = 0 /\ polarBeatCount st = 0 /\
  polarBPM st = 0 /\ polarBpmReadings st = replicate 5 0 /\
  polarReadIndex st = 0 /\ polarBpmTotal st = 0 /\ polarBpmAverage st = 0.

(** The shortest beat interval, in ms, for which five rates add up within
    an [int]. *)
Definition minInterval (sk : sketch) : Z :=
  match sk with AVR => 10 | ESP32 => 1 end.

(** The largest rate such intervals give. *)
Definition maxRate (sk : sketch) : Z := 60000 / minInterval sk.

(** The stored rates, oldest first: the slots from [polarReadIndex] on,
    cyclically. *)
Definition window (st : state) : list Z :=
  drop (Z.to_nat (polarReadIndex st)) (polarBpmReadings st) ++
  take (Z.to_nat (polarReadIndex st)) (polarBpmReadings st).

(** The index stays within the array, and the running total is the sum of
    the stored rates. *)
Definition consistent (st : state) : Prop :=
  length (polarBpmReadings st) = 5%nat /\
  0 <= polarReadIndex st < polarNumReadings /\
  polarBpmTotal st = sumZ (window st).

(** What the globals hold after a schedule of calls that started from
    [st0], in terms of the rates of the beats. *)
Definition tracks (sk : sketch) (st0 : state) (calls : list (bool * Z)) (st : state) : Prop :=
  let times := beats false calls in
  let bpms := bpmOf sk <$> intervals (polarLastBeatTime st0) times in
  polarOldSample st = (if lastPin false calls then 1 else 0) /\
  polarLastBeatTime st = lastTime (polarLastBeatTime st0) times /\
  polarBeatCount st = Z.of_nat (length bpms) /\
  consistent st /\
  polarReadIndex st = Z.of_nat (length bpms) mod 5 /\
  window st = recent bpms /\
  polarBPM st = default 0 (last bpms) /\
  polarBpmAverage st = average5 bpms /\
  serial st = serial st0 ++ report bpms.

(** A schedule for the examples: a beat every [period] ms, the pin
    released between beats. *)
Definition steady (period : Z) (n : nat) : list (bool * Z) :=
  flat_map (fun k : nat => [(true, period * Z.of_nat k); (false, period * Z.of_nat k + 1)])
           (seq 1 n).

End Polar.

(* ===================================================================== *)
(** * The factories and the objects they create                          *)
(* ===================================================================== *)

(** [HRVProcessorFactory] and [DataCollectorFactory], with the methods of
    the processor and collector classes that return a value. The [async]
    methods are modelled by the value their promise resolves to. *)

Module Factories.
Import JS Processor.
#[local] Open Scope string_scope.

(** How a call completes: with a value, or with a thrown [Error] and its
    message. *)
Inductive completion (A : Type) :=
  | Return (a : A)
  | Throw (message : string).
Arguments Return {A} a.
Arguments Throw {A} message.

(** What [getProcessorInfo] and [checkSignalQuality] return. *)
Record ProcessorInfo := { name : string; version : string; type : string }.

Record QualityReport := {
  reportQuality : Quality;
  score : number;
  issues : option (list string)
}.

(** An object behind the [IHRVProcessor] interface. *)
Inductive HRVProcessor :=
  | JavaScript (p : JavaScriptHRVProcessor)
  | PythonBridge (p : PythonBridgeHRVProcessor).

Definition getProcessorInfo (p : HRVProcessor) : ProcessorInfo :=
  match p with
  | JavaScript _ =>
      {| name := "JavaScriptHRVProcessor"; version := "1.0.0"; type := "javascript" |}
  | PythonBridge _ =>
      {| name := "PythonBridgeHRVProcessor"; version := "1.0.0"; type := "python" |}
  end.

(** In both classes: [return { quality: 'good', score: 0.95 };] *)
Definition checkSignalQuality (p : HRVProcessor) (data : PPGDataBatch) : QualityReport :=
  {| reportQuality := good; score := 0.95%float; issues := None |}.

(** The two processing methods, dispatched on the class of the object. *)
Definition processDataOf (p : HRVProcessor) (w : world) (data : PPGDataBatch) : HRVMetrics :=
  match p with
  | JavaScript q => processData q w data
  | PythonBridge q => processData q w data
  end.

Definition processRealtimeOf (p : HRVProcessor) (w : world) (recentData : PPGDataBatch)
    (windowSize : number) : option HRVMetrics :=
  match p with
  | JavaScript q => processRealtime q w recentData windowSize
  | PythonBridge q => processRealtime q w recentData windowSize
  end.

(** [HRVProcessorFactory]. A [switch] compares its subject with [===]; a
    caller outside the type checker can pass any string, which the
    [default] branches answer. *)
Module HRVProcessorFactory.

Definition create (type : string) : completion HRVProcessor :=
  if String.eqb type "javascript" then Return (JavaScript NewJavaScriptHRVProcessor)
  else if String.eqb type "python" then Return (PythonBridge NewPythonBridgeHRVProcessor)
  else if String.eqb type "hybrid" then Throw "Hybrid processor not yet implemented"
  else Throw ("Unknown processor type: " ++ type).

Definition fromConfig : completion HRVProcessor := create "javascript".

Definition forUseCase (useCase : string) : completion HRVProcessor :=
  if String.eqb useCase "realtime" then create "javascript"
  else if String.eqb useCase "post-session" then create "javascript"
  else if String.eqb useCase "development" then create "python"
  else create "javascript".

End HRVProcessorFactory.

(** [types/index.ts] *)
Record DeviceInfo := {
  id : string;
  deviceName : string;
  deviceType : string;
  deviceIsConnected : bool;
  batteryLevel : option number
}.

(** [MockCollector] and [PolarH10Collector]: classes without fields, every
    field declaration being commented out. *)
Inductive MockCollector : Set := NewMockCollector.
Inductive PolarH10Collector : Set := NewPolarH10Collector.

(** An object behind the [IDataCollector] interface. *)
Inductive DataCollector :=
  | Mock (c : MockCollector)
  | PolarH10 (c : PolarH10Collector).

(** [MockCollector] resolves [initialize] and [connect] to [true],
    [PolarH10Collector] to [false]. *)
Definition initialize (c : DataCollector) : bool :=
  match c with Mock _ => true | PolarH10 _ => false end.

Definition connect (c : DataCollector) (deviceId : string) : bool :=
  match c with Mock _ => true | PolarH10 _ => false end.

(** In both classes [scanDevices] resolves to [[]], [isConnected] returns
    [false] and [getDeviceInfo] returns [null]. *)
Definition scanDevices (c : DataCollector) (timeout : number) : list DeviceInfo := [].

Definition isConnected (c : DataCollector) : bool := false.

Definition getDeviceInfo (c : DataCollector) : option DeviceInfo := None.

(** [DataCollectorFactory]; [new PolarH10Collector()] is commented out. *)
Module DataCollectorFactory.

Definition create (type : string) : completion DataCollector :=
  if String.eqb type "polar_h10" then Throw "PolarH10Collector not yet implemented"
  else if String.eqb type "mock" then Return (Mock NewMockCollector)
  else if String.eqb type "generic_ble" then Throw "Generic BLE collector not yet implemented"
  else Throw ("Unknown collector type: " ++ type).

Definition fromConfig : completion DataCollector := create "mock".

End DataCollectorFactory.

End Factories.

(* ===================================================================== *)
(** * The order of binary64 numbers                                       *)
(* ===================================================================== *)

Module Order.

(** The comparison of two finite numbers of the same sign goes by exponent
    first and mantissa second; this is the order of the pairs. *)
Definition lex (m1 : positive) (e1 : Z) (m2 : positive) (e2 : Z) : comparison :=
  match (e1 ?= e2)%Z with
  | Eq => PosDef.Pos.compare_cont Eq m1 m2
  | Lt => Lt
  | Gt => Gt
  end.

End Order.

(* ===================================================================== *)
(** * react_native/src/utils/helpers.ts: [formatDuration]                  *)
(* ===================================================================== *)

(** [formatDuration] with the three built-ins it calls on numbers:
    [Math.floor], the remainder operator and the conversion to a string. *)

Module Format.
Import JS.

(** [Math.floor]: a number with a non-negative exponent is an integer
    already; otherwise the mantissa is shifted down, which rounds towards
    minus infinity, and the integer that results has at most 53 bits. *)
Definition Math_floor (x : number) : number :=
  match Prim2SF x with
  | S754_finite s m e =>
      if 0 <=? e then x
      else if s then (- of_int (- Z.shiftl (Zneg m) e))%float
      else of_int (Z.shiftl (Zpos m) e)
  | _ => x
  end.

(** The remainder operator [%]: NaN when an operand is NaN, the dividend
    infinite or the divisor zero; the dividend when the divisor is infinite
    or the dividend zero; otherwise the exact remainder of the truncating
    division, a zero taking the sign of the dividend. *)
Definition remainder (x y : number) : number :=
  match Prim2SF x, Prim2SF y with
  | S754_nan, _ | _, S754_nan | S754_infinity _, _ | _, S754_zero _ => nan
  | _, S754_infinity _ => x
  | S754_zero _, _ => x
  | S754_finite sx mx ex, S754_finite sy my ey =>
      let e := Z.min ex ey in
      let r := Z.rem (cond_Zopp sx (Zpos mx * 2 ^ (ex - e))) (Zpos my * 2 ^ (ey - e)) in
      SF2Prim (binary_normalize FloatOps.prec FloatOps.emax r e sx)
  end.

(** The integer a number is, if it is one. *)
Definition integerValue (x : spec_float) : option Z :=
  match x with
  | S754_zero _ => Some 0
  | S754_finite s m e =>
      if 0 <=? e then Some (cond_Zopp s (Zpos m * 2 ^ e))
      else if Zpos m mod 2 ^ (- e) =? 0 then Some (cond_Zopp s (Zpos m / 2 ^ (- e)))
      else None
  | _ => None
  end.

(** The decimal digits of an integer, with a minus sign when negative. *)
Definition digits (z : Z) : string := NilZero.string_of_int (Z.to_int z).

(** [ToString] of a number, for the values whose text is fixed without the
    shortest-digits search: NaN, the infinities, and the integers below
    2^53 in magnitude, which print as their decimal digits ([-0] as "0").
    From 2^53 on not every integer is a number and JavaScript prints the
    shortest digits that read back as the same number, which need not be
    the exact ones; the result is [None] there, as for a number that is not
    an integer. *)
Definition Number_toString (x : number) : option string :=
  match Prim2SF x with
  | S754_nan => Some "NaN"%string
  | S754_infinity s => Some (if s then "-Infinity" else "Infinity")%string
  | sf =>
      z ← integerValue sf;
      if Z.abs z <? 2 ^ 53 then Some (digits z) else None
  end.

(** [s.padStart(2, '0')] *)
Definition padStart2 (s : string) : string :=
  match (2 - String.length s)%nat with
  | 2%nat => "00" ++ s
  | 1%nat => "0" ++ s
  | _ => s
  end%string.

(**
<<
export function formatDuration(seconds: number): string {
  const hours = Math.floor(seconds / 3600);
  const minutes = Math.floor((seconds % 3600) / 60);
  const secs = seconds % 60;

  if (hours > 0) {
    return `${hours}:${minutes.toString().padStart(2, '0')}:${secs.toString().padStart(2, '0')}`;
  } else if (minutes > 0) {
    return `${minutes} min ${secs} sec`;
  } else {
    return `${secs} sec`;
  }
}
>>
    The result is [None] where [Number_toString] does not give the text of
    one of the three numbers. *)
Definition formatDuration (seconds : number) : option string :=
  let hours := Math_floor (seconds / 3600) in
  let minutes := Math_floor (remainder seconds 3600 / 60) in
  let secs := remainder seconds 60 in
  if (0 <? hours)%float then
    h ← Number_toString hours;
    m ← Number_toString minutes;
    s ← Number_toString secs;
    Some (h ++ ":" ++ padStart2 m ++ ":" ++ padStart2 s)%string
  else if (0 <? minutes)%float then
    m ← Number_toString minutes;
    s ← Number_toString secs;
    Some (m ++ " min " ++ s ++ " sec")%string
  else
    s ← Number_toString secs;
    Some (s ++ " sec")%string.

(** The sign bit is set: [-0], a negative number or [-Infinity]. *)
Definition sign_bit_set (x : spec_float) : Prop :=
  match x with
  | S754_zero s | S754_finite s _ _ | S754_infinity s => s = true
  | S754_nan => False
  end.

(** Two decimal digits, with a leading zero below ten. *)
Definition twoDigits (z : Z) : string :=
  if z <? 10 then ("0" ++ digits z)%string else digits z.

End Format.

(* ===================================================================== *)
(** * Properties                                                          *)
(* ===================================================================== *)

(** ** Binary64 facts used below *)

Module FloatFacts.
Import JS.

Section Rounding.
Let prec := FloatOps.prec.
Let emax := FloatOps.emax.

Lemma iter_pos_nat {A : Type} (f : A -> A) (n : positive) (x : A) :
  SpecFloat.iter_pos f n x = Nat.iter (Pos.to_nat n) f x.
Proof.
  revert x. induction n as [n IH|n IH|]; intros x; cbn [SpecFloat.iter_pos].
  - rewrite !IH, Pos2Nat.inj_xI.
    replace (S (2 * Pos.to_nat n)) with (Pos.to_nat n + S (Pos.to_nat n))%nat by lia.
    rewrite Nat.iter_add, Nat.iter_succ_r. reflexivity.
  - rewrite !IH, Pos2Nat.inj_xO.
    replace (2 * Pos.to_nat n)%nat with (Pos.to_nat n + Pos.to_nat n)%nat by lia.
    rewrite Nat.iter_add. reflexivity.
  - reflexivity.
Qed.

(** Shifting a mantissa right by fewer places than it has digits leaves a
    positive mantissa. *)
Lemma shr_iter_pos (k : nat) (mrs : shr_record) (q : positive) :
  shr_m mrs = Zpos q -> (k < Pos.to_nat (digits2_pos q))%nat ->
  exists q', shr_m (Nat.iter k shr_1 mrs) = Zpos q' /\
             Pos.to_nat (digits2_pos q') = (Pos.to_nat (digits2_pos q) - k)%nat.
Proof.
  intros Hm. induction k as [|k IH]; intros Hk.
  - exists q. simpl. split; [exact Hm|lia].
  - destruct IH as (q1 & Hq1 & Hd1); [lia|].
    simpl. destruct (Nat.iter k shr_1 mrs) as [m r s]. simpl in Hq1. subst m.
    destruct q1 as [q1|q1|]; simpl in Hd1.
    + exists q1. simpl. split; [reflexivity|lia].
    + exists q1. simpl. split; [reflexivity|lia].
    + lia.
Qed.

Lemma shr_fexp_pos (m : positive) (e : Z) (l : location) :
  SpecFloat.emin prec emax <= e ->
  exists q, shr_m (fst (shr_fexp prec emax (Zpos m) e l)) = Zpos q /\
            SpecFloat.emin prec emax <= snd (shr_fexp prec emax (Zpos m) e l).
Proof.
  intros He. unfold shr_fexp, shr. simpl Zdigits2.
  assert (Hrec : shr_m (shr_record_of_loc (Zpos m) l) = Zpos m).
  { destruct l as [|[| |]]; reflexivity. }
  destruct (fexp prec emax (Zpos (digits2_pos m) + e) - e) as [|n|n] eqn:Hn;
    try (exists m; split; [exact Hrec|exact He]).
  simpl. rewrite iter_pos_nat.
  destruct (shr_iter_pos (Pos.to_nat n) _ m Hrec) as (q & Hq & _).
  - revert Hn. unfold fexp, SpecFloat.emin, prec, emax, FloatOps.prec, FloatOps.emax in *. lia.
  - exists q. split; [exact Hq|lia].
Qed.

Lemma round_nearest_even_pos (q : positive) (l : location) :
  exists q', round_nearest_even (Zpos q) l = Zpos q'.
Proof.
  unfold round_nearest_even.
  destruct l as [|[| |]]; try (exists q; reflexivity).
  - destruct (Z.even (Zpos q)); [exists q|exists (q + 1)%positive]; reflexivity.
  - exists (q + 1)%positive. reflexivity.
Qed.

(** Rounding a non-zero mantissa whose exponent is not below [emin] never
    underflows to zero. *)
Lemma binary_round_aux_nonzero (sx : bool) (m : positive) (e : Z) (l : location) :
  SpecFloat.emin prec emax <= e ->
  signed_nonzero sx (binary_round_aux prec emax sx (Zpos m) e l).
Proof.
  intros He. unfold binary_round_aux.
  destruct (shr_fexp_pos m e l He) as (q1 & Hq1 & He1).
  destruct (shr_fexp prec emax (Zpos m) e l) as [mrs1 e1]. simpl in Hq1, He1.
  rewrite Hq1. destruct (round_nearest_even_pos q1 (loc_of_shr_record mrs1)) as (q2 & ->).
  destruct (shr_fexp_pos q2 e1 loc_Exact He1) as (q3 & Hq3 & _).
  destruct (shr_fexp prec emax (Zpos q2) e1 loc_Exact) as [mrs3 e3]. simpl in Hq3.
  rewrite Hq3. destruct (Z.leb _ _); reflexivity.
Qed.

Lemma binary_round_nonzero (sx : bool) (m : positive) (e : Z) :
  SpecFloat.emin prec emax <= e ->
  signed_nonzero sx (binary_round prec emax sx m e).
Proof.
  intros He. unfold binary_round.
  destruct (shl_align m e _) as [mz ez] eqn:Hal.
  apply binary_round_aux_nonzero.
  revert Hal. unfold shl_align.
  destruct (fexp prec emax (Zpos (digits2_pos m) + e) - e) eqn:Hd; intros [= <- <-]; try exact He.
  unfold fexp. lia.
Qed.

End Rounding.

(** The length of a non-empty array converts to a positive number. *)
Lemma length_number_nonzero (n : nat) :
  (0 < n)%nat -> Z.of_nat n < 2 ^ 32 ->
  signed_nonzero false (Prim2SF (length_number n)).
Proof.
  intros Hn Hb. unfold length_number, of_int. rewrite FloatAxioms.of_uint63_spec.
  assert (HwB : wB = 2 ^ 63) by reflexivity.
  rewrite Uint63.of_Z_spec, Z.mod_small by lia.
  destruct (Z.of_nat n) as [|p|p] eqn:Hp; [lia| |lia].
  apply binary_round_nonzero. unfold SpecFloat.emin, FloatOps.prec, FloatOps.emax. lia.
Qed.

Lemma length_number_positive (n : nat) :
  (0 < n)%nat -> Z.of_nat n < 2 ^ 32 -> (0 <? length_number n)%float = true.
Proof.
  intros Hn Hb. pose proof (length_number_nonzero n Hn Hb) as H.
  rewrite FloatAxioms.ltb_spec.
  destruct (Prim2SF (length_number n)) as [s|s| |s m e]; try contradiction;
    simpl in H; subst s; reflexivity.
Qed.

(** Whatever the length, its conversion is not negative. *)
Lemma length_number_sign (n : nat) :
  match Prim2SF (length_number n) with
  | S754_zero s | S754_infinity s | S754_finite s _ _ => s = false
  | S754_nan => True
  end.
Proof.
  unfold length_number, of_int. rewrite FloatAxioms.of_uint63_spec.
  pose proof (Uint63.to_Z_bounded (of_Z (Z.of_nat n))) as [Hlo _].
  destruct (Uint63.to_Z (of_Z (Z.of_nat n))) as [|p|p]; [reflexivity| |lia].
  unfold binary_normalize, binary_round, binary_round_aux.
  destruct (shl_align _ _ _) as [mz ez].
  destruct (shr_fexp _ _ _ _ _) as [mrs' e'].
  destruct (shr_fexp _ _ _ _ _) as [mrs'' e''].
  destruct (shr_m mrs''); [reflexivity| |exact I].
  destruct (Z.leb _ _); reflexivity.
Qed.

Lemma is_finite_spec (c : number) : is_finite c = true -> finite_or_zero (Prim2SF c).
Proof.
  unfold is_finite, is_nan, is_infinity. rewrite !FloatAxioms.eqb_spec, abs_spec.
  destruct (Prim2SF c) as [s|s| |s m e]; simpl; try exact (fun _ => I).
  - intros H. destruct (SFeqb (S754_infinity s) (S754_infinity s)); discriminate H.
  - intros H. discriminate H.
Qed.

(** A finite number minus itself is [+0]. *)
Lemma sub_diag (c : number) : is_finite c = true -> (c - c = 0)%float.
Proof.
  intros Hc. apply is_finite_spec in Hc. apply Prim2SF_inj.
  rewrite FloatAxioms.sub_spec. destruct (Prim2SF c) as [s|s| |s m e]; try contradiction.
  - destruct s; reflexivity.
  - unfold SF64sub, SFsub. rewrite Z.sub_diag. reflexivity.
Qed.

(** A quotient can only be finite if the divisor is neither zero nor NaN. *)
Lemma div_finite_divisor (x y c : number) :
  (x / y = c)%float -> is_finite c = true ->
  match Prim2SF y with S754_finite _ _ _ | S754_infinity _ => True | _ => False end.
Proof.
  intros <- Hc. apply is_finite_spec in Hc. rewrite FloatAxioms.div_spec in Hc.
  destruct (Prim2SF x) as [sx|sx| |sx mx ex], (Prim2SF y) as [sy|sy| |sy my ey];
    simpl in Hc; try contradiction; exact I.
Qed.

Lemma zero_div_length (x c : number) (n : nat) :
  (x / length_number n = c)%float -> is_finite c = true ->
  (0 / length_number n = 0)%float.
Proof.
  intros Hdiv Hc. pose proof (div_finite_divisor _ _ _ Hdiv Hc) as Hy.
  pose proof (length_number_sign n) as Hs.
  apply Prim2SF_inj. rewrite FloatAxioms.div_spec.
  destruct (Prim2SF (length_number n)) as [s|s| |s m e]; try contradiction;
    subst s; reflexivity.
Qed.

Lemma digits2_pos_bounds (m : positive) :
  2 ^ (Zpos (digits2_pos m) - 1) <= Zpos m < 2 ^ Zpos (digits2_pos m).
Proof.
  assert (Hstep : forall d : positive,
            2 ^ (Zpos (Pos.succ d) - 1) = 2 * 2 ^ (Zpos d - 1) /\
            2 ^ Zpos (Pos.succ d) = 2 * (2 * 2 ^ (Zpos d - 1)) /\
            2 ^ Zpos d = 2 * 2 ^ (Zpos d - 1)).
  { intros d. rewrite Pos2Z.inj_succ.
    assert (H : 2 ^ Zpos d = 2 * 2 ^ (Zpos d - 1)).
    { rewrite <- Z.pow_succ_r by lia. f_equal. lia. }
    replace (Z.succ (Zpos d) - 1) with (Zpos d) by lia.
    rewrite Z.pow_succ_r by lia. lia. }
  induction m as [m IH|m IH|]; simpl digits2_pos.
  - destruct (Hstep (digits2_pos m)) as (-> & -> & E). rewrite E in IH. lia.
  - destruct (Hstep (digits2_pos m)) as (-> & -> & E). rewrite E in IH. lia.
  - simpl. lia.
Qed.

Lemma iter_xO_pow (m d : positive) : Zpos (Pos.iter xO m d) = Zpos m * 2 ^ Zpos d.
Proof.
  induction d as [|d IH] using Pos.peano_ind.
  - simpl. lia.
  - rewrite Pos.iter_succ, Pos2Z.inj_xO, IH, Pos2Z.inj_succ, Z.pow_succ_r by lia. lia.
Qed.

Lemma shl_align_value (m : positive) (e ez : Z) :
  ez <= e -> Zpos (fst (shl_align m e ez)) = Zpos m * 2 ^ (e - ez).
Proof.
  intros Hle. unfold shl_align.
  destruct (ez - e) as [|d|d] eqn:Hd; simpl fst.
  - replace (e - ez) with 0 by lia. lia.
  - lia.
  - rewrite iter_xO_pow. f_equal. f_equal. lia.
Qed.

(** A finite binary64 value is stored in canonical form: its exponent is not
    below [emin], its mantissa has at most 53 bits, and exactly 53 unless the
    exponent is [emin]. *)
Lemma valid_finite (s : bool) (m : positive) (e : Z) :
  SpecFloat.valid_binary FloatOps.prec FloatOps.emax (S754_finite s m e) = true ->
  SpecFloat.emin FloatOps.prec FloatOps.emax <= e /\
  Zpos m < 2 ^ 53 /\
  (SpecFloat.emin FloatOps.prec FloatOps.emax < e -> 2 ^ 52 <= Zpos m).
Proof.
  unfold SpecFloat.valid_binary, bounded, canonical_mantissa, fexp, SpecFloat.emin,
    FloatOps.prec, FloatOps.emax.
  rewrite andb_true_iff, Z.eqb_eq. intros [Hc _].
  pose proof (digits2_pos_bounds m) as [Hlo Hhi].
  assert (Hd : Zpos (digits2_pos m) <= 53) by lia.
  split; [lia|]. split.
  - eapply Z.lt_le_trans; [exact Hhi|]. apply Z.pow_le_mono_r; lia.
  - intros He. assert (Zpos (digits2_pos m) = 53) as Hd53 by lia.
    rewrite Hd53 in Hlo. exact Hlo.
Qed.

Lemma compare_cont_lt (a b : positive) : Pos.compare_cont Eq a b = Lt -> (Zpos a < Zpos b).
Proof. intros H. exact H. Qed.

Lemma SFsub_pos (x y : spec_float) :
  SpecFloat.valid_binary FloatOps.prec FloatOps.emax x = true ->
  SpecFloat.valid_binary FloatOps.prec FloatOps.emax y = true ->
  SFltb x y = true ->
  signed_nonzero false (SF64sub y x).
Proof.
  intros Hx Hy Hltb.
  assert (Hlt : SFcompare x y = Some Lt).
  { unfold SFltb in Hltb. destruct (SFcompare x y) as [[| |]|]; congruence. }
  clear Hltb.
  destruct x as [sx|sx| |sx mx ex], y as [sy|sy| |sy my ey]; simpl in Hlt;
    try discriminate Hlt;
    try (destruct sx; (discriminate Hlt || reflexivity));
    try (destruct sy; (discriminate Hlt || reflexivity));
    try (destruct sx, sy; (discriminate Hlt || reflexivity)).
  destruct (valid_finite _ _ _ Hx) as (Hex & Hmx & Hnx).
  destruct (valid_finite _ _ _ Hy) as (Hey & Hmy & Hny).
  unfold SF64sub, SFsub.
  pose proof (shl_align_value mx ex (Z.min ey ex) ltac:(lia)) as Hax.
  pose proof (shl_align_value my ey (Z.min ey ex) ltac:(lia)) as Hay.
  set (ax := fst (shl_align mx ex (Z.min ey ex))) in *.
  set (ay := fst (shl_align my ey (Z.min ey ex))) in *.
  assert (HD : 0 < cond_Zopp sy (Zpos ay) - cond_Zopp sx (Zpos ax)).
  { destruct sx, sy; simpl cond_Zopp; try discriminate Hlt; try lia.
    - destruct (Z.compare_spec ex ey) as [E|E|E]; try discriminate Hlt.
      + subst ey. rewrite Z.min_id, Z.sub_diag in *. simpl in Hax, Hay.
        destruct (Pos.compare_cont Eq mx my) eqn:Hc; try discriminate Hlt.
        change (Pos.compare mx my = Gt) in Hc. apply Pos.compare_gt_iff in Hc.
        apply Pos2Z.pos_lt_pos in Hc. lia.
      + rewrite Z.min_l in * by lia. rewrite Z.sub_diag in Hay. simpl in Hay.
        assert (2 <= 2 ^ (ex - ey)) by (change 2 with (2 ^ 1) at 1; apply Z.pow_le_mono_r; lia).
        specialize (Hnx ltac:(lia)). nia.
    - destruct (Z.compare_spec ex ey) as [E|E|E]; try discriminate Hlt.
      + subst ey. rewrite Z.min_id, Z.sub_diag in *. simpl in Hax, Hay.
        injection Hlt as Hlt. apply compare_cont_lt in Hlt. lia.
      + rewrite Z.min_r in * by lia. rewrite Z.sub_diag in Hax. simpl in Hax.
        assert (2 <= 2 ^ (ey - ex)) by (change 2 with (2 ^ 1) at 1; apply Z.pow_le_mono_r; lia).
        specialize (Hny ltac:(lia)). nia. }
  destruct (cond_Zopp sy (Zpos ay) - cond_Zopp sx (Zpos ax)) as [|D|D]; try lia.
  apply binary_round_nonzero. lia.
Qed.

(** The difference of two numbers in increasing order is positive: it does
    not round to zero. *)
Lemma sub_pos (a b : number) : (a <? b)%float = true -> (0 <? b - a)%float = true.
Proof.
  intros H. rewrite FloatAxioms.ltb_spec in H.
  pose proof (SFsub_pos _ _ (Prim2SF_valid a) (Prim2SF_valid b) H) as Hs.
  rewrite FloatAxioms.ltb_spec, FloatAxioms.sub_spec.
  destruct (SF64sub (Prim2SF b) (Prim2SF a)) as [s|s| |s m e]; try contradiction;
    simpl in Hs; subst s; reflexivity.
Qed.

Lemma not_negative_a_number x : not_negative x -> a_number x.
Proof. destruct x as [[]|[]| |[] ? ?]; simpl; tauto. Qed.

Lemma signed_nonzero_a_number s x : signed_nonzero s x -> a_number x.
Proof. destruct x; simpl; tauto. Qed.

(** *** Shifts keep a mantissa non-negative *)

Lemma shr_1_nonneg (mrs : shr_record) : 0 <= shr_m mrs -> 0 <= shr_m (shr_1 mrs).
Proof. destruct mrs as [[|[p|p|]|p] r s]; simpl; lia. Qed.

Lemma shr_iter_nonneg (k : nat) (mrs : shr_record) :
  0 <= shr_m mrs -> 0 <= shr_m (Nat.iter k shr_1 mrs).
Proof. intros H. induction k as [|k IH]; simpl; [exact H|apply shr_1_nonneg, IH]. Qed.

Lemma shr_fexp_nonneg (m e : Z) (l : location) :
  0 <= m -> 0 <= shr_m (fst (shr_fexp FloatOps.prec FloatOps.emax m e l)).
Proof.
  intros Hm. unfold shr_fexp, shr.
  assert (Hrec : 0 <= shr_m (shr_record_of_loc m l)) by (destruct l as [|[| |]]; exact Hm).
  destruct (fexp FloatOps.prec FloatOps.emax (Zdigits2 m + e) - e) as [|n|n]; simpl; try exact Hrec.
  rewrite iter_pos_nat. apply shr_iter_nonneg, Hrec.
Qed.

Lemma round_nearest_even_nonneg (m : Z) (l : location) :
  0 <= m -> 0 <= round_nearest_even m l.
Proof.
  intros Hm. unfold round_nearest_even.
  destruct l as [|[| |]]; try lia. destruct (Z.even m); lia.
Qed.

(** Rounding a non-negative mantissa gives a zero, a finite number or an
    infinity of the requested sign, never NaN. *)
Lemma binary_round_aux_signed (sx : bool) (m e : Z) (l : location) :
  0 <= m ->
  match binary_round_aux FloatOps.prec FloatOps.emax sx m e l with
  | S754_zero s | S754_finite s _ _ | S754_infinity s => s = sx
  | S754_nan => False
  end.
Proof.
  intros Hm. unfold binary_round_aux.
  pose proof (shr_fexp_nonneg m e l Hm) as H1.
  destruct (shr_fexp FloatOps.prec FloatOps.emax m e l) as [mrs1 e1]. simpl in H1.
  pose proof (round_nearest_even_nonneg _ (loc_of_shr_record mrs1) H1) as H2.
  pose proof (shr_fexp_nonneg _ e1 loc_Exact H2) as H3.
  destruct (shr_fexp FloatOps.prec FloatOps.emax _ e1 loc_Exact) as [mrs3 e3]. simpl in H3.
  destruct (shr_m mrs3) as [|q|q]; [reflexivity| |lia].
  destruct (Z.leb _ _); reflexivity.
Qed.

Lemma binary_normalize_a_number (m e : Z) (szero : bool) :
  a_number (binary_normalize FloatOps.prec FloatOps.emax m e szero).
Proof.
  unfold binary_normalize. destruct m as [|p|p]; [exact I| |].
  - unfold binary_round. destruct (shl_align _ _ _) as [mz ez].
    pose proof (binary_round_aux_signed false (Zpos mz) ez loc_Exact ltac:(lia)) as H.
    destruct (binary_round_aux _ _ _ _ _ _); simpl; tauto.
  - unfold binary_round. destruct (shl_align _ _ _) as [mz ez].
    pose proof (binary_round_aux_signed true (Zpos mz) ez loc_Exact ltac:(lia)) as H.
    destruct (binary_round_aux _ _ _ _ _ _); simpl; tauto.
Qed.

(** *** Additions and subtractions *)

Lemma SFadd_a_number (x y : spec_float) :
  a_number x -> finite_or_zero y -> a_number (SF64add x y).
Proof.
  destruct x as [sx|sx| |sx mx ex], y as [sy|sy| |sy my ey]; simpl; try tauto;
    intros _ _.
  - destruct sx, sy; exact I.
  - apply binary_normalize_a_number.
Qed.

Lemma SFsub_a_number (x y : spec_float) :
  finite_or_zero x -> a_number y -> a_number (SF64sub x y).
Proof.
  destruct x as [sx|sx| |sx mx ex], y as [sy|sy| |sy my ey]; simpl; try tauto;
    intros _ _.
  - destruct sx, sy; exact I.
  - apply binary_normalize_a_number.
Qed.

Lemma SFmul_square (x : spec_float) : a_number x -> not_negative (SF64mul x x).
Proof.
  destruct x as [sx|sx| |sx mx ex]; simpl; try tauto; intros _.
  - destruct sx; exact I.
  - destruct sx; exact I.
  - pose proof (binary_round_aux_signed (xorb sx sx) (Zpos (mx * mx)) (ex + ex) loc_Exact
                  ltac:(lia)) as H.
    unfold SF64mul, SFmul.
    destruct (binary_round_aux _ _ _ _ _ _) as [s|s| |s m e]; try contradiction;
      subst s; destruct sx; exact I.
Qed.

Lemma SFadd_not_negative (x y : spec_float) :
  not_negative x -> not_negative y -> not_negative (SF64add x y).
Proof.
  destruct x as [[]|[]| |[] mx ex], y as [[]|[]| |[] my ey]; simpl; try tauto; intros _ _.
  change (not_negative (binary_round FloatOps.prec FloatOps.emax false
            (fst (shl_align mx ex (Z.min ex ey)) + fst (shl_align my ey (Z.min ex ey)))
            (Z.min ex ey))).
  unfold binary_round. destruct (shl_align _ _ _) as [mz ez].
  pose proof (binary_round_aux_signed false (Zpos mz) ez loc_Exact ltac:(lia)) as H.
  destruct (binary_round_aux _ _ _ _ _ _) as [s|s| |s m e]; try contradiction; subst s; exact I.
Qed.

(** *** Division by a positive finite number, square root *)

Lemma SFdiv_core_nonneg (m1 m2 : positive) (e1 e2 : Z) :
  0 <= fst (fst (SFdiv_core_binary FloatOps.prec FloatOps.emax (Zpos m1) e1 (Zpos m2) e2)).
Proof.
  unfold SFdiv_core_binary.
  set (s := _ - _ - _).
  set (m' := match s with Z.pos _ => Z.shiftl (Zpos m1) s | 0 => Zpos m1 | Z.neg _ => 0 end).
  assert (Hm' : 0 <= m').
  { unfold m'. destruct s; try lia. apply Z.shiftl_nonneg. lia. }
  pose proof (Z_div_mod m' (Zpos m2) ltac:(lia)) as Hdm.
  destruct (Z.div_eucl m' (Zpos m2)) as [q r]. simpl. nia.
Qed.

Lemma SFdiv_a_number (x : spec_float) (m : positive) (e : Z) :
  a_number x -> a_number (SF64div x (S754_finite false m e)).
Proof.
  destruct x as [sx|sx| |sx mx ex]; simpl; try tauto; intros _.
  pose proof (SFdiv_core_nonneg mx m ex e) as Hq.
  unfold SF64div, SFdiv.
  destruct (SFdiv_core_binary FloatOps.prec FloatOps.emax (Zpos mx) ex (Zpos m) e) as [[mz ez] lz]. simpl in Hq.
  pose proof (binary_round_aux_signed (xorb sx false) mz ez lz Hq) as H.
  destruct (binary_round_aux _ _ _ _ _ _); simpl; tauto.
Qed.

Lemma SFdiv_not_negative (x : spec_float) (m : positive) (e : Z) :
  not_negative x -> not_negative (SF64div x (S754_finite false m e)).
Proof.
  destruct x as [[]|[]| |[] mx ex]; simpl; try tauto; intros _.
  pose proof (SFdiv_core_nonneg mx m ex e) as Hq.
  unfold SF64div, SFdiv.
  destruct (SFdiv_core_binary FloatOps.prec FloatOps.emax (Zpos mx) ex (Zpos m) e) as [[mz ez] lz]. simpl in Hq.
  pose proof (binary_round_aux_signed (xorb false false) mz ez lz Hq) as H.
  destruct (binary_round_aux _ _ _ _ _ _) as [s|s| |s m' e']; try contradiction;
    simpl in H; subst s; exact I.
Qed.

Lemma SFsqrt_not_negative (x : spec_float) : not_negative x -> not_negative (SF64sqrt x).
Proof.
  destruct x as [[]|[]| |[] mx ex]; simpl; try tauto; intros _.
  unfold SF64sqrt, SFsqrt, SFsqrt_core_binary.
  set (s := ex - _).
  set (m' := match s with Z.pos _ => Z.shiftl (Zpos mx) s | 0 => Zpos mx | Z.neg _ => 0 end).
  pose proof (Z.sqrtrem_spec m') as Hsq.
  assert (Hm' : 0 <= m').
  { unfold m'. destruct s; try lia. apply Z.shiftl_nonneg. lia. }
  specialize (Hsq Hm').
  destruct (Z.sqrtrem m') as [q r].
  assert (Hq : 0 <= q) by lia.
  cbv beta iota zeta.
  match goal with |- not_negative (binary_round_aux _ _ _ _ ?e' ?l) =>
    pose proof (binary_round_aux_signed false q e' l Hq) as H end.
  destruct (binary_round_aux _ _ _ _ _ _) as [s0|s0| |s0 m0 e0]; try contradiction;
    simpl in H; subst s0; exact I.
Qed.

(** *** Integers convert exactly *)

Lemma digits2_pos_iter_xO (m k : positive) :
  Zpos (digits2_pos (Pos.iter xO m k)) = Zpos (digits2_pos m) + Zpos k.
Proof.
  induction k as [|k IH] using Pos.peano_ind.
  - simpl. lia.
  - rewrite Pos.iter_succ. simpl digits2_pos. rewrite Pos2Z.inj_succ, IH. lia.
Qed.

(** A mantissa already in canonical form is returned as it is. *)
Lemma binary_round_aux_canonical (sx : bool) (m : positive) (e : Z) :
  fexp FloatOps.prec FloatOps.emax (Zpos (digits2_pos m) + e) = e -> e <= FloatOps.emax - FloatOps.prec ->
  binary_round_aux FloatOps.prec FloatOps.emax sx (Zpos m) e loc_Exact = S754_finite sx m e.
Proof.
  intros Hc He. unfold binary_round_aux, shr_fexp. simpl Zdigits2.
  rewrite Hc, Z.sub_diag. simpl. rewrite Hc, Z.sub_diag. simpl.
  apply Z.leb_le in He. rewrite He. reflexivity.
Qed.

Lemma binary_round_small (p : positive) :
  Zpos p < 2 ^ 53 ->
  exists m e, binary_round FloatOps.prec FloatOps.emax false p 0 = S754_finite false m e.
Proof.
  intros Hp. pose proof (digits2_pos_bounds p) as [Hlo _].
  assert (Hd : Zpos (digits2_pos p) <= 53).
  { destruct (Z.le_gt_cases (Zpos (digits2_pos p)) 53) as [H|H]; [exact H|exfalso].
    assert (2 ^ 53 <= 2 ^ (Zpos (digits2_pos p) - 1)) by (apply Z.pow_le_mono_r; lia). lia. }
  unfold binary_round.
  assert (Hf : fexp FloatOps.prec FloatOps.emax (Zpos (digits2_pos p) + 0) = Zpos (digits2_pos p) - 53).
  { unfold fexp, SpecFloat.emin, FloatOps.prec, FloatOps.emax. lia. }
  rewrite Hf. unfold shl_align.
  destruct (Zpos (digits2_pos p) - 53 - 0) as [|k|k] eqn:Hk; try lia.
  - exists p, 0. apply binary_round_aux_canonical; [|unfold FloatOps.prec, FloatOps.emax; lia].
    rewrite Hf. lia.
  - eexists _, _. apply binary_round_aux_canonical; [|unfold FloatOps.prec, FloatOps.emax; lia].
    rewrite digits2_pos_iter_xO. unfold fexp, SpecFloat.emin, FloatOps.prec, FloatOps.emax. lia.
Qed.

(** The length of a non-empty array converts to a positive finite number. *)
Lemma length_number_finite (n : nat) :
  (0 < n)%nat -> Z.of_nat n < 2 ^ 32 ->
  exists m e, Prim2SF (length_number n) = S754_finite false m e.
Proof.
  intros Hn Hb. unfold length_number, of_int. rewrite FloatAxioms.of_uint63_spec.
  assert (HwB : wB = 2 ^ 63) by reflexivity.
  rewrite Uint63.of_Z_spec, Z.mod_small by lia.
  destruct (Z.of_nat n) as [|p|p] eqn:Hp; [lia| |lia].
  apply binary_round_small. lia.
Qed.

(** *** NaN *)

Lemma is_nan_spec (x : number) : is_nan x = false <-> a_number (Prim2SF x).
Proof.
  unfold is_nan. rewrite FloatAxioms.eqb_spec, negb_false_iff. unfold SFeqb.
  destruct (Prim2SF x) as [s|s| |s m e]; simpl.
  - tauto.
  - destruct s; tauto.
  - split; [discriminate|contradiction].
  - rewrite Z.compare_refl.
    assert (Hm : Pos.compare_cont Eq m m = Eq) by apply Pos.compare_refl.
    rewrite Hm. destruct s; simpl; tauto.
Qed.

End FloatFacts.

(** ** Means of sensor readings *)

Module ReadingsFacts.
Import JS Helpers Readings.
#[local] Open Scope float_scope.

Lemma addCopies_succ (c s : number) (n : nat) :
  addCopies c s (S n) = addCopies c (s + c) n.
Proof. unfold addCopies. exact (Nat.iter_succ_r n (fun acc => acc + c) s). Qed.

Lemma sum_from (c s : number) (n : nat) :
  fold_left PrimFloat.add (repeat c n) s = addCopies c s n.
Proof.
  revert s. induction n as [|n IH]; intros s; [reflexivity|].
  rewrite addCopies_succ. simpl. apply IH.
Qed.

Lemma sum_repeat (c : number) (n : nat) : sum (repeat c n) = addCopies c 0 n.
Proof. apply sum_from. Qed.

Lemma meansExact_sound (c : number) (n : nat) :
  forall s k : number, meansExact c s k n = true ->
  forall j : nat, (1 <= j <= n)%nat -> addCopies c s j / addCopies 1 k j = c.
Proof.
  induction n as [|n IH]; intros s k H j Hj; [lia|].
  simpl in H. apply andb_true_iff in H as [Hhere Hrest].
  destruct j as [|[|j]]; [lia| |].
  - apply FloatAxioms.Leibniz.eqb_spec in Hhere. exact Hhere.
  - rewrite (addCopies_succ c), (addCopies_succ 1). apply (IH _ _ Hrest). lia.
Qed.

Lemma readingsExact_sound (n lengths : nat) :
  forall c : number, readingsExact c n lengths = true ->
  forall i : nat, (i < n)%nat ->
  is_finite (addCopies 1 c i) = true /\ meansExact (addCopies 1 c i) 0 0 lengths = true.
Proof.
  induction n as [|n IH]; intros c H i Hi; [lia|].
  simpl in H. apply andb_true_iff in H as [H Hrest]. apply andb_true_iff in H as [Hfin Hhere].
  destruct i as [|i]; [split; assumption|].
  rewrite addCopies_succ. apply (IH _ Hrest). lia.
Qed.

Lemma countsAgree_sound (n : nat) :
  forall (k : number) (i : nat), countsAgree k i n = true ->
  forall j : nat, (j < n)%nat -> length_number (i + j) = addCopies 1 k j.
Proof.
  induction n as [|n IH]; intros k i H j Hj; [lia|].
  simpl in H. apply andb_true_iff in H as [Hhere Hrest].
  destruct j as [|j].
  - rewrite Nat.add_0_r. apply FloatAxioms.Leibniz.eqb_spec in Hhere. exact Hhere.
  - rewrite addCopies_succ, <- Nat.add_succ_comm. apply (IH _ _ Hrest). lia.
Qed.

(** Every reading, every segment length: the additions and the division are
    run. *)
Lemma readings_table : readingsExact 0 (S maxReading) maxSegment = true.
Proof. vm_compute. reflexivity. Qed.

Lemma counts_table : countsAgree 0 0 (S maxReading) = true.
Proof. vm_compute. reflexivity. Qed.

Lemma length_number_counted (n : nat) :
  (n <= maxReading)%nat -> length_number n = counted n.
Proof.
  intros Hn. apply (countsAgree_sound _ 0 0%nat counts_table n). lia.
Qed.

(** The mean of up to 3000 copies of an integer reading from 0 to 4095 is
    that reading. *)
Lemma reading_mean_exact (adc : Z) (k : nat) :
  (0 <= adc <= 4095)%Z -> (1 <= k <= 3000)%nat ->
  is_finite (of_int adc) = true /\ average (repeat (of_int adc) k) = of_int adc.
Proof.
  intros Hadc Hk.
  assert (Hc : of_int adc = counted (Z.to_nat adc)).
  { rewrite <- length_number_counted by (unfold maxReading; lia).
    unfold length_number. rewrite Z2Nat.id by lia. reflexivity. }
  destruct (readingsExact_sound _ _ 0 readings_table (Z.to_nat adc)) as [Hfin Hmeans];
    [unfold maxReading; lia|].
  fold (counted (Z.to_nat adc)) in Hfin, Hmeans. rewrite <- Hc in Hfin, Hmeans.
  split; [exact Hfin|].
  unfold average. rewrite repeat_length.
  destruct k as [|k]; [lia|]. cbn [Nat.eqb].
  rewrite sum_repeat, length_number_counted by (unfold maxReading; lia).
  apply (meansExact_sound _ _ _ _ Hmeans). unfold maxSegment. lia.
Qed.

End ReadingsFacts.

Module HelpersFacts.
Import JS Helpers FloatFacts ReadingsFacts.
#[local] Open Scope float_scope.

Lemma sum_zeros (n : nat) : sum (repeat 0 n) = 0.
Proof. unfold sum. induction n as [|n IH]; simpl; [reflexivity|exact IH]. Qed.

Lemma average_nonempty (values : list number) :
  values <> [] -> average values = sum values / length_number (length values).
Proof. intros H. unfold average. destruct values; [contradiction|reflexivity]. Qed.

Lemma standardDeviation_nonempty (values : list number) :
  values <> [] ->
  standardDeviation values =
  Math_sqrt (average (map (fun v => Math_pow_2 (v - average values)) values)).
Proof. intros H. unfold standardDeviation. destruct values; [contradiction|reflexivity]. Qed.

(** The deviation of a constant list is 0 as soon as its mean is exact. *)
Lemma standardDeviation_constant (c : number) (n : nat) :
  n <> 0%nat -> is_finite c = true -> average (repeat c n) = c ->
  standardDeviation (repeat c n) = 0.
Proof.
  intros Hn Hc Havg.
  assert (Hne : repeat c n <> []) by (destruct n; [contradiction|discriminate]).
  rewrite standardDeviation_nonempty by exact Hne.
  rewrite Havg, map_repeat, (sub_diag c Hc).
  change (Math_pow_2 0) with 0.
  rewrite average_nonempty in Havg by exact Hne. rewrite repeat_length in Havg.
  rewrite average_nonempty by (destruct n; [contradiction|discriminate]).
  rewrite repeat_length, sum_zeros, (zero_div_length _ _ _ Havg Hc). reflexivity.
Qed.

Lemma sum_a_number (values : list number) (acc : number) :
  Forall (fun v => is_finite v = true) values ->
  a_number (Prim2SF acc) ->
  a_number (Prim2SF (fold_left PrimFloat.add values acc)).
Proof.
  intros Hall. revert acc. induction Hall as [|v values Hv _ IH]; intros acc Hacc; simpl.
  - exact Hacc.
  - apply IH. rewrite FloatAxioms.add_spec.
    apply SFadd_a_number; [exact Hacc|apply is_finite_spec, Hv].
Qed.

Lemma sum_not_negative (values : list number) (acc : number) :
  Forall (fun v => not_negative (Prim2SF v)) values ->
  not_negative (Prim2SF acc) ->
  not_negative (Prim2SF (fold_left PrimFloat.add values acc)).
Proof.
  intros Hall. revert acc. induction Hall as [|v values Hv _ IH]; intros acc Hacc; simpl.
  - exact Hacc.
  - apply IH. rewrite FloatAxioms.add_spec. apply SFadd_not_negative; assumption.
Qed.

Lemma average_a_number (values : list number) :
  Forall (fun v => is_finite v = true) values ->
  (Z.of_nat (length values) < 2 ^ 32)%Z ->
  a_number (Prim2SF (average values)).
Proof.
  intros Hall Hlen. unfold average.
  destruct values as [|v values]; [exact I|]. cbn [length Nat.eqb].
  destruct (length_number_finite (length (v :: values))) as (m & e & Hn);
    [simpl; lia|exact Hlen|].
  rewrite FloatAxioms.div_spec. cbn [length] in Hn. rewrite Hn.
  apply SFdiv_a_number. apply sum_a_number; [exact Hall|exact I].
Qed.

Lemma average_not_negative (values : list number) :
  Forall (fun v => not_negative (Prim2SF v)) values ->
  (Z.of_nat (length values) < 2 ^ 32)%Z ->
  not_negative (Prim2SF (average values)).
Proof.
  intros Hall Hlen. unfold average.
  destruct values as [|v values]; [exact I|]. cbn [length Nat.eqb].
  destruct (length_number_finite (length (v :: values))) as (m & e & Hn);
    [simpl; lia|exact Hlen|].
  rewrite FloatAxioms.div_spec. cbn [length] in Hn. rewrite Hn.
  apply SFdiv_not_negative. apply sum_not_negative; [exact Hall|exact I].
Qed.

Lemma standardDeviation_not_negative (values : list number) :
  Forall (fun v => is_finite v = true) values ->
  (Z.of_nat (length values) < 2 ^ 32)%Z ->
  not_negative (Prim2SF (standardDeviation values)).
Proof.
  intros Hall Hlen. unfold standardDeviation.
  destruct values as [|v values]; [exact I|]. cbn [length Nat.eqb].
  pose proof (average_a_number _ Hall Hlen) as Havg.
  set (avg := average (v :: values)) in *. cbv zeta.
  unfold Math_sqrt. rewrite FloatAxioms.sqrt_spec. apply SFsqrt_not_negative.
  apply average_not_negative; [|rewrite length_map; exact Hlen].
  apply Forall_map. eapply Forall_impl; [exact Hall|].
  intros x Hx. simpl. unfold Math_pow_2. rewrite FloatAxioms.mul_spec. apply SFmul_square.
  rewrite FloatAxioms.sub_spec. apply SFsub_a_number; [apply is_finite_spec, Hx|exact Havg].
Qed.

Lemma not_negative_ltb (x : number) : not_negative (Prim2SF x) -> (x <? 0) = false.
Proof.
  intros H. rewrite FloatAxioms.ltb_spec.
  destruct (Prim2SF x) as [[]|[]| |[] m e]; try contradiction; reflexivity.
Qed.

(** On finite data neither helper returns NaN, and the deviation is not
    negative. *)
Lemma helpers_no_nan (values : list number) :
  Forall (fun v => is_finite v = true) values ->
  (Z.of_nat (length values) < 2 ^ 32)%Z ->
  is_nan (average values) = false /\
  is_nan (standardDeviation values) = false /\
  (standardDeviation values <? 0) = false.
Proof.
  intros Hall Hlen. pose proof (standardDeviation_not_negative _ Hall Hlen) as Hsd.
  split; [apply is_nan_spec, average_a_number; assumption|].
  split; [apply is_nan_spec, not_negative_a_number, Hsd|apply not_negative_ltb, Hsd].
Qed.

(** C9, as stated, fails on binary64 numbers: the mean of three copies of
    0.1 is not 0.1, so the deviation of that constant list is a small
    positive number; and the constant list [Infinity, Infinity] has deviation
    NaN. *)
Lemma constant_list_deviation_not_zero :
  average [0.1; 0.1; 0.1] <> 0.1 /\
  standardDeviation [0.1; 0.1; 0.1] <> 0 /\
  (standardDeviation [0.1; 0.1; 0.1] =? 0) = false /\
  standardDeviation [infinity; infinity] = nan.
Proof.
  repeat split.
  - intros H. apply (f_equal (fun x => PrimFloat.Leibniz.eqb x 0.1)) in H.
    vm_compute in H. discriminate H.
  - intros H. apply (f_equal (fun x => PrimFloat.Leibniz.eqb x 0)) in H.
    vm_compute in H. discriminate H.
Qed.

(** C9, amended. [average] and [standardDeviation] return 0 for the empty
    list, so the division is reached only with a non-empty list, whose
    length is a positive divisor: neither helper divides by zero. On a list
    of finite numbers neither returns NaN, and the deviation is not
    negative. [standardDeviation] is the population form, the square root
    of the sum of squared deviations from the mean divided by N. For a
    constant list of a finite value it returns 0 whenever the mean of the
    list is computed exactly, as it is for up to 3000 copies of an integer
    from 0 to 4095. *)
Theorem statistics_helpers :
  average [] = 0 /\
  standardDeviation [] = 0 /\
  (forall values : list number,
     values <> [] -> (Z.of_nat (length values) < 2 ^ 32)%Z ->
     (0 <? length_number (length values)) = true /\
     average values = sum values / length_number (length values) /\
     standardDeviation values =
       Math_sqrt (sum (map (fun v => Math_pow_2 (v - average values)) values)
                  / length_number (length values))) /\
  (forall values : list number,
     Forall (fun v => is_finite v = true) values ->
     (Z.of_nat (length values) < 2 ^ 32)%Z ->
     is_nan (average values) = false /\
     is_nan (standardDeviation values) = false /\
     (standardDeviation values <? 0) = false) /\
  (forall (c : number) (n : nat),
     n <> 0%nat -> is_finite c = true -> average (repeat c n) = c ->
     standardDeviation (repeat c n) = 0) /\
  (forall (reading : Z) (n : nat),
     (0 <= reading <= 4095)%Z -> (1 <= n <= 3000)%nat ->
     average (repeat (of_int reading) n) = of_int reading /\
     standardDeviation (repeat (of_int reading) n) = 0).
Proof.
  split; [reflexivity|]. split; [reflexivity|]. split; [|split; [|split]].
  - intros values Hne Hlen. split; [|split].
    + apply length_number_positive; [destruct values; [contradiction|simpl; lia]|exact Hlen].
    + apply average_nonempty, Hne.
    + rewrite standardDeviation_nonempty by exact Hne.
      rewrite average_nonempty by (destruct values; [contradiction|discriminate]).
      rewrite length_map. reflexivity.
  - apply helpers_no_nan.
  - apply standardDeviation_constant.
  - intros reading n Hr Hn. destruct (reading_mean_exact reading n Hr Hn) as [Hfin Hmean].
    split; [exact Hmean|]. apply standardDeviation_constant; [lia|exact Hfin|exact Hmean].
Qed.

Lemma statistics_helpers_witness :
  (0 <? length_number (length [800; 810; 790])) = true /\
  average [800; 810; 790] = sum [800; 810; 790] / length_number (length [800; 810; 790]) /\
  is_nan (standardDeviation [1e308; -1e308; 0.1]) = false /\
  standardDeviation (repeat 512 300) = 0.
Proof.
  destruct statistics_helpers as (_ & _ & Hne & Hnan & Hconst & _).
  destruct (Hne [800; 810; 790]) as (Hpos & Havg & _);
    [discriminate|vm_compute; reflexivity|].
  destruct (Hnan [1e308; -1e308; 0.1]) as (_ & Hsd & _);
    [repeat constructor|vm_compute; reflexivity|].
  split; [exact Hpos|]. split; [exact Havg|]. split; [exact Hsd|].
  apply Hconst; [discriminate|reflexivity|vm_compute; reflexivity].
Defined.

End HelpersFacts.

Module ProcessorFacts.
Import JS Processor.

(** C8, as stated, fails on the processor: two runs of [processData] on the
    same batch, one second apart, return different results. *)
Lemma processData_reads_the_clock :
  let batch := {| sessionId := "s"; deviceId := "d"; dataPoints := [];
                  sampleRate := 100; startTime := 0; endTime := 0 |} in
  processData NewJavaScriptHRVProcessor {| clock := 1000 |} batch <>
  processData NewJavaScriptHRVProcessor {| clock := 2000 |} batch.
Proof.
  intros batch H. apply (f_equal metricsTimestamp) in H.
  apply (f_equal (fun x => PrimFloat.Leibniz.eqb x 1000)) in H.
  vm_compute in H. discriminate H.
Qed.

(** C8, amended. The result of [processData] is a function of the batch and
    of the clock reading at the call: its timestamp is that reading, every
    other field is the same in any two runs on the same batch, and two runs
    return identical results exactly when their clock readings are equal. *)
Theorem processData_deterministic_up_to_clock
    (p : JavaScriptHRVProcessor) (w1 w2 : world) (data : PPGDataBatch) :
  metricsTimestamp (processData p w1 data) = Date_now w1 /\
  rmssd (processData p w1 data) = rmssd (processData p w2 data) /\
  sdnn (processData p w1 data) = sdnn (processData p w2 data) /\
  meanHR (processData p w1 data) = meanHR (processData p w2 data) /\
  nnIntervals (processData p w1 data) = nnIntervals (processData p w2 data) /\
  quality (processData p w1 data) = quality (processData p w2 data) /\
  (processData p w1 data = processData p w2 data <-> clock w1 = clock w2).
Proof.
  repeat split.
  - intros H. exact (f_equal metricsTimestamp H).
  - simpl. unfold placeholderMetrics, Date_now. intros ->. reflexivity.
Qed.

End ProcessorFacts.

Module PipelineFacts.
Import JS Helpers Pipeline FloatFacts ReadingsFacts HelpersFacts.

(** *** Quality gate *)

Lemma countBadSegments_from (results : list SegmentQualityResult) (start : nat) :
  fold_left (fun bad r => if passed r then bad else S bad) results start =
  (start + length (List.filter (fun r => negb (passed r)) results))%nat.
Proof.
  revert start. induction results as [|r results IH]; intros start; simpl; [lia|].
  rewrite IH. destruct (passed r); simpl; lia.
Qed.

Lemma countBadSegments_filter (results : list SegmentQualityResult) :
  countBadSegments results = length (List.filter (fun r => negb (passed r)) results).
Proof. unfold countBadSegments. rewrite countBadSegments_from. reflexivity. Qed.

(** The tolerance is read by the gate and by no other stage. *)
Lemma validateBatch_tolerance k cfg samples rate :
  validateBatch (withMaxBadSegments k cfg) samples rate = validateBatch cfg samples rate.
Proof. reflexivity. Qed.

Lemma analyzeSegments_tolerance k cfg detectPeaks rate samples :
  analyzeSegments (withMaxBadSegments k cfg) detectPeaks rate samples =
  analyzeSegments cfg detectPeaks rate samples.
Proof. reflexivity. Qed.

Lemma removeArtifacts_tolerance k cfg stats rrs :
  removeArtifacts (withMaxBadSegments k cfg) stats rrs = removeArtifacts cfg stats rrs.
Proof. reflexivity. Qed.

Lemma afterGate_not_poor cfg detectPeaks stats rate window bad f :
  afterGate cfg detectPeaks stats rate window bad = Fail f ->
  errorClass f <> PoorSignalQualityError.
Proof.
  unfold afterGate, peakStage, metricsStage. simpl.
  destruct (length (detectPeaks window rate) <? 2)%nat; simpl.
  - intros [= <-]. discriminate.
  - destruct (length _ <? 2)%nat; [intros [= <-]|]; discriminate.
Qed.

Lemma stages_validated cfg detectPeaks stats samples rate window :
  validateBatch cfg samples rate = Pass window ->
  stages cfg detectPeaks stats samples rate =
  (bad ← gateStage cfg (analyzeSegments cfg detectPeaks rate window);
   afterGate cfg detectPeaks stats rate window bad).
Proof. intros Hv. unfold stages. rewrite Hv. reflexivity. Qed.

Lemma gateStage_accept cfg results :
  (countBadSegments results <= maxBadSegments cfg)%nat ->
  gateStage cfg results = Pass (countBadSegments results).
Proof.
  intros H. unfold gateStage, qualityGate. simpl.
  apply Nat.leb_le in H. rewrite H. reflexivity.
Qed.

Lemma gateStage_reject cfg results :
  (maxBadSegments cfg < countBadSegments results)%nat ->
  gateStage cfg results =
  Fail {| errorClass := PoorSignalQualityError;
          error := poorQualityMessage (countBadSegments results) (maxBadSegments cfg);
          failureBadSegments := countBadSegments results |}.
Proof.
  intros H. unfold gateStage, qualityGate. simpl.
  apply Nat.leb_gt in H. rewrite H. reflexivity.
Qed.

(** C1. The gate counts the results with [passed = false], and accepts
    exactly when that count does not exceed [maxBadSegments] (0 by default).
    On a rejection the failure is classified [PoorSignalQualityError], its
    [badSegments] field is the count and its message names the count and
    the threshold. For a window that passed validation the pipeline fails
    with that error exactly when the count exceeds the threshold. *)
Theorem quality_gate_rule (cfg : Config) (results : list SegmentQualityResult)
    (detectPeaks : PeakDetector) (stats : RunningStats) (samples : list Sample) (rate : Q) :
  let bad := length (List.filter (fun r => negb (passed r)) results) in
  countBadSegments results = bad /\
  badSegmentCount (qualityGate cfg results) = bad /\
  maxAllowed (qualityGate cfg results) = maxBadSegments cfg /\
  (accepted (qualityGate cfg results) = true <-> (bad <= maxBadSegments cfg)%nat) /\
  match gateStage cfg results with
  | Pass n => n = bad /\ (bad <= maxBadSegments cfg)%nat
  | Fail f =>
      (maxBadSegments cfg < bad)%nat /\
      errorClass f = PoorSignalQualityError /\
      failureBadSegments f = bad /\
      error f = ("Poor signal quality: " ++ decimal bad ++
                 " bad segments detected (max allowed: " ++
                 decimal (maxBadSegments cfg) ++ ")")%string
  end /\
  maxBadSegments defaultConfig = 0%nat /\
  poorQualityMessage 3 2 = "Poor signal quality: 3 bad segments detected (max allowed: 2)"%string /\
  match validateBatch cfg samples rate with
  | Pass window =>
      let found := countBadSegments (analyzeSegments cfg detectPeaks rate window) in
      ((exists f, runPipeline cfg detectPeaks stats samples rate = Failed f /\
                  errorClass f = PoorSignalQualityError)
       <-> (maxBadSegments cfg < found)%nat) /\
      (forall f, runPipeline cfg detectPeaks stats samples rate = Failed f ->
                 errorClass f = PoorSignalQualityError ->
                 failureBadSegments f = found /\
                 error f = poorQualityMessage found (maxBadSegments cfg))
  | Fail _ => True
  end.
Proof.
  intros bad. pose proof (countBadSegments_filter results) as Hbad. fold bad in Hbad.
  split; [exact Hbad|]. split; [exact Hbad|]. split; [reflexivity|]. split.
  { unfold qualityGate. simpl. rewrite Hbad. apply Nat.leb_le. }
  split.
  { destruct (Nat.le_gt_cases (countBadSegments results) (maxBadSegments cfg)) as [Hle|Hgt].
    - rewrite (gateStage_accept _ _ Hle). rewrite Hbad in *. split; [reflexivity|exact Hle].
    - rewrite (gateStage_reject _ _ Hgt). simpl. rewrite Hbad in *.
      repeat split. exact Hgt. }
  split; [reflexivity|]. split; [reflexivity|].
  destruct (validateBatch cfg samples rate) as [window|f0] eqn:Hv; [|exact I].
  intros found. unfold runPipeline. rewrite (stages_validated _ _ _ _ _ _ Hv).
  fold found.
  destruct (Nat.le_gt_cases found (maxBadSegments cfg)) as [Hle|Hgt].
  - unfold found in Hle. rewrite (gateStage_accept _ _ Hle). simpl. fold found.
    destruct (afterGate cfg detectPeaks stats rate window found) as [r|f] eqn:Ha.
    + split; [split|].
      * intros (f & [=] & _).
      * unfold found. lia.
      * intros f [=].
    + pose proof (afterGate_not_poor _ _ _ _ _ _ _ Ha) as Hnp.
      split; [split|].
      * intros (f' & [= <-] & Hc). contradiction.
      * unfold found in *. lia.
      * intros f' [= <-] Hc. contradiction.
  - unfold found in Hgt. rewrite (gateStage_reject _ _ Hgt). simpl. fold found.
    split; [split|].
    + intros _. exact Hgt.
    + intros _. eexists. split; [reflexivity|reflexivity].
    + intros f [= <-] _. split; reflexivity.
Qed.

(** *** Monotonicity in the tolerance *)

Lemma afterGate_tolerance k cfg detectPeaks stats rate window bad :
  afterGate (withMaxBadSegments k cfg) detectPeaks stats rate window bad =
  afterGate cfg detectPeaks stats rate window bad.
Proof. reflexivity. Qed.

Lemma runPipeline_tolerance (t : nat) cfg detectPeaks stats samples rate window :
  validateBatch cfg samples rate = Pass window ->
  runPipeline (withMaxBadSegments t cfg) detectPeaks stats samples rate =
  if (countBadSegments (analyzeSegments cfg detectPeaks rate window) <=? t)%nat then
    match afterGate cfg detectPeaks stats rate window
            (countBadSegments (analyzeSegments cfg detectPeaks rate window)) with
    | Pass r => Done r
    | Fail f => Failed f
    end
  else
    Failed {| errorClass := PoorSignalQualityError;
              error := poorQualityMessage
                         (countBadSegments (analyzeSegments cfg detectPeaks rate window)) t;
              failureBadSegments :=
                countBadSegments (analyzeSegments cfg detectPeaks rate window) |}.
Proof.
  intros Hv. unfold runPipeline.
  rewrite (stages_validated (withMaxBadSegments t cfg) _ _ _ _ window)
    by (rewrite validateBatch_tolerance; exact Hv).
  rewrite analyzeSegments_tolerance.
  unfold gateStage, qualityGate. simpl.
  destruct (_ <=? t)%nat; reflexivity.
Qed.

(** C4. With the window and every other option fixed, a gate that accepts
    under tolerance [k] accepts under every [k' >= k]; and a pipeline run
    that was not rejected for poor quality under [k] has the very same
    outcome under [k']. *)
Theorem tolerance_monotone (cfg : Config) (detectPeaks : PeakDetector) (stats : RunningStats)
    (samples : list Sample) (rate : Q) (k k' : nat) :
  (k <= k')%nat ->
  let gate t := qualityGate (withMaxBadSegments t cfg)
                  (analyzeSegments (withMaxBadSegments t cfg) detectPeaks rate samples) in
  let run t := runPipeline (withMaxBadSegments t cfg) detectPeaks stats samples rate in
  (accepted (gate k) = true -> accepted (gate k') = true) /\
  (forall r, run k = Done r -> run k' = Done r) /\
  (forall f, run k = Failed f -> errorClass f <> PoorSignalQualityError -> run k' = Failed f).
Proof.
  intros Hk gate run. split; [|].
  { unfold gate, qualityGate. simpl. rewrite !analyzeSegments_tolerance.
    rewrite !Nat.leb_le. lia. }
  unfold run.
  destruct (validateBatch cfg samples rate) as [window|f0] eqn:Hv.
  - rewrite !(runPipeline_tolerance _ _ _ _ _ _ _ Hv).
    set (bad := countBadSegments (analyzeSegments cfg detectPeaks rate window)).
    destruct (Nat.leb_spec bad k) as [Hle|Hgt].
    + assert (Hle' : (bad <=? k')%nat = true) by (apply Nat.leb_le; lia).
      rewrite Hle'. split; intros; assumption.
    + split; [intros r [=]|]. intros f [= <-] Hc. simpl in Hc. contradiction.
  - assert (Hrun : forall t, runPipeline (withMaxBadSegments t cfg) detectPeaks stats samples rate
                             = Failed f0).
    { intros t. unfold runPipeline, stages. rewrite validateBatch_tolerance, Hv. reflexivity. }
    rewrite !Hrun. split; intros; assumption.
Qed.

Lemma tolerance_monotone_witness :
  (0 <= 2)%nat /\
  (accepted (qualityGate (withMaxBadSegments 0 defaultConfig)
     (analyzeSegments (withMaxBadSegments 0 defaultConfig) (fixedPeaks [0; 800; 1600]%float) 10
        (constantWindow 1e308 100 100))) = true ->
   accepted (qualityGate (withMaxBadSegments 2 defaultConfig)
     (analyzeSegments (withMaxBadSegments 2 defaultConfig) (fixedPeaks [0; 800; 1600]%float) 10
        (constantWindow 1e308 100 100))) = true).
Proof.
  split; [lia|].
  apply (tolerance_monotone defaultConfig (fixedPeaks [0; 800; 1600]%float) helperStats
           (constantWindow 1e308 100 100) 10 0 2). lia.
Defined.

(** *** Minimum duration *)

Lemma Qlt_bool_iff (a b : Q) : Qlt_bool a b = true <-> (a < b)%Q.
Proof.
  unfold Qlt_bool. rewrite negb_true_iff, <- not_true_iff_false, Qle_bool_iff.
  split; [apply Qnot_le_lt|apply Qlt_not_le].
Qed.

Lemma tooShort_iff cfg n rate :
  tooShort cfg n rate = true <->
  (inject_Z (Z.of_nat n) < rate * minDurationSeconds cfg)%Q.
Proof. apply Qlt_bool_iff. Qed.

Lemma gateStage_not_insufficient cfg results f :
  gateStage cfg results = Fail f -> errorClass f <> InsufficientDataError.
Proof.
  unfold gateStage. destruct (accepted _); [discriminate|]. intros [= <-]. discriminate.
Qed.

Lemma afterGate_not_insufficient cfg detectPeaks stats rate window bad f :
  afterGate cfg detectPeaks stats rate window bad = Fail f ->
  errorClass f <> InsufficientDataError.
Proof.
  unfold afterGate, peakStage, metricsStage. simpl.
  destruct (length (detectPeaks window rate) <? 2)%nat; simpl.
  - intros [= <-]. discriminate.
  - destruct (length _ <? 2)%nat; [intros [= <-]|]; discriminate.
Qed.

(** C6. For a valid sampling rate the pipeline fails with
    [InsufficientDataError] exactly when the sample count is below
    [samplingRate * minDurationSeconds], which is [samplingRate * 10] by
    default; an input with at least that many samples passes validation
    unchanged. *)
Theorem minimum_duration_check (cfg : Config) (detectPeaks : PeakDetector)
    (stats : RunningStats) (samples : list Sample) (rate : Q) :
  validSamplingRate rate = true ->
  let sampleCount := inject_Z (Z.of_nat (length samples)) in
  ((exists f, runPipeline cfg detectPeaks stats samples rate = Failed f /\
              errorClass f = InsufficientDataError)
   <-> (sampleCount < rate * minDurationSeconds cfg)%Q) /\
  (~ (sampleCount < rate * minDurationSeconds cfg)%Q ->
   validateBatch cfg samples rate = Pass samples) /\
  minDurationSeconds defaultConfig = 10%Q.
Proof.
  intros Hrate sampleCount.
  assert (Hval : validateBatch cfg samples rate =
                 if tooShort cfg (length samples) rate then
                   Fail {| errorClass := InsufficientDataError;
                           error := "Insufficient data: less than the minimum duration of samples";
                           failureBadSegments := 0 |}
                 else Pass samples).
  { unfold validateBatch. rewrite Hrate. reflexivity. }
  pose proof (tooShort_iff cfg (length samples) rate) as Hts. fold sampleCount in Hts.
  split; [|split; [|reflexivity]].
  - unfold runPipeline, stages. rewrite Hval.
    destruct (tooShort cfg (length samples) rate) eqn:Hshort.
    + simpl. split; [intros _; apply Hts; reflexivity|].
      intros _. eexists. split; reflexivity.
    + split; [|intros H; apply Hts in H; discriminate H].
      intros (f & Hrun & Hc). exfalso. simpl in Hrun.
      destruct (gateStage cfg _) as [bad|fg] eqn:Hg; simpl in Hrun.
      * destruct (afterGate cfg detectPeaks stats rate samples bad) as [r|fa] eqn:Ha;
          [discriminate|].
        injection Hrun as <-. exact (afterGate_not_insufficient _ _ _ _ _ _ _ Ha Hc).
      * injection Hrun as <-. exact (gateStage_not_insufficient _ _ _ Hg Hc).
  - intros Hn. rewrite Hval.
    destruct (tooShort cfg (length samples) rate); [|reflexivity].
    exfalso. apply Hn, Hts. reflexivity.
Qed.

Lemma minimum_duration_check_witness :
  validSamplingRate 100 = true /\
  ((exists f, runPipeline defaultConfig (fixedPeaks []) helperStats
                (constantWindow 512 10 999) 100 = Failed f /\
              errorClass f = InsufficientDataError)
   <-> (inject_Z (Z.of_nat (length (constantWindow 512 10 999)))
        < 100 * minDurationSeconds defaultConfig)%Q).
Proof.
  split; [reflexivity|].
  apply (minimum_duration_check defaultConfig (fixedPeaks []) helperStats
           (constantWindow 512 10 999) 100). reflexivity.
Defined.

(** *** Flatline windows *)














(** *** Interval extraction *)

Lemma successiveDifferences_length (xs : list number) :
  length (successiveDifferences xs) = (length xs - 1)%nat.
Proof.
  induction xs as [|a [|b rest] IH]; [reflexivity|reflexivity|].
  change (successiveDifferences (a :: b :: rest))
    with ((b - a)%float :: successiveDifferences (b :: rest)).
  simpl length in *. rewrite IH. lia.
Qed.

Lemma successiveDifferences_lookup (xs : list number) (i : nat) (a b : number) :
  xs !! i = Some a -> xs !! S i = Some b ->
  successiveDifferences xs !! i = Some (b - a)%float.
Proof.
  revert i. induction xs as [|x [|y rest] IH]; intros i Ha Hb; [discriminate|discriminate|].
  change (successiveDifferences (x :: y :: rest))
    with ((y - x)%float :: successiveDifferences (y :: rest)).
  destruct i as [|i].
  - simpl in Ha, Hb. injection Ha as <-. injection Hb as <-. reflexivity.
  - simpl. apply IH; assumption.
Qed.

Lemma successiveDifferences_positive (xs : list number) :
  strictlyIncreasing xs = true ->
  Forall (fun d => (0 <? d)%float = true) (successiveDifferences xs).
Proof.
  induction xs as [|a [|b rest] IH]; intros H; [constructor|constructor|].
  change (successiveDifferences (a :: b :: rest))
    with ((b - a)%float :: successiveDifferences (b :: rest)).
  change (strictlyIncreasing (a :: b :: rest))
    with ((a <? b)%float && strictlyIncreasing (b :: rest)) in H.
  apply andb_true_iff in H as [Hab Hrest].
  constructor; [apply sub_pos, Hab|apply IH, Hrest].
Qed.

(** C3. The extracted sequence has one interval per pair of consecutive
    peaks, [RR[i] = timestamp(peak[i+1]) - timestamp(peak[i])], in the order
    of the peaks, hence [n - 1] intervals for [n] peaks; for a strictly
    increasing sequence of two or more peaks there is at least one interval
    and every interval is positive. Peaks at 0, 800, 1600 and 2400 ms give
    the intervals 800, 800, 800, whose RMSSD is 0; so do the same peaks
    given as sample positions 0, 80, 160, 240 at 100 Hz to the formula of
    the stub. *)
Theorem rr_intervals (peaks : list number) :
  strictlyIncreasing peaks = true ->
  (2 <= length peaks)%nat ->
  length (calculateRRIntervals peaks) = (length peaks - 1)%nat /\
  (1 <= length (calculateRRIntervals peaks))%nat /\
  (forall (i : nat) (earlier later : number),
     peaks !! i = Some earlier -> peaks !! S i = Some later ->
     calculateRRIntervals peaks !! i = Some (later - earlier)%float) /\
  (forall i : nat, (S i < length peaks)%nat -> is_Some (calculateRRIntervals peaks !! i)) /\
  Forall (fun rr => (0 <? rr)%float = true) (calculateRRIntervals peaks) /\
  calculateRRIntervals [0; 800; 1600; 2400]%float = [800; 800; 800]%float /\
  calculateRMSSD (calculateRRIntervals [0; 800; 1600; 2400]%float) = 0%float /\
  rrFromPeakIndices [0; 80; 160; 240]%float 100 = [800; 800; 800]%float.
Proof.
  intros Hinc Hn. unfold calculateRRIntervals.
  pose proof (successiveDifferences_length peaks) as Hlen.
  split; [exact Hlen|]. split; [lia|].
  split; [apply successiveDifferences_lookup|]. split.
  - intros i Hi. apply lookup_lt_is_Some. lia.
  - split; [apply successiveDifferences_positive, Hinc|]. repeat split; reflexivity.
Qed.

Lemma rr_intervals_witness :
  strictlyIncreasing [0; 800; 1600; 2400]%float = true /\
  (2 <= length [0; 800; 1600; 2400]%float)%nat /\
  length (calculateRRIntervals [0; 800; 1600; 2400]%float) = 3%nat /\
  Forall (fun rr => (0 <? rr)%float = true) (calculateRRIntervals [0; 800; 1600; 2400]%float).
Proof.
  assert (H1 : strictlyIncreasing [0; 800; 1600; 2400]%float = true) by reflexivity.
  assert (H2 : (2 <= length [0; 800; 1600; 2400]%float)%nat) by (simpl; lia).
  destruct (rr_intervals [0; 800; 1600; 2400]%float H1 H2) as (Hlen & _ & _ & _ & Hpos & _).
  split; [exact H1|]. split; [exact H2|]. split; [exact Hlen|exact Hpos].
Defined.

(** *** Artifact rejection *)











End PipelineFacts.

Module ArduinoFacts.
Import Arduino.

#[local] Ltac unfold_consts := unfold SAMPLE_BUFFER_SIZE, to_uint8 in *.

Lemma next_index_range (i : Z) :
  0 <= i < 64 -> 0 <= to_uint8 ((i + 1) mod SAMPLE_BUFFER_SIZE) < 64.
Proof. unfold_consts. intros Hi. Z.div_mod_to_equations. lia. Qed.

Lemma next_index_eq (i : Z) :
  0 <= i < 64 ->
  to_uint8 ((i + 1) mod SAMPLE_BUFFER_SIZE) = if i =? 63 then 0 else i + 1.
Proof.
  unfold_consts. intros Hi.
  destruct (Z.eqb_spec i 63) as [->|Hne]; [reflexivity|].
  rewrite (Z.mod_small (i + 1) 64) by lia. apply Z.mod_small. lia.
Qed.

Lemma init_wf : wf init.
Proof. unfold wf, init, SAMPLE_BUFFER_SIZE. simpl. lia. Qed.

Lemma store_wf s st : wf st -> wf (store s st).
Proof.
  intros (Hh & Ht & Hl). unfold store.
  destruct (negb _); [|repeat split; tauto].
  unfold wf. simpl. rewrite length_insert.
  pose proof (next_index_range (sampleHead st) Hh). unfold SAMPLE_BUFFER_SIZE in *.
  repeat split; tauto || lia.
Qed.

Lemma take_wf st : wf st -> wf (snd (take st)).
Proof.
  intros (Hh & Ht & Hl). unfold take.
  destruct (negb _); [|repeat split; tauto].
  unfold wf. simpl.
  pose proof (next_index_range (sampleTail st) Ht). unfold SAMPLE_BUFFER_SIZE in *.
  repeat split; tauto || lia.
Qed.

Lemma emit_wf r : wf (snd r) -> wf (emit r).
Proof. destruct r as [[s|] st]; simpl; unfold wf; simpl; tauto. Qed.

Lemma step_wf sk ev st : wf st -> wf (step sk ev st).
Proof.
  intros Hwf. destruct ev as [adc|adc], sk; simpl.
  - by apply store_wf.
  - exact Hwf.
  - unfold readPulseSensor. apply emit_wf, take_wf, Hwf.
  - unfold readPulseSensor. apply emit_wf, take_wf.
    destruct (sampleFlag st); [apply store_wf|]; exact Hwf.
Qed.

Lemma run_wf sk evs st : wf st -> wf (run sk evs st).
Proof.
  unfold run. revert st.
  induction evs as [|ev evs IH]; intros st Hwf; simpl; [exact Hwf|].
  apply IH, step_wf, Hwf.
Qed.

(** One slot always stays empty. *)
Lemma stored_bound st : (stored st <= 63)%nat.
Proof.
  unfold stored, SAMPLE_BUFFER_SIZE.
  pose proof (Z.mod_pos_bound (sampleHead st - sampleTail st) 64). lia.
Qed.

Lemma pending_length st : length (pending st) = stored st.
Proof. unfold pending. by rewrite length_fmap, length_seq. Qed.

Lemma full_stored st : wf st -> full st = true <-> stored st = 63%nat.
Proof.
  intros (Hh & Ht & _). unfold full, stored. unfold SAMPLE_BUFFER_SIZE in Hh, Ht.
  rewrite next_index_eq by exact Hh. unfold SAMPLE_BUFFER_SIZE.
  destruct (Z.eqb_spec (sampleHead st) 63) as [E|E]; rewrite Z.eqb_eq;
    split; intros H; Z.div_mod_to_equations; lia.
Qed.

(** A refused write leaves every global as it was. *)
Lemma store_full s st : full st = true -> store s st = st.
Proof. unfold store, full. intros ->. reflexivity. Qed.

(** An admitted write appends to the unread samples and touches none of them. *)
Lemma store_not_full s st :
  wf st -> full st = false -> pending (store s st) = pending st ++ [s].
Proof.
  intros Hwf Hfull. pose proof Hwf as (Hh & Ht & Hl).
  unfold SAMPLE_BUFFER_SIZE in Hh, Ht.
  assert (Hst : stored st <> 63%nat).
  { intros E. apply (full_stored st Hwf) in E. congruence. }
  pose proof (stored_bound st) as Hb.
  unfold store. fold (full st). rewrite Hfull. simpl.
  unfold pending at 1, stored at 1. simpl.
  rewrite (next_index_eq _ Hh).
  assert (Hcnt : Z.to_nat (((if sampleHead st =? 63 then 0 else sampleHead st + 1)
                              - sampleTail st) mod SAMPLE_BUFFER_SIZE) = S (stored st)).
  { revert Hst Hb. unfold stored, SAMPLE_BUFFER_SIZE.
    destruct (Z.eqb_spec (sampleHead st) 63); intros; Z.div_mod_to_equations; lia. }
  rewrite Hcnt, seq_S, fmap_app. simpl. f_equal.
  - unfold pending. apply list_fmap_ext. intros i k Hk.
    apply lookup_seq in Hk as [-> Hlt]. simpl.
    apply list_lookup_total_insert_ne.
    revert Hlt. unfold stored, SAMPLE_BUFFER_SIZE. intros. Z.div_mod_to_equations. lia.
  - f_equal.
    replace (Z.to_nat ((sampleTail st + Z.of_nat (stored st)) mod SAMPLE_BUFFER_SIZE))
      with (Z.to_nat (sampleHead st)).
    + apply list_lookup_total_insert_eq. lia.
    + f_equal. unfold stored, SAMPLE_BUFFER_SIZE. Z.div_mod_to_equations. lia.
Qed.

(** The read block hands out the oldest unread sample. *)
Lemma take_pending st :
  wf st ->
  match take st with
  | (Some s, st') => pending st = s :: pending st'
  | (None, st') => pending st = [] /\ st' = st
  end.
Proof.
  intros (Hh & Ht & Hl). unfold SAMPLE_BUFFER_SIZE in Hh, Ht. unfold take.
  destruct (Z.eqb_spec (sampleTail st) (sampleHead st)) as [E|E]; simpl.
  - split; [|reflexivity]. unfold pending, stored. rewrite E, Z.sub_diag. reflexivity.
  - unfold pending, stored. simpl. rewrite (next_index_eq _ Ht).
    assert (Hcnt : exists n,
      Z.to_nat ((sampleHead st - sampleTail st) mod SAMPLE_BUFFER_SIZE) = S n /\
      Z.to_nat ((sampleHead st - (if sampleTail st =? 63 then 0 else sampleTail st + 1))
                  mod SAMPLE_BUFFER_SIZE) = n).
    { exists (Nat.pred (Z.to_nat ((sampleHead st - sampleTail st) mod SAMPLE_BUFFER_SIZE))).
      unfold SAMPLE_BUFFER_SIZE.
      destruct (Z.eqb_spec (sampleTail st) 63); split; Z.div_mod_to_equations; lia. }
    destruct Hcnt as (n & -> & ->). simpl. f_equal.
    + do 2 f_equal. unfold SAMPLE_BUFFER_SIZE. Z.div_mod_to_equations. lia.
    + rewrite <- fmap_S_seq, <- list_fmap_compose. apply list_fmap_ext.
      intros i k _. simpl. do 2 f_equal. unfold SAMPLE_BUFFER_SIZE.
      destruct (Z.eqb_spec (sampleTail st) 63); Z.div_mod_to_equations; lia.
Qed.

(** C10. In every state either sketch can reach, from the initial globals and
    under any schedule of timer interrupts and [loop()] iterations,
    [sampleHead] and [sampleTail] lie in [0, SAMPLE_BUFFER_SIZE), at most
    [SAMPLE_BUFFER_SIZE - 1 = 63] samples are stored (the buffer counts as
    full exactly when 63 are), and the write block either is refused, leaving
    every global untouched so that the incoming sample is discarded, or
    appends the sample behind the unread ones without altering any of them. *)
Theorem sample_buffer_invariant (sk : sketch) (evs : list event) (s : Z) :
  let st := run sk evs init in
  0 <= sampleHead st < SAMPLE_BUFFER_SIZE /\
  0 <= sampleTail st < SAMPLE_BUFFER_SIZE /\
  (length (pending st) <= Z.to_nat (SAMPLE_BUFFER_SIZE - 1))%nat /\
  Z.to_nat (SAMPLE_BUFFER_SIZE - 1) = 63%nat /\
  full st = (length (pending st) =? 63)%nat /\
  (if full st then store s st = st /\ pending (store s st) = pending st
   else pending (store s st) = pending st ++ [s]).
Proof.
  intros st.
  assert (Hwf : wf st) by (apply run_wf, init_wf).
  pose proof Hwf as (Hh & Ht & _).
  repeat split; try tauto.
  - rewrite pending_length. apply stored_bound.
  - rewrite pending_length. pose proof (full_stored st Hwf) as Hfs.
    destruct (full st), (Nat.eqb_spec (stored st) 63); intuition congruence.
  - destruct (full st) eqn:Hf.
    + rewrite (store_full s st Hf). split; reflexivity.
    + apply store_not_full; assumption.
Qed.

(** C5, as stated, fails on the sketches: after 63 timer interrupts with no
    [loop()] iteration the AVR buffer is full and holds the readings 1..63;
    the 64th reading is not admitted and reading 1, the oldest, is still the
    next to be consumed. *)
Lemma full_ring_keeps_oldest :
  let st := run AVR (ticks 63) init in
  full st = true /\
  pending st = Z.of_nat <$> seq 1 63 /\
  pending (step AVR (Timer 64) st) <> tail (pending st) ++ [64] /\
  head (pending (step AVR (Timer 64) st)) = Some 1 /\
  last (pending (step AVR (Timer 64) st)) = Some 63.
Proof. vm_compute. repeat split; congruence. Qed.

(** C5, amended. Whenever the ring is full, the write block returns at once
    (it has no loop and waits for nothing) with every global unchanged: the
    incoming sample is the one dropped, the 63 stored samples all stay, and
    the next read still hands out the oldest of them. *)
Theorem full_ring_drops_incoming (st : state) (s : Z) :
  wf st ->
  full st = true ->
  store s st = st /\
  pending (store s st) = pending st /\
  length (pending st) = 63%nat /\
  fst (take (store s st)) = head (pending st) /\
  is_Some (head (pending st)).
Proof.
  intros Hwf Hf. rewrite (store_full s st Hf).
  assert (Hlen : length (pending st) = 63%nat).
  { rewrite pending_length. apply (full_stored st Hwf), Hf. }
  split; [reflexivity|]. split; [reflexivity|]. split; [exact Hlen|].
  pose proof (take_pending st Hwf) as Htake.
  destruct (take st) as [[oldest|] st'].
  - rewrite Htake. simpl. split; [reflexivity|]. by eexists.
  - destruct Htake as [Hnil _]. rewrite Hnil in Hlen. discriminate Hlen.
Qed.

Lemma full_ring_drops_incoming_witness :
  wf (run AVR (ticks 63) init) /\
  full (run AVR (ticks 63) init) = true /\
  store 64 (run AVR (ticks 63) init) = run AVR (ticks 63) init /\
  fst (take (store 64 (run AVR (ticks 63) init))) = Some 1.
Proof.
  assert (Hwf : wf (run AVR (ticks 63) init)).
  { unfold wf. vm_compute. repeat split; congruence. }
  assert (Hfull : full (run AVR (ticks 63) init) = true) by reflexivity.
  destruct (full_ring_drops_incoming (run AVR (ticks 63) init) 64 Hwf Hfull)
    as (Hstore & _ & _ & Htake & _).
  split; [exact Hwf|]. split; [exact Hfull|]. split; [exact Hstore|].
  rewrite Htake. reflexivity.
Defined.

End ArduinoFacts.

Module HandoffFacts.
Import Arduino Handoff ArduinoFacts.

Lemma pending_emit r : pending (emit r) = pending (snd r).
Proof. by destruct r as [[s|] st]. Qed.

Lemma serial_store s st : serial (store s st) = serial st.
Proof. unfold store. by destruct (negb _). Qed.

(** What one event does to the printed and the waiting samples. *)
Lemma timer_avr adc st :
  wf st ->
  serial (step AVR (Timer adc) st) = serial st /\
  pending (step AVR (Timer adc) st) = (if full st then pending st else pending st ++ [adc]).
Proof.
  intros Hwf. simpl. split; [apply serial_store|].
  destruct (full st) eqn:Hf.
  - by rewrite store_full.
  - by apply store_not_full.
Qed.

Lemma loop_avr adc st :
  wf st ->
  serial (step AVR (Loop adc) st) = serial st ++ option_list (head (pending st)) /\
  pending (step AVR (Loop adc) st) = tail (pending st).
Proof.
  intros Hwf. simpl. rewrite pending_emit.
  pose proof (take_pending st Hwf) as Ht.
  assert (Hs : serial (snd (take st)) = serial st).
  { unfold take. by destruct (negb _). }
  destruct (take st) as [[s|] st']; simpl in *.
  - rewrite Ht. simpl. rewrite Hs. split; reflexivity.
  - destruct Ht as [Hnil Heq]. subst st'. rewrite Hnil. simpl. rewrite app_nil_r.
    split; reflexivity.
Qed.

Lemma loop_avr_queue adc st :
  wf st ->
  serial (step AVR (Loop adc) st) ++ pending (step AVR (Loop adc) st) = serial st ++ pending st.
Proof.
  intros Hwf. destruct (loop_avr adc st Hwf) as [-> ->].
  destruct (pending st); simpl; [by rewrite app_nil_r|]. by rewrite <- app_assoc.
Qed.

(** From any state with indices in range, a schedule appends to the printed
    and waiting samples those of its readings that were not refused. *)
Lemma fifo_avr_from evs st :
  wf st ->
  exists kept,
    serial (run AVR evs st) ++ pending (run AVR evs st) = (serial st ++ pending st) ++ kept /\
    sublist kept (timerReadings evs) /\
    (length kept + overruns evs st = length (timerReadings evs))%nat.
Proof.
  revert st. induction evs as [|ev evs IH]; intros st Hwf.
  - exists []. simpl. rewrite app_nil_r. split; [reflexivity|]. split; [apply sublist_nil|reflexivity].
  - destruct (IH (step AVR ev st) (step_wf AVR ev st Hwf)) as (adm & Heq & Hsub & Hlen).
    change (run AVR (ev :: evs) st) with (run AVR evs (step AVR ev st)).
    destruct ev as [adc|adc].
    + destruct (timer_avr adc st Hwf) as [Hs Hp]. rewrite Hs, Hp in Heq.
      cbn [timerReadings omap]. fold (timerReadings evs).
      cbn [overruns].
      destruct (full st).
      * exists adm. split; [exact Heq|]. split; [by apply sublist_cons|].
        simpl in Hlen |- *. lia.
      * exists (adc :: adm). split.
        { rewrite Heq. by rewrite <- !app_assoc. }
        split; [by apply sublist_skip|]. simpl in Hlen |- *. lia.
    + rewrite (loop_avr_queue adc st Hwf) in Heq.
      exists adm. cbn [timerReadings omap overruns]. fold (timerReadings evs).
      split; [exact Heq|]. split; [exact Hsub|]. simpl in Hlen |- *. lia.
Qed.

Lemma sublist_full_length {A} (l k : list A) :
  sublist l k -> length l = length k -> l = k.
Proof.
  induction 1 as [|x l k _ IH|x l k Hs IH]; intros Hlen; simpl in *.
  - done.
  - f_equal. apply IH. lia.
  - apply sublist_length in Hs. lia.
Qed.

Lemma stored_step_avr ev st :
  wf st ->
  (length (pending (step AVR ev st)) <=
   length (pending st) + match ev with Timer _ => 1 | Loop _ => 0 end)%nat.
Proof.
  intros Hwf. destruct ev as [adc|adc].
  - destruct (timer_avr adc st Hwf) as [_ ->].
    destruct (full st); rewrite ?length_app; simpl; lia.
  - destruct (loop_avr adc st Hwf) as [_ ->].
    destruct (pending st); simpl; lia.
Qed.

Lemma no_overrun_below_capacity evs st :
  wf st ->
  (length (pending st) + length (timerReadings evs) <= 63)%nat ->
  overruns evs st = 0%nat.
Proof.
  revert st. induction evs as [|ev evs IH]; intros st Hwf Hle; [reflexivity|].
  pose proof (stored_step_avr ev st Hwf) as Hstep.
  cbn [overruns]. rewrite IH; [|by apply step_wf|].
  - destruct ev as [adc|adc]; [|reflexivity].
    destruct (full st) eqn:Hf; [|reflexivity].
    apply (full_stored st Hwf) in Hf. rewrite <- pending_length in Hf.
    simpl in Hle. lia.
  - destruct ev; simpl in Hle, Hstep |- *; lia.
Qed.

(** X1. On the AVR sketch, under any schedule of timer interrupts and
    [loop()] iterations, what has been printed followed by what waits in the
    buffer is a subsequence of the readings the interrupts took: nothing is
    printed that was not read, nothing twice, and nothing out of order. *)
Theorem printed_in_sampling_order (evs : list event) :
  let st := run AVR evs init in
  sublist (serial st ++ pending st) (timerReadings evs) /\
  sublist (serial st) (timerReadings evs).
Proof.
  intros st. destruct (fifo_avr_from evs init init_wf) as (adm & Heq & Hsub & _).
  change (pending init) with (@nil Z) in Heq. simpl in Heq.
  fold st in Heq. rewrite Heq. split; [exact Hsub|].
  transitivity adm; [|exact Hsub]. rewrite <- Heq. apply sublist_inserts_r. done.
Qed.

(** X2. On the AVR sketch every reading an interrupt took is printed, still
    waiting in the buffer, or was refused by a full buffer: the three counts
    add up to the number of interrupts. No reading is lost exactly when no
    interrupt finds the buffer full, which is so in particular while the
    schedule holds at most 63 interrupts. *)
Theorem readings_accounted (evs : list event) :
  let st := run AVR evs init in
  (length (serial st) + length (pending st) + overruns evs init = length (timerReadings evs))%nat /\
  (overruns evs init = 0%nat <-> serial st ++ pending st = timerReadings evs) /\
  ((length (timerReadings evs) <= 63)%nat -> overruns evs init = 0%nat).
Proof.
  intros st. destruct (fifo_avr_from evs init init_wf) as (adm & Heq & Hsub & Hlen).
  change (pending init) with (@nil Z) in Heq. simpl in Heq. fold st in Heq.
  split; [|split].
  - rewrite <- length_app, Heq. exact Hlen.
  - rewrite Heq. split.
    + intros H0. apply sublist_full_length; [exact Hsub|]. lia.
    + intros ->. lia.
  - intros Hle. apply no_overrun_below_capacity; [apply init_wf|exact Hle].
Qed.

Lemma readings_accounted_witness :
  overruns (ticks 3 ++ loops [0]) init = 0%nat /\
  serial (run AVR (ticks 3 ++ loops [0]) init) ++ pending (run AVR (ticks 3 ++ loops [0]) init)
  = timerReadings (ticks 3 ++ loops [0]).
Proof.
  split; [reflexivity|].
  apply (proj1 (proj1 (proj2 (readings_accounted (ticks 3 ++ loops [0]))))).
  reflexivity.
Defined.

(** X3. On the AVR sketch, [n] iterations of [loop()] with no interrupt in
    between print the [n] oldest unread samples in the order they were
    stored (all of them, when fewer wait) and leave the others waiting. *)
Theorem loop_drains_in_order (adcs : list Z) (st : state) :
  wf st ->
  let st' := run AVR (loops adcs) st in
  serial st' = serial st ++ firstn (length adcs) (pending st) /\
  pending st' = skipn (length adcs) (pending st).
Proof.
  cbv zeta. revert st. induction adcs as [|a adcs IH]; intros st Hwf.
  - simpl. rewrite app_nil_r. split; reflexivity.
  - destruct (IH (step AVR (Loop a) st) (step_wf AVR (Loop a) st Hwf)) as [Hs Hp].
    change (run AVR (loops (a :: adcs)) st) with (run AVR (loops adcs) (step AVR (Loop a) st)).
    rewrite Hs, Hp. destruct (loop_avr a st Hwf) as [-> ->].
    destruct (pending st) as [|p ps]; simpl.
    + rewrite take_nil, drop_nil, !app_nil_r. split; reflexivity.
    + rewrite <- app_assoc. split; reflexivity.
Qed.

Lemma loop_drains_in_order_witness :
  wf (run AVR (ticks 3) init) /\
  serial (run AVR (loops [0; 0]) (run AVR (ticks 3) init)) = [1; 2] /\
  pending (run AVR (loops [0; 0]) (run AVR (ticks 3) init)) = [3].
Proof.
  assert (Hwf : wf (run AVR (ticks 3) init)).
  { unfold wf. vm_compute. repeat split; congruence. }
  split; [exact Hwf|].
  exact (loop_drains_in_order [0; 0] (run AVR (ticks 3) init) Hwf).
Defined.



Lemma empty_not_full st : wf st -> pending st = [] -> full st = false.
Proof.
  intros Hwf Hnil. destruct (full st) eqn:Hf; [|reflexivity].
  apply (full_stored st Hwf) in Hf. rewrite <- pending_length, Hnil in Hf. discriminate.
Qed.

(** On ESP32 an iteration of [loop()] that starts with an empty buffer ends
    with an empty buffer. *)
Lemma loop_esp32 adc st :
  wf st -> pending st = [] ->
  let st' := step ESP32 (Loop adc) st in
  serial st' = serial st ++ (if sampleFlag st then [adc] else []) /\
  pending st' = [] /\ sampleFlag st' = false.
Proof.
  intros Hwf Hnil. cbv zeta. cbn [step readPulseSensor].
  destruct (sampleFlag st) eqn:Hflag.
  - set (st1 := {| sampleBuffer := sampleBuffer st; sampleHead := sampleHead st;
             sampleTail := sampleTail st; sampleFlag := false;
             Signal := Signal st; serial := serial st |}).
    assert (Hwf1 : wf st1) by exact Hwf.
    assert (Hnil1 : pending st1 = []) by exact Hnil.
    pose proof (store_not_full adc st1 Hwf1 (empty_not_full st1 Hwf1 Hnil1)) as Hp.
    rewrite Hnil1 in Hp. simpl in Hp.
    pose proof (take_pending (store adc st1) (store_wf adc st1 Hwf1)) as Ht.
    assert (Hs : serial (snd (take (store adc st1))) = serial st
                 /\ sampleFlag (snd (take (store adc st1))) = false).
    { unfold take. rewrite (surjective_pairing (if negb _ then _ else _)).
      unfold store. destruct (negb _), (negb _); simpl; split; reflexivity. }
    rewrite pending_emit.
    destruct (take (store adc st1)) as [[s|] st2]; simpl in Hs |- *.
    + rewrite Hp in Ht. injection Ht as <- Ht. destruct Hs as [-> ->].
      repeat split; congruence.
    + destruct Ht as [Ht _]. congruence.
  - pose proof (take_pending st Hwf) as Ht. rewrite pending_emit.
    destruct (take st) as [[s|] st2]; simpl.
    + congruence.
    + destruct Ht as [_ ->]. rewrite app_nil_r. repeat split; assumption.
Qed.

Lemma esp32_from evs st :
  wf st -> pending st = [] ->
  serial (run ESP32 evs st) = serial st ++ sampled (sampleFlag st) evs /\
  pending (run ESP32 evs st) = [].
Proof.
  revert st. induction evs as [|ev evs IH]; intros st Hwf Hnil.
  - simpl. rewrite app_nil_r. split; [reflexivity|exact Hnil].
  - change (run ESP32 (ev :: evs) st) with (run ESP32 evs (step ESP32 ev st)).
    destruct ev as [adc|adc].
    + destruct (IH (step ESP32 (Timer adc) st)) as [Hs Hp]; [exact Hwf|exact Hnil|].
      rewrite Hs, Hp. split; reflexivity.
    + destruct (loop_esp32 adc st Hwf Hnil) as (Hs1 & Hp1 & Hf1).
      destruct (IH (step ESP32 (Loop adc) st)) as [Hs Hp];
        [by apply step_wf|exact Hp1|].
      rewrite Hs, Hp, Hs1, Hf1. split; [|reflexivity].
      cbn [sampled]. destruct (sampleFlag st); simpl; by rewrite <- ?app_assoc, ?app_nil_r.
Qed.

Lemma sampled_bound armed evs :
  (length (sampled armed evs) <= (if armed then 1 else 0) + length (timerReadings evs))%nat.
Proof.
  revert armed. induction evs as [|[adc|adc] evs IH]; intros armed; simpl.
  - lia.
  - specialize (IH true). simpl in IH. destruct armed; lia.
  - specialize (IH false). destruct armed; simpl in *; lia.
Qed.

(** X4. On the ESP32 sketches the buffer is empty after every event, so it
    is never full and never refuses a sample: an iteration of [loop()] that
    finds the timer flag raised prints the reading it takes, one that finds
    it lowered prints nothing. Interrupts that arrive before [loop()] runs
    again raise the same flag and yield one sample, so no more samples are
    printed than interrupts occurred. *)
Theorem esp32_one_sample_per_raised_flag (evs : list event) :
  let st := run ESP32 evs init in
  serial st = sampled false evs /\
  pending st = [] /\
  full st = false /\
  (length (serial st) <= length (timerReadings evs))%nat.
Proof.
  intros st. destruct (esp32_from evs init init_wf eq_refl) as [Hs Hp]. fold st in Hs, Hp.
  simpl in Hs. split; [exact Hs|]. split; [exact Hp|]. split.
  - apply empty_not_full; [apply run_wf, init_wf|exact Hp].
  - rewrite Hs. apply (sampled_bound false).
Qed.

Lemma signal_emit r :
  Signal (snd r) = default 0 (last (serial (snd r))) ->
  Signal (emit r) = default 0 (last (serial (emit r))).
Proof. destruct r as [[s|] st]; simpl; [|done]. intros _. by rewrite last_snoc. Qed.

(** X5. In both sketches, under any schedule, [Signal] holds the sample
    printed last (and its initial 0 until one is printed). *)
Theorem signal_is_last_printed (sk : sketch) (evs : list event) :
  Signal (run sk evs init) = default 0 (last (serial (run sk evs init))).
Proof.
  assert (H : forall st, Signal st = default 0 (last (serial st)) ->
            Signal (run sk evs st) = default 0 (last (serial (run sk evs st)))).
  { induction evs as [|ev evs IH]; intros st Hst; [exact Hst|].
    apply IH. destruct ev as [adc|adc], sk; simpl.
    - unfold store. by destruct (negb _).
    - exact Hst.
    - apply signal_emit. unfold take. by destruct (negb _).
    - apply signal_emit. unfold take, store. destruct (sampleFlag st); simpl;
        repeat (destruct (negb _); simpl); exact Hst. }
  apply H. reflexivity.
Qed.

End HandoffFacts.

Module PolarFacts.
Import Arduino(sketch, AVR, ESP32).
Import Polar.

Lemma run_snoc sk calls pin now st :
  run sk (calls ++ [(pin, now)]) st = st' ← run sk calls st; readPolarSensor sk pin now st'.
Proof.
  revert st. induction calls as [|[p n] calls IH]; intros st; simpl.
  - by destruct (readPolarSensor sk pin now st).
  - destruct (readPolarSensor sk p n st) as [st1|f]; simpl; [apply IH|reflexivity].
Qed.


Lemma beats_snoc old calls pin now :
  beats old (calls ++ [(pin, now)]) =
  beats old calls ++ (if pin && negb (lastPin old calls) then [now] else []).
Proof.
  revert old. induction calls as [|[p n] calls IH]; intros old; simpl.
  - unfold lastPin. simpl. by destruct (pin && negb old).
  - assert (Hl : lastPin old ((p, n) :: calls) = lastPin p calls).
    { unfold lastPin. simpl. destruct calls as [|c calls']; [reflexivity|].
      cbn [fmap list_fmap]. rewrite !last_cons. by destruct (last _). }
    rewrite Hl. destruct (p && negb old); simpl; by rewrite IH.
Qed.


Lemma intervals_snoc t0 times t :
  intervals t0 (times ++ [t]) =
  intervals t0 times ++ [to_ulong (to_ulong t - lastTime t0 times)].
Proof.
  revert t0. induction times as [|u times IH]; intros t0; simpl; [reflexivity|].
  rewrite IH. do 3 f_equal. unfold lastTime. simpl.
  destruct times as [|v times']; [reflexivity|].
  cbn [fmap list_fmap]. rewrite !last_cons. by destruct (last _).
Qed.

Lemma intervals_length t0 times : length (intervals t0 times) = length times.
Proof. revert t0. induction times as [|t times IH]; intros t0; simpl; [|rewrite IH]; reflexivity. Qed.

Lemma recent_length bpms : length (recent bpms) = 5%nat.
Proof. unfold recent. rewrite length_drop, length_app, length_replicate. lia. Qed.

Lemma recent_snoc bpms b : recent (bpms ++ [b]) = tail (recent bpms) ++ [b].
Proof.
  unfold recent. rewrite length_app. cbn [length].
  rewrite app_assoc.
  rewrite <- drop_drop. rewrite drop_app_le by (rewrite length_app, length_replicate; lia).
  pose proof (recent_length bpms) as Hl. unfold recent in Hl.
  destruct (drop (length bpms) (replicate 5 0 ++ bpms)); [discriminate|reflexivity].
Qed.


Lemma int_of_Ok sk z r : int_of sk z = Ok r -> r = z /\ INT_MIN sk <= z <= INT_MAX sk.
Proof.
  unfold int_of. destruct (Z.leb_spec (INT_MIN sk) z), (Z.leb_spec z (INT_MAX sk));
    simpl; intros [=]; subst; lia.
Qed.

Lemma int_of_in_range sk z : INT_MIN sk <= z <= INT_MAX sk -> int_of sk z = Ok z.
Proof.
  intros [H1 H2]. unfold int_of.
  apply Z.leb_le in H1, H2. by rewrite H1, H2.
Qed.

Lemma int_of_fault sk z f : int_of sk z = Undefined f -> f = SignedOverflow.
Proof. unfold int_of. destruct (_ && _); congruence. Qed.

Lemma int_bounds sk : INT_MIN sk <= -32768 /\ 32767 <= INT_MAX sk.
Proof. destruct sk; unfold INT_MIN, INT_MAX; simpl; lia. Qed.

(** One call that detects a beat. *)
Lemma beat_call sk now st :
  consistent st ->
  polarOldSample st = 0 ->
  let d := to_ulong (to_ulong now - polarLastBeatTime st) in
  let b := bpmOf sk d in
  let total := polarBpmTotal st - hd 0 (window st) + b in
  readPolarSensor sk true now st =
    if d =? 0 then Undefined DivisionByZero
    else
      _ ← int_of sk (polarBpmTotal st - hd 0 (window st));
      _ ← int_of sk total;
      _ ← int_of sk (polarBeatCount st + 1);
      Ok {| polarOldSample := 1;
            polarSample := 1;
            polarBeatCount := polarBeatCount st + 1;
            polarLastBeatTime := to_ulong now;
            polarCurrentBeatTime := to_ulong now;
            polarBeatInterval := d;
            polarBPM := b;
            polarBpmReadings := <[Z.to_nat (polarReadIndex st) := b]> (polarBpmReadings st);
            polarReadIndex := (polarReadIndex st + 1) mod 5;
            polarBpmTotal := total;
            polarBpmAverage := Z.quot total 5;
            serial := if polarBeatCount st >? 5
                      then serial st ++ [line b (Z.quot total 5)] else serial st |}.
Proof.
  intros (Hlen & Hidx & Htot) Hold d b total. unfold polarNumReadings in Hidx.
  unfold readPolarSensor. rewrite Hold. cbn [negb andb Z.eqb].
  fold d. destruct (d =? 0); [reflexivity|]. fold (bpmOf sk d). fold b.
  assert (Hhd : polarBpmReadings st !!! Z.to_nat (polarReadIndex st) = hd 0 (window st)).
  { unfold window. destruct (polarBpmReadings st) as [|r0 [|r1 [|r2 [|r3 [|r4 [|]]]]]];
      try discriminate Hlen.
    assert (Hi : polarReadIndex st = 0 \/ polarReadIndex st = 1 \/ polarReadIndex st = 2 \/
                 polarReadIndex st = 3 \/ polarReadIndex st = 4) by lia.
    destruct Hi as [->|[->|[->|[->| ->]]]]; reflexivity. }
  rewrite Hhd.
  destruct (int_of sk (polarBpmTotal st - hd 0 (window st))) as [t1|f] eqn:E1; [|reflexivity].
  apply int_of_Ok in E1 as [-> _]. cbn [mbind outcome_bind].
  rewrite list_lookup_total_insert_eq by lia. fold total.
  destruct (int_of sk total) as [t2|f] eqn:E2; [|reflexivity].
  apply int_of_Ok in E2 as [-> _]. cbn [mbind outcome_bind].
  rewrite (int_of_in_range sk (polarReadIndex st + 1))
    by (pose proof (int_bounds sk); lia).
  cbn [mbind outcome_bind].
  destruct (int_of sk (polarBeatCount st + 1)) as [c|f] eqn:E3; [|reflexivity].
  apply int_of_Ok in E3 as [-> _]. cbn [mbind outcome_bind].
  unfold polarNumReadings. rewrite Z.rem_mod_nonneg by lia. reflexivity.
Qed.


Lemma quiet_call sk pin now st :
  (pin = false \/ polarOldSample st = 1) ->
  readPolarSensor sk pin now st =
    Ok {| polarOldSample := if pin then 1 else 0;
          polarSample := if pin then 1 else 0;
          polarBeatCount := polarBeatCount st;
          polarLastBeatTime := polarLastBeatTime st;
          polarCurrentBeatTime := polarCurrentBeatTime st;
          polarBeatInterval := polarBeatInterval st;
          polarBPM := polarBPM st;
          polarBpmReadings := polarBpmReadings st;
          polarReadIndex := polarReadIndex st;
          polarBpmTotal := polarBpmTotal st;
          polarBpmAverage := polarBpmAverage st;
          serial := serial st |}.
Proof.
  unfold readPolarSensor. intros [->| ->]; [reflexivity|].
  destruct pin; reflexivity.
Qed.

Lemma window_slide st b :
  length (polarBpmReadings st) = 5%nat ->
  0 <= polarReadIndex st < 5 ->
  drop (Z.to_nat ((polarReadIndex st + 1) mod 5))
       (<[Z.to_nat (polarReadIndex st) := b]> (polarBpmReadings st)) ++
  take (Z.to_nat ((polarReadIndex st + 1) mod 5))
       (<[Z.to_nat (polarReadIndex st) := b]> (polarBpmReadings st))
  = tail (window st) ++ [b].
Proof.
  intros Hlen Hidx. unfold window.
  destruct (polarBpmReadings st) as [|r0 [|r1 [|r2 [|r3 [|r4 [|]]]]]]; try discriminate Hlen.
  assert (Hi : polarReadIndex st = 0 \/ polarReadIndex st = 1 \/ polarReadIndex st = 2 \/
               polarReadIndex st = 3 \/ polarReadIndex st = 4) by lia.
  destruct Hi as [->|[->|[->|[->| ->]]]]; reflexivity.
Qed.

Lemma sumZ_app l k : sumZ (l ++ k) = sumZ l + sumZ k.
Proof. unfold sumZ. induction l as [|x l IH]; simpl; lia. Qed.

Lemma sumZ_slide w b : w <> [] -> sumZ (tail w ++ [b]) = sumZ w - hd 0 w + b.
Proof. destruct w as [|x w]; [done|]. intros _. rewrite sumZ_app. simpl. lia. Qed.

Lemma window_length st :
  length (polarBpmReadings st) = 5%nat -> length (window st) = 5%nat.
Proof.
  intros Hlen. unfold window. rewrite length_app, length_drop, length_take. lia.
Qed.

Lemma tracks_start sk st0 : atStart st0 -> tracks sk st0 [] st0.
Proof.
  intros (Hold & Hcount & Hbpm & Hr & Hi & Ht & Ha).
  unfold tracks, consistent, window, lastPin, lastTime, report, average5, recent.
  rewrite Hold, Hcount, Hbpm, Hr, Hi, Ht, Ha. simpl.
  rewrite app_nil_r. unfold polarNumReadings. repeat split; reflexivity || lia.
Qed.

Lemma report_snoc bpms b :
  report (bpms ++ [b]) =
  report bpms ++
  (if Z.of_nat (length bpms) >? 5 then [line b (average5 (bpms ++ [b]))] else []).
Proof.
  unfold report. rewrite length_app. cbn [length].
  destruct (Z.gtb_spec (Z.of_nat (length bpms)) 5) as [Hgt|Hle].
  - replace (length bpms + 1 - 6)%nat with (S (length bpms - 6)) by lia.
    rewrite seq_S, fmap_app. cbn [fmap list_fmap].
    replace (6 + (length bpms - 6))%nat with (length bpms) by lia.
    f_equal.
    + apply list_fmap_ext. intros i k Hk. apply lookup_seq in Hk as [-> Hlt].
      rewrite take_app_le by lia. f_equal.
      apply list_lookup_total_correct. rewrite lookup_app_l by lia.
      apply list_lookup_lookup_total_lt. lia.
    + f_equal. f_equal.
      * apply list_lookup_total_correct. rewrite lookup_app_r by lia.
        by rewrite Nat.sub_diag.
      * f_equal. apply take_ge. rewrite length_app. simpl. lia.
  - replace (length bpms + 1 - 6)%nat with 0%nat by lia.
    replace (length bpms - 6)%nat with 0%nat by lia. reflexivity.
Qed.


Lemma lastPin_snoc old calls pin now : lastPin old (calls ++ [(pin, now)]) = pin.
Proof. unfold lastPin. rewrite fmap_app. cbn [fmap list_fmap]. by rewrite last_snoc. Qed.

Lemma lastTime_snoc t0 times t : lastTime t0 (times ++ [t]) = to_ulong t.
Proof. unfold lastTime. rewrite fmap_app. cbn [fmap list_fmap]. by rewrite last_snoc. Qed.

(** One more call after a tracked schedule. *)
Lemma tracks_call sk st0 calls st pin now :
  tracks sk st0 calls st ->
  match readPolarSensor sk pin now st with
  | Ok st' => tracks sk st0 (calls ++ [(pin, now)]) st'
  | Undefined DivisionByZero =>
      exists times d,
        beats false (calls ++ [(pin, now)]) = times ++ [now] /\
        intervals (polarLastBeatTime st0) (times ++ [now]) =
          intervals (polarLastBeatTime st0) times ++ [d] /\ d = 0
  | Undefined SignedOverflow => True
  end.
Proof.
  intros (Hold & Hlast & Hcount & Hcons & Hix & Hwin & Hbpm & Havg & Hser).
  destruct (pin && negb (lastPin false calls)) eqn:Hedge.
  - (* a beat *)
    apply andb_true_iff in Hedge as [-> Hl]. apply negb_true_iff in Hl.
    rewrite Hl in Hold.
    rewrite (beat_call sk now st Hcons Hold). cbv zeta.
    set (d := to_ulong (to_ulong now - polarLastBeatTime st)).
    assert (Hb : beats false (calls ++ [(true, now)]) = beats false calls ++ [now]).
    { rewrite beats_snoc, Hl. reflexivity. }
    assert (Hi : intervals (polarLastBeatTime st0) (beats false calls ++ [now]) =
                 intervals (polarLastBeatTime st0) (beats false calls) ++ [d]).
    { rewrite intervals_snoc. unfold d. by rewrite Hlast. }
    destruct (Z.eqb_spec d 0) as [Hd|Hd].
    { exists (beats false calls), d. by rewrite Hb, Hi. }
    destruct (int_of sk (polarBpmTotal st - hd 0 (window st))) as [t1|f] eqn:E1;
      [|by apply int_of_fault in E1 as ->].
    cbn [mbind outcome_bind].
    destruct (int_of sk (polarBpmTotal st - hd 0 (window st) + bpmOf sk d)) as [t2|f] eqn:E2;
      [|by apply int_of_fault in E2 as ->].
    cbn [mbind outcome_bind].
    destruct (int_of sk (polarBeatCount st + 1)) as [c|f] eqn:E3;
      [|by apply int_of_fault in E3 as ->].
    cbn [mbind outcome_bind].
    destruct Hcons as (Hlen & Hidx & Htot). unfold polarNumReadings in Hidx.
    pose proof (window_slide st (bpmOf sk d) Hlen Hidx) as Hslide.
    assert (Hne : window st <> []).
    { intros E. pose proof (window_length st Hlen) as Hwl. rewrite E in Hwl. discriminate. }
    match goal with |- tracks _ _ _ ?s => set (st' := s) end.
    assert (Hwin' : window st' = tail (window st) ++ [bpmOf sk d]) by exact Hslide.
    unfold tracks. cbv zeta. rewrite Hb, Hi, fmap_app. cbn [fmap list_fmap].
    rewrite lastPin_snoc, lastTime_snoc, length_app, last_snoc, recent_snoc, report_snoc.
    unfold consistent. rewrite Hwin'.
    unfold average5. rewrite recent_snoc, <- Hwin, !sumZ_slide by exact Hne.
    subst st'.
    cbn [polarOldSample polarLastBeatTime polarBeatCount polarBPM polarBpmAverage serial
         length polarBpmReadings polarReadIndex polarBpmTotal].
    rewrite length_insert, <- Htot, Hser.
    unfold polarNumReadings.
    repeat split; try reflexivity; try lia.
    + apply Z.mod_pos_bound. lia.
    + apply Z.mod_pos_bound. lia.
    + rewrite Hix, Z.add_mod_idemp_l by lia. f_equal. lia.
    + rewrite <- Hcount. destruct (polarBeatCount st >? 5); [by rewrite <- app_assoc|by rewrite app_nil_r].
  - (* no beat *)
    assert (Hq : pin = false \/ polarOldSample st = 1).
    { apply andb_false_iff in Hedge as [->|Hl]; [by left|right].
      apply negb_false_iff in Hl. by rewrite Hold, Hl. }
    rewrite (quiet_call sk pin now st Hq).
    unfold tracks. cbv zeta. rewrite beats_snoc, Hedge, app_nil_r, lastPin_snoc.
    split; [reflexivity|]. split; [exact Hlast|]. split; [exact Hcount|].
    split; [exact Hcons|]. split; [exact Hix|]. split; [exact Hwin|]. split; [exact Hbpm|].
    split; [exact Havg|exact Hser].
Qed.

Lemma run_tracks sk st0 calls st :
  atStart st0 -> run sk calls st0 = Ok st -> tracks sk st0 calls st.
Proof.
  intros Hstart. revert st. induction calls as [|[pin now] calls IH] using rev_ind; intros st.
  - simpl. intros [= <-]. by apply tracks_start.
  - rewrite run_snoc. destruct (run sk calls st0) as [st1|f]; [|discriminate].
    cbn [mbind outcome_bind]. intros Hcall.
    pose proof (tracks_call sk st0 calls st1 pin now (IH st1 eq_refl)) as Hstep.
    by rewrite Hcall in Hstep.
Qed.


Lemma to_int_small sk z : 0 <= z <= INT_MAX sk -> to_int sk z = z.
Proof.
  unfold to_int, INT_MAX. intros Hz.
  assert (Hw : 2 ^ intBits sk = 2 * 2 ^ (intBits sk - 1)).
  { rewrite <- Z.pow_succ_r by (destruct sk; simpl; lia). f_equal. lia. }
  assert (Hp : 0 < 2 ^ (intBits sk - 1)) by (apply Z.pow_pos_nonneg; destruct sk; simpl; lia).
  rewrite Z.mod_small by lia. lia.
Qed.

Lemma maxRate_bound sk : 0 <= maxRate sk /\ 5 * maxRate sk <= INT_MAX sk.
Proof. destruct sk; vm_compute; split; congruence. Qed.

Lemma bpmOf_bound sk d : minInterval sk <= d -> 0 <= bpmOf sk d <= maxRate sk.
Proof.
  intros Hd. unfold bpmOf.
  assert (Hmin : 0 < minInterval sk) by (destruct sk; simpl; lia).
  assert (Hq : 0 <= 60000 / d <= maxRate sk).
  { split; [apply Z.div_pos; lia|]. unfold maxRate. apply Z.div_le_compat_l; lia. }
  pose proof (maxRate_bound sk). rewrite to_int_small; lia.
Qed.

Lemma recent_bound (B : Z) bpms :
  0 <= B -> Forall (fun b => 0 <= b <= B) bpms -> Forall (fun b => 0 <= b <= B) (recent bpms).
Proof.
  intros HB Hall. unfold recent. apply Forall_drop, Forall_app. split; [|exact Hall].
  repeat constructor; lia.
Qed.

Lemma sumZ_bound (B : Z) l :
  Forall (fun b => 0 <= b <= B) l -> 0 <= sumZ l <= Z.of_nat (length l) * B.
Proof. induction 1 as [|x l Hx _ IH]; simpl; lia. Qed.

Lemma run_defined sk st0 calls :
  atStart st0 ->
  Forall (fun d => minInterval sk <= d) (intervals (polarLastBeatTime st0) (beats false calls)) ->
  Z.of_nat (length (beats false calls)) <= INT_MAX sk ->
  exists st, run sk calls st0 = Ok st.
Proof.
  intros Hstart. induction calls as [|[pin now] calls IH] using rev_ind; intros Hall Hn.
  - by exists st0.
  - rewrite beats_snoc in Hall, Hn.
    destruct (pin && negb (lastPin false calls)) eqn:Hedge.
    + rewrite intervals_snoc in Hall. apply Forall_app in Hall as [Hall Hd].
      apply Forall_inv in Hd. cbv beta in Hd. rewrite length_app in Hn. simpl in Hn.
      destruct IH as [st1 Hrun]; [exact Hall|lia|].
      pose proof (run_tracks sk st0 calls st1 Hstart Hrun)
        as (Hold & Hlast & Hcount & Hcons & _ & Hwin & _).
      rewrite run_snoc, Hrun. cbn [mbind outcome_bind].
      apply andb_true_iff in Hedge as [-> Hl]. apply negb_true_iff in Hl.
      rewrite Hl in Hold.
      rewrite (beat_call sk now st1 Hcons Hold). cbv zeta. rewrite Hlast.
      set (d := to_ulong (to_ulong now - lastTime (polarLastBeatTime st0) (beats false calls))) in *.
      assert (Hmin : 0 < minInterval sk) by (destruct sk; simpl; lia).
      rewrite (proj2 (Z.eqb_neq d 0)) by lia.
      pose proof (maxRate_bound sk) as [HB0 HB5].
      pose proof (int_bounds sk) as [Hlo Hhi].
      pose proof (bpmOf_bound sk d Hd) as Hb.
      assert (Hbs : Forall (fun b => 0 <= b <= maxRate sk)
                (bpmOf sk <$> intervals (polarLastBeatTime st0) (beats false calls))).
      { apply Forall_fmap. eapply Forall_impl; [exact Hall|].
        intros x Hx. by apply bpmOf_bound. }
      pose proof (recent_bound _ _ HB0 Hbs) as Hrec. rewrite <- Hwin in Hrec.
      destruct Hcons as (Hlen & Hidx & Htot).
      pose proof (window_length st1 Hlen) as Hwl.
      destruct (window st1) as [|w0 ws] eqn:Ew; [discriminate|].
      apply Forall_cons in Hrec as [Hw0 Hws].
      pose proof (sumZ_bound _ _ Hws) as Hsum. simpl in Hwl.
      replace (length ws) with 4%nat in Hsum by lia.
      rewrite Htot. cbn [hd sumZ foldr]. fold (sumZ ws).
      rewrite Hcount, length_fmap in *.
      rewrite intervals_length.
      rewrite !int_of_in_range by lia. cbn [mbind outcome_bind].
      eexists. reflexivity.
    + rewrite app_nil_r in Hall, Hn.
      destruct IH as [st1 Hrun]; [exact Hall|exact Hn|].
      pose proof (run_tracks sk st0 calls st1 Hstart Hrun) as (Hold & _).
      rewrite run_snoc, Hrun. cbn [mbind outcome_bind].
      rewrite quiet_call; [by eexists|].
      apply andb_false_iff in Hedge as [->|Hl]; [by left|right].
      apply negb_false_iff in Hl. by rewrite Hold, Hl.
Qed.


Lemma run_intervals_nonzero sk st0 calls st :
  atStart st0 -> run sk calls st0 = Ok st ->
  Forall (fun d => d <> 0) (intervals (polarLastBeatTime st0) (beats false calls)).
Proof.
  intros Hstart. revert st.
  induction calls as [|[pin now] calls IH] using rev_ind; intros st; [constructor|].
  rewrite run_snoc. destruct (run sk calls st0) as [st1|f] eqn:Hrun; [|discriminate].
  cbn [mbind outcome_bind]. intros Hcall.
  pose proof (run_tracks sk st0 calls st1 Hstart Hrun)
    as (Hold & Hlast & _ & Hcons & _).
  rewrite beats_snoc. destruct (pin && negb (lastPin false calls)) eqn:Hedge.
  - rewrite intervals_snoc. apply Forall_app. split; [by eapply IH|].
    apply Forall_singleton.
    apply andb_true_iff in Hedge as [-> Hl]. apply negb_true_iff in Hl.
    rewrite Hl in Hold. rewrite (beat_call sk now st1 Hcons Hold) in Hcall.
    cbv zeta in Hcall. rewrite Hlast in Hcall.
    intros Hd. rewrite Hd in Hcall. discriminate Hcall.
  - rewrite app_nil_r. by eapply IH.
Qed.

Lemma setup_atStart pins now st :
  setupPolarSensor pins now init = Some st ->
  atStart st /\ polarLastBeatTime st = to_ulong now.
Proof.
  unfold setupPolarSensor. destruct (existsb id pins); [|discriminate].
  intros [= <-]. unfold atStart. simpl. repeat split; reflexivity.
Qed.

(** X6. [readPolarSensor] called in a loop, from the globals as [loop()]
    first finds them, over a schedule with at most [INT_MAX] beats: no call
    divides by zero or overflows an [int] if every interval between
    detected beats is at least 10 ms on the 16-bit boards, 1 ms on the
    ESP32. A run without fault has no beat interval of 0 ms; on the ESP32
    that condition is also sufficient. *)
Theorem polar_defined (sk : sketch) (st0 : state) (calls : list (bool * Z)) :
  atStart st0 ->
  let ds := intervals (polarLastBeatTime st0) (beats false calls) in
  Z.of_nat (length ds) <= INT_MAX sk ->
  (Forall (fun d => minInterval sk <= d) ds -> exists st, run sk calls st0 = Ok st) /\
  (forall st, run sk calls st0 = Ok st -> Forall (fun d => d <> 0) ds) /\
  (sk = ESP32 -> (exists st, run sk calls st0 = Ok st) <-> Forall (fun d => d <> 0) ds).
Proof.
  intros Hstart ds Hn. unfold ds in *. rewrite intervals_length in Hn.
  split; [intros Hall; by apply run_defined|].
  split; [intros st; by apply run_intervals_nonzero|].
  intros ->. split.
  - intros [st Hrun]. by eapply run_intervals_nonzero.
  - intros Hall. apply run_defined; [exact Hstart| |exact Hn].
    clear Hn. revert Hall. generalize (polarLastBeatTime st0).
    induction (beats false calls) as [|t ts IH]; intros t0 Hall; [constructor|].
    simpl in Hall |- *. apply Forall_cons in Hall as [Hd Hall].
    constructor; [|by apply IH].
    unfold to_ulong in *.
    pose proof (Z.mod_pos_bound (t `mod` 2 ^ 32 - t0) (2 ^ 32)). lia.
Qed.

Lemma polar_defined_witness :
  atStart init /\
  Z.of_nat (length (intervals (polarLastBeatTime init) (beats false (steady 800 8)))) <= INT_MAX AVR /\
  Forall (fun d => minInterval AVR <= d) (intervals (polarLastBeatTime init) (beats false (steady 800 8))) /\
  exists st, run AVR (steady 800 8) init = Ok st.
Proof.
  assert (Hs : atStart init) by (repeat split; reflexivity).
  assert (Hn : Z.of_nat (length (intervals (polarLastBeatTime init) (beats false (steady 800 8))))
               <= INT_MAX AVR) by (vm_compute; congruence).
  assert (Hall : Forall (fun d => minInterval AVR <= d)
                   (intervals (polarLastBeatTime init) (beats false (steady 800 8)))).
  { vm_compute. repeat constructor; congruence. }
  split; [exact Hs|]. split; [exact Hn|]. split; [exact Hall|].
  exact (proj1 (polar_defined AVR init (steady 800 8) Hs Hn) Hall).
Defined.

(** X7. The first call of [readPolarSensor] after [setupPolarSensor] has
    returned, if it still reads the pin HIGH, counts the beat that
    [setupPolarSensor] waited for: within the same millisecond it divides
    60000 by zero; later it records one beat whose rate is 60000 over the
    milliseconds elapsed, as converted to [int], and a fifth of that as the
    average. *)
Theorem polar_first_call_after_setup (sk : sketch) (pins : list bool) (now now' : Z) (st : state) :
  setupPolarSensor pins now init = Some st ->
  let d := to_ulong (to_ulong now' - to_ulong now) in
  match readPolarSensor sk true now' st with
  | Ok st' => d <> 0 /\ polarBeatCount st' = 1 /\ polarBPM st' = bpmOf sk d /\
              polarBpmAverage st' = Z.quot (bpmOf sk d) 5
  | Undefined f => d = 0 /\ f = DivisionByZero
  end.
Proof.
  intros Hsetup d. destruct (setup_atStart pins now st Hsetup) as [Hstart Hlast].
  pose proof (tracks_start sk st Hstart) as Htr.
  pose proof Htr as (_ & _ & _ & Hcons & _).
  destruct Hstart as (Hold & Hcount & _ & Hr & Hi & Htot & _).
  rewrite (beat_call sk now' st Hcons Hold). cbv zeta. rewrite Hlast. fold d.
  destruct (Z.eqb_spec d 0) as [Hd|Hd]; [split; [exact Hd|reflexivity]|].
  unfold window. rewrite Hr, Hi, Htot, Hcount. simpl hd.
  assert (Hb : INT_MIN sk <= bpmOf sk d <= INT_MAX sk).
  { unfold bpmOf, to_int, INT_MIN, INT_MAX.
    assert (Hw : 2 ^ intBits sk = 2 * 2 ^ (intBits sk - 1)).
    { rewrite <- Z.pow_succ_r by (destruct sk; simpl; lia). f_equal. lia. }
    pose proof (Z.mod_pos_bound (60000 / d + 2 ^ (intBits sk - 1)) (2 ^ intBits sk)).
    assert (0 < 2 ^ (intBits sk - 1)) by (apply Z.pow_pos_nonneg; destruct sk; simpl; lia).
    lia. }
  pose proof (int_bounds sk).
  rewrite !int_of_in_range by lia. cbn [mbind outcome_bind].
  simpl. repeat split; try exact Hd; f_equal; lia.
Qed.

Lemma polar_first_call_after_setup_witness :
  setupPolarSensor [false; false; true] 120 init <> None /\
  readPolarSensor AVR true 120 (default init (setupPolarSensor [false; false; true] 120 init))
    = Undefined DivisionByZero.
Proof.
  split; [discriminate|].
  pose proof (polar_first_call_after_setup AVR [false; false; true] 120 120
                (default init (setupPolarSensor [false; false; true] 120 init)) eq_refl) as H.
  cbv zeta in H.
  destruct (readPolarSensor AVR true 120 _) as [st'|f].
  - destruct H as [H _]. exfalso. apply H. reflexivity.
  - destruct H as [_ ->]. reflexivity.
Defined.

(** X8. After any run of [readPolarSensor] calls without fault,
    [polarBeatCount] is the number of rising edges of the pin,
    [polarReadIndex] is that number modulo 5, the array holds, from
    [polarReadIndex] on cyclically, the rates of the last five beats (zeros
    for beats not yet seen), [polarBpmTotal] is their sum,
    [polarBpmAverage] the truncated fifth of it and [polarBPM] the last
    rate. Calls that see no rising edge change none of these. *)
Theorem polar_running_average (sk : sketch) (st0 st : state) (calls : list (bool * Z)) :
  atStart st0 ->
  run sk calls st0 = Ok st ->
  let bpms := bpmOf sk <$> intervals (polarLastBeatTime st0) (beats false calls) in
  polarBeatCount st = Z.of_nat (length bpms) /\
  polarReadIndex st = Z.of_nat (length bpms) mod 5 /\
  window st = recent bpms /\
  polarBpmTotal st = sumZ (recent bpms) /\
  polarBpmAverage st = Z.quot (sumZ (recent bpms)) 5 /\
  polarBPM st = default 0 (last bpms).
Proof.
  intros Hstart Hrun bpms.
  pose proof (run_tracks sk st0 calls st Hstart Hrun)
    as (_ & _ & Hcount & (_ & _ & Htot) & Hix & Hwin & Hbpm & Havg & _).
  fold bpms in Hcount, Hix, Hwin, Hbpm, Havg.
  rewrite Htot, Hwin in *. repeat split; assumption.
Qed.

Lemma polar_running_average_witness :
  atStart init /\
  exists st, run AVR (steady 800 8) init = Ok st /\
    polarBeatCount st = 8 /\ polarReadIndex st = 3 /\
    window st = [75; 75; 75; 75; 75] /\ polarBpmTotal st = 375 /\
    polarBpmAverage st = 75 /\ polarBPM st = 75.
Proof.
  assert (Hs : atStart init) by (repeat split; reflexivity).
  split; [exact Hs|].
  destruct (run AVR (steady 800 8) init) as [st|f] eqn:Hrun; [|vm_compute in Hrun; discriminate].
  exists st. split; [reflexivity|].
  exact (polar_running_average AVR init st (steady 800 8) Hs Hrun).
Defined.

(** X9. A run of [readPolarSensor] calls without fault prints nothing for
    the first six beats and one line for each later beat, showing the rate
    of that beat and the truncated mean of the five rates up to it; calls
    that detect no beat print nothing. *)
Theorem polar_report (sk : sketch) (st0 st : state) (calls : list (bool * Z)) :
  atStart st0 ->
  run sk calls st0 = Ok st ->
  let bpms := bpmOf sk <$> intervals (polarLastBeatTime st0) (beats false calls) in
  serial st = serial st0 ++ report bpms /\
  length (serial st) = (length (serial st0) + (length bpms - 6))%nat.
Proof.
  intros Hstart Hrun bpms.
  pose proof (run_tracks sk st0 calls st Hstart Hrun)
    as (_ & _ & _ & _ & _ & _ & _ & _ & Hser).
  fold bpms in Hser. split; [exact Hser|].
  rewrite Hser, length_app. unfold report. by rewrite length_fmap, length_seq.
Qed.

Lemma polar_report_witness :
  atStart init /\
  exists st, run AVR (steady 800 8) init = Ok st /\
    serial st = [">PolarRealtimeBPM:75,PolarBPM:75"; ">PolarRealtimeBPM:75,PolarBPM:75"]%string.
Proof.
  assert (Hs : atStart init) by (repeat split; reflexivity).
  split; [exact Hs|].
  destruct (run AVR (steady 800 8) init) as [st|f] eqn:Hrun; [|vm_compute in Hrun; discriminate].
  exists st. split; [reflexivity|].
  exact (proj1 (polar_report AVR init st (steady 800 8) Hs Hrun)).
Defined.

End PolarFacts.

Module FactoriesFacts.
Import JS Processor Factories.
#[local] Open Scope string_scope.

(** X10. [HRVProcessorFactory.create] returns a processor exactly for
    'javascript' and 'python', and the processor it returns reports the
    requested type from [getProcessorInfo]; 'hybrid' throws "Hybrid
    processor not yet implemented" and every other string "Unknown
    processor type: " followed by the string. *)
Theorem create_returns_requested_processor (t : string) :
  match HRVProcessorFactory.create t with
  | Return p => (t = "javascript" \/ t = "python") /\ type (getProcessorInfo p) = t
  | Throw message =>
      t <> "javascript" /\ t <> "python" /\
      message = if String.eqb t "hybrid" then "Hybrid processor not yet implemented"
                else "Unknown processor type: " ++ t
  end.
Proof.
  unfold HRVProcessorFactory.create.
  destruct (String.eqb_spec t "javascript") as [->|Hjs]; [split; [by left|reflexivity]|].
  destruct (String.eqb_spec t "python") as [->|Hpy]; [split; [by right|reflexivity]|].
  destruct (String.eqb t "hybrid"); repeat split; assumption.
Qed.

(** X11. [HRVProcessorFactory.forUseCase] never throws, whatever string it
    is given: it never asks for the unimplemented hybrid processor. It
    returns the Python bridge exactly for 'development'; the processor for
    any other use case, 'realtime' included, answers [processRealtime] with
    [null] on every input, while the one for 'development' answers with
    the placeholder metrics. *)
Theorem forUseCase_never_throws (useCase : string) :
  exists p, HRVProcessorFactory.forUseCase useCase = Return p /\
    (type (getProcessorInfo p) = "python" <-> useCase = "development") /\
    (forall w recentData windowSize,
       processRealtimeOf p w recentData windowSize =
       if String.eqb useCase "development" then Some (placeholderMetrics w) else None).
Proof.
  unfold HRVProcessorFactory.forUseCase.
  destruct (String.eqb_spec useCase "realtime") as [->|H1].
  { eexists. split; [reflexivity|]. split; [split; discriminate|reflexivity]. }
  destruct (String.eqb_spec useCase "post-session") as [->|H2].
  { eexists. split; [reflexivity|]. split; [split; discriminate|reflexivity]. }
  destruct (String.eqb_spec useCase "development") as [->|H3].
  { eexists. split; [reflexivity|]. split; [split; reflexivity|reflexivity]. }
  eexists. split; [reflexivity|]. split; [split; [discriminate|contradiction]|reflexivity].
Qed.

(** X12. [DataCollectorFactory.create] returns a collector only for 'mock',
    and it is a [MockCollector]; 'polar_h10' and 'generic_ble' throw their
    "not yet implemented" errors and every other string "Unknown collector
    type: " followed by the string. The collector returned resolves
    [initialize] and [connect] to [true] for every device id, and still
    reports [isConnected() = false], no device info and no scanned device. *)
Theorem collector_only_mock (t : string) :
  match DataCollectorFactory.create t with
  | Return c =>
      t = "mock" /\ c = Mock NewMockCollector /\
      initialize c = true /\
      forall deviceId timeout,
        connect c deviceId = true /\ isConnected c = false /\
        getDeviceInfo c = None /\ scanDevices c timeout = []
  | Throw message =>
      t <> "mock" /\
      message = if String.eqb t "polar_h10" then "PolarH10Collector not yet implemented"
                else if String.eqb t "generic_ble"
                     then "Generic BLE collector not yet implemented"
                     else "Unknown collector type: " ++ t
  end.
Proof.
  unfold DataCollectorFactory.create.
  destruct (String.eqb_spec t "polar_h10") as [->|H1]; [split; [discriminate|reflexivity]|].
  destruct (String.eqb_spec t "mock") as [->|H2].
  { split; [reflexivity|]. split; [reflexivity|]. split; [reflexivity|].
    intros deviceId timeout. repeat split. }
  destruct (String.eqb t "generic_ble"); split; assumption || reflexivity.
Qed.

End FactoriesFacts.

Module HelpersEdgeFacts.
Import JS Helpers FloatFacts Order.
#[local] Open Scope Z_scope.

(** *** The range check *)
Lemma lex_spec m1 e1 m2 e2 :
  match lex m1 e1 m2 e2 with
  | Lt => (e1 < e2)%Z \/ (e1 = e2 /\ (m1 < m2)%positive)
  | Eq => e1 = e2 /\ m1 = m2
  | Gt => (e2 < e1)%Z \/ (e1 = e2 /\ (m2 < m1)%positive)
  end.
Proof.
  unfold lex. destruct (Z.compare_spec e1 e2) as [->|H|H]; [|by left..].
  change (PosDef.Pos.compare_cont Eq m1 m2) with (Pos.compare m1 m2).
  destruct (Pos.compare_spec m1 m2) as [->|H|H]; [done|by right..].
Qed.

Lemma lex_opp_spec m1 e1 m2 e2 :
  match (e1 ?= e2)%Z with
  | Eq => CompOpp (PosDef.Pos.compare_cont Eq m1 m2)
  | Lt => Gt
  | Gt => Lt
  end = CompOpp (lex m1 e1 m2 e2).
Proof. unfold lex. by destruct (e1 ?= e2)%Z. Qed.

Lemma SFleb_trans (x y z : spec_float) :
  SFleb x y = true -> SFleb y z = true -> SFleb x z = true.
Proof.
  unfold SFleb, SFcompare.
  destruct x as [sx|sx| |sx mx ex], y as [sy|sy| |sy my ey], z as [sz|sz| |sz mz ez];
    try discriminate; try reflexivity;
    try (destruct sx; try discriminate; try reflexivity);
    try (destruct sy; try discriminate; try reflexivity);
    try (destruct sz; try discriminate; try reflexivity).
  all: rewrite ?lex_opp_spec;
       fold (lex mx ex my ey); fold (lex my ey mz ez); fold (lex mx ex mz ez).
  all: pose proof (lex_spec mx ex my ey) as H1; pose proof (lex_spec my ey mz ez) as H2;
       pose proof (lex_spec mx ex mz ez) as H3.
  all: destruct (lex mx ex my ey), (lex my ey mz ez), (lex mx ex mz ez);
       simpl; try discriminate; try reflexivity; intros _ _; exfalso; lia.
Qed.

Lemma SFleb_refl (x : spec_float) : a_number x -> SFleb x x = true.
Proof.
  unfold SFleb, SFcompare. destruct x as [s|s| |s m e]; try contradiction; intros _.
  - reflexivity.
  - by destruct s.
  - rewrite ?lex_opp_spec. fold (lex m e m e). pose proof (lex_spec m e m e) as H.
    destruct s; rewrite ?lex_opp_spec; fold (lex m e m e);
      destruct (lex m e m e); try reflexivity; exfalso; lia.
Qed.

Lemma SFleb_a_number (x y : spec_float) : SFleb x y = true -> a_number x /\ a_number y.
Proof.
  unfold SFleb, SFcompare. destruct x as [s|s| |s m e], y as [s'|s'| |s' m' e'];
    try discriminate; intros _; split; exact I.
Qed.

(** X13. [isPhysiologicallyValid] accepts some value exactly when
    [min <= max] as numbers, and then accepts both bounds: the range is
    closed. It accepts nothing when a bound is NaN or the bounds are
    inverted, and never accepts NaN. *)
Theorem physiological_range (min max : number) :
  ((exists value, isPhysiologicallyValid value min max = true) <-> (min <=? max)%float = true) /\
  ((min <=? max)%float = true ->
     isPhysiologicallyValid min min max = true /\ isPhysiologicallyValid max min max = true) /\
  (forall value, isPhysiologicallyValid value min max = true ->
     is_nan value = false /\ is_nan min = false /\ is_nan max = false).
Proof.
  unfold isPhysiologicallyValid.
  assert (Hbounds : (min <=? max)%float = true ->
            ((min <=? min) && (min <=? max))%float = true /\
            ((min <=? max) && (max <=? max))%float = true).
  { intros H. rewrite H. rewrite !FloatAxioms.leb_spec in *.
    destruct (SFleb_a_number _ _ H) as [Hmin Hmax].
    rewrite !SFleb_refl by assumption. split; reflexivity. }
  split; [split|split].
  - intros [v Hv]. apply andb_true_iff in Hv as [H1 H2].
    rewrite !FloatAxioms.leb_spec in *. by eapply SFleb_trans.
  - intros H. exists min. by apply Hbounds.
  - exact Hbounds.
  - intros v Hv. apply andb_true_iff in Hv as [H1 H2].
    rewrite !FloatAxioms.leb_spec in *. rewrite !is_nan_spec.
    destruct (SFleb_a_number _ _ H1), (SFleb_a_number _ _ H2). repeat split; assumption.
Qed.

(** *** Lists of one value *)

Lemma canonical_finite (s : bool) (m : positive) (e : Z) :
  SpecFloat.valid_binary FloatOps.prec FloatOps.emax (S754_finite s m e) = true ->
  fexp FloatOps.prec FloatOps.emax (Zpos (digits2_pos m) + e) = e /\
  (e <= FloatOps.emax - FloatOps.prec)%Z.
Proof.
  unfold SpecFloat.valid_binary, bounded, canonical_mantissa.
  rewrite andb_true_iff, Z.eqb_eq, Z.leb_le. tauto.
Qed.

Lemma SFdiv_one (s : bool) (m : positive) (e : Z) :
  SpecFloat.valid_binary FloatOps.prec FloatOps.emax (S754_finite s m e) = true ->
  SFdiv FloatOps.prec FloatOps.emax (S754_finite s m e) (S754_finite false 4503599627370496 (-52))
  = S754_finite s m e.
Proof.
  intros Hv. destruct (canonical_finite s m e Hv) as [Hc He].
  pose proof (digits2_pos_bounds m) as [Hlo Hhi].
  unfold SFdiv, SFdiv_core_binary. rewrite xorb_false_r.
  change (Zdigits2 (Z.pos m)) with (Zpos (digits2_pos m)).
  change (Zdigits2 4503599627370496) with 53%Z.
  unfold fexp, SpecFloat.emin, FloatOps.prec, FloatOps.emax in *.
  destruct (Z.eq_dec e (-1074)) as [->|Hne].
  - (* least exponent *)
    replace (IntDef.Z.min (IntDef.Z.max (Z.pos (digits2_pos m) + -1074 - (53 + -52) - 53) (3 - 1024 - 53))
                          (-1074 - -52))%Z with (-1074)%Z by (change IntDef.Z.min with Z.min; change IntDef.Z.max with Z.max; lia).
    change (-1074 - -52 - -1074)%Z with 52%Z. cbv iota.
    change (IntDef.Z.shiftl (Z.pos m) 52) with (Z.shiftl (Z.pos m) 52).
    rewrite Z.shiftl_mul_pow2 by lia.
    change IntDef.Z.div_eucl with Z.div_eucl.
    pose proof (Z_div_mod_full (Z.pos m * 2 ^ 52) 4503599627370496) as Hdm.
    unfold Z.div, Z.modulo in *.
    assert (Hq : Z.div_eucl (Z.pos m * 2 ^ 52) 4503599627370496 = (Z.pos m, 0%Z)).
    { pose proof (Z.div_mul (Z.pos m) 4503599627370496 ltac:(lia)) as Hd.
      pose proof (Z.mod_mul (Z.pos m) 4503599627370496 ltac:(lia)) as Hm.
      unfold Z.div, Z.modulo in Hd, Hm.
      change (2 ^ 52)%Z with 4503599627370496%Z.
      destruct (Z.div_eucl (Z.pos m * 4503599627370496) 4503599627370496) as [q r].
      simpl in Hd, Hm. by subst. }
    rewrite Hq. change (new_location 4503599627370496 0) with loc_Exact.
    apply binary_round_aux_canonical; unfold fexp, SpecFloat.emin, FloatOps.prec, FloatOps.emax; lia.
  - assert (He1 : (-1074 < e)%Z) by (change IntDef.Z.max with Z.max in Hc; lia).
    assert (Hd : Z.pos (digits2_pos m) = 53%Z) by (change IntDef.Z.max with Z.max in Hc; lia).
    rewrite Hd.
    replace (IntDef.Z.min (IntDef.Z.max (53 + e - (53 + -52) - 53) (3 - 1024 - 53)) (e - -52))%Z
      with (e - 1)%Z by (change IntDef.Z.min with Z.min; change IntDef.Z.max with Z.max; lia).
    replace (e - -52 - (e - 1))%Z with 53%Z by lia. cbv iota.
    change (IntDef.Z.shiftl (Z.pos m) 53) with (Z.shiftl (Z.pos m) 53).
    rewrite Z.shiftl_mul_pow2 by lia.
    change IntDef.Z.div_eucl with Z.div_eucl.
    assert (Hq : Z.div_eucl (Z.pos m * 2 ^ 53) 4503599627370496 = (Z.pos m~0, 0%Z)).
    { replace (Z.pos m * 2 ^ 53)%Z with (Z.pos m~0 * 4503599627370496)%Z by lia.
      pose proof (Z.div_mul (Z.pos m~0) 4503599627370496 ltac:(lia)) as Hdv.
      pose proof (Z.mod_mul (Z.pos m~0) 4503599627370496 ltac:(lia)) as Hm.
      unfold Z.div, Z.modulo in Hdv, Hm.
      destruct (Z.div_eucl (Z.pos m~0 * 4503599627370496) 4503599627370496) as [q r].
      simpl in Hdv, Hm. by subst. }
    rewrite Hq. change (new_location 4503599627370496 0) with loc_Exact.
    unfold binary_round_aux, shr_fexp.
    change (Zdigits2 (Z.pos m~0)) with (Z.pos (Pos.succ (digits2_pos m))).
    rewrite Pos2Z.inj_succ, Hd.
    unfold fexp, SpecFloat.emin, FloatOps.prec, FloatOps.emax.
    replace (IntDef.Z.max (Z.succ 53 + (e - 1) - 53) (3 - 1024 - 53) - (e - 1))%Z with 1%Z
      by (change IntDef.Z.max with Z.max; lia).
    cbn [shr shr_record_of_loc SpecFloat.iter_pos shr_1 shr_m loc_of_shr_record round_nearest_even orb].
    replace (e - 1 + 1)%Z with e by lia.
    change (Zdigits2 (Z.pos m)) with (Zpos (digits2_pos m)). rewrite Hd.
    replace (IntDef.Z.max (53 + e - 53) (3 - 1024 - 53) - e)%Z with 0%Z
      by (change IntDef.Z.max with Z.max; lia).
    cbn [shr shr_m]. apply Z.leb_le in He. rewrite He. reflexivity.
Qed.

Lemma div_one (x : number) : (x / 1 = x)%float.
Proof.
  apply Prim2SF_inj. rewrite FloatAxioms.div_spec.
  change (Prim2SF 1) with (S754_finite false 4503599627370496 (-52)).
  pose proof (Prim2SF_valid x) as Hv.
  destruct (Prim2SF x) as [s|s| |s m e] eqn:E.
  - simpl. by rewrite xorb_false_r.
  - simpl. by rewrite xorb_false_r.
  - reflexivity.
  - by apply SFdiv_one.
Qed.


Lemma add_zero_l (x : number) : x <> (-0)%float -> (0 + x = x)%float.
Proof.
  intros Hx. apply Prim2SF_inj. rewrite FloatAxioms.add_spec.
  change (Prim2SF 0) with (S754_zero false).
  destruct (Prim2SF x) as [[]|s| |s m e] eqn:E; try reflexivity.
  exfalso. apply Hx. apply Prim2SF_inj. rewrite E. reflexivity.
Qed.

Lemma average_single (x : number) : average [x] = (0 + x)%float.
Proof.
  unfold average, sum. cbn [length Nat.eqb fold_left].
  change (length_number 1) with 1%float. apply div_one.
Qed.

Lemma not_finite_cases (x : number) :
  is_finite x = false -> x = infinity \/ x = neg_infinity \/ x = nan.
Proof.
  intros Hx.
  destruct (Prim2SF x) as [s|s| |s m e] eqn:E.
  - exfalso. revert Hx. unfold is_finite, is_nan, is_infinity.
    rewrite !FloatAxioms.eqb_spec, abs_spec, E. by destruct s.
  - destruct s.
    + right; left. apply Prim2SF_inj. by rewrite E.
    + left. apply Prim2SF_inj. by rewrite E.
  - right; right. apply Prim2SF_inj. by rewrite E.
  - exfalso. revert Hx. unfold is_finite, is_nan, is_infinity.
    rewrite !FloatAxioms.eqb_spec, abs_spec, E. unfold SFeqb, SFcompare, SFabs.
    rewrite Z.compare_refl.
    assert (Hm : Pos.compare_cont Eq m m = Eq) by apply Pos.compare_refl.
    rewrite Hm. by destruct s.
Qed.

(** X14. For a list of one value [x], [average] returns [0 + x]: [x]
    itself, except that [-0] comes back as [+0], and NaN for NaN.
    [standardDeviation] returns 0 when [x] is finite and NaN when [x] is
    infinite or NaN. *)
Theorem single_value_statistics (x : number) :
  average [x] = (0 + x)%float /\
  (x <> (-0)%float -> average [x] = x) /\
  ((average [x] =? x)%float = negb (is_nan x)) /\
  standardDeviation [x] = (if is_finite x then 0 else nan)%float.
Proof.
  split; [apply average_single|].
  split; [intros Hx; rewrite average_single; by apply add_zero_l|].
  split.
  - rewrite average_single. unfold is_nan. rewrite negb_involutive.
    rewrite !FloatAxioms.eqb_spec, FloatAxioms.add_spec.
    change (Prim2SF 0) with (S754_zero false).
    by destruct (Prim2SF x) as [[]|s| |s m e].
  - destruct (is_finite x) eqn:Hf.
    + unfold standardDeviation. cbn [length Nat.eqb map]. cbv zeta.
      assert (Hsq : Math_pow_2 (x - average [x]) = 0%float).
      { destruct (Prim2SF x) as [[]|s| |s m e] eqn:E.
        - assert (Hx : x = (-0)%float) by (apply Prim2SF_inj; by rewrite E).
          subst x. reflexivity.
        - rewrite average_single, add_zero_l.
          + by rewrite (sub_diag x Hf).
          + intros ->. discriminate E.
        - rewrite average_single, add_zero_l.
          + by rewrite (sub_diag x Hf).
          + intros ->. discriminate E.
        - rewrite average_single, add_zero_l.
          + by rewrite (sub_diag x Hf).
          + intros ->. discriminate E.
        - rewrite average_single, add_zero_l.
          + by rewrite (sub_diag x Hf).
          + intros ->. discriminate E. }
      rewrite Hsq. reflexivity.
    + destruct (not_finite_cases x Hf) as [->|[->| ->]]; reflexivity.
Qed.

End HelpersEdgeFacts.

(** ** Integers and their quotients as binary64 numbers *)

Module FormatLemmas.
Import JS FloatFacts.

Lemma digits2_unique (p : positive) (d : Z) :
  2 ^ (d - 1) <= Zpos p < 2 ^ d -> Zpos (digits2_pos p) = d.
Proof.
  intros [Hlo Hhi]. pose proof (digits2_pos_bounds p) as [Hlo' Hhi'].
  assert (Hd : 0 < d).
  { destruct (Z.lt_ge_cases 0 d) as [H|H]; [exact H|exfalso].
    destruct (Z.eq_dec d 0) as [->|Hne].
    - simpl in Hhi. lia.
    - rewrite (Z.pow_neg_r 2 d) in Hhi by lia. lia. }
  destruct (Z.lt_trichotomy (Zpos (digits2_pos p)) d) as [H|[H|H]]; [exfalso|exact H|exfalso].
  - assert (2 ^ Zpos (digits2_pos p) <= 2 ^ (d - 1)) by (apply Z.pow_le_mono_r; lia). lia.
  - assert (2 ^ d <= 2 ^ (Zpos (digits2_pos p) - 1)) by (apply Z.pow_le_mono_r; lia). lia.
Qed.

(** Rounding a mantissa of at most 53 bits, in the normal range, only
    aligns it. *)
Lemma binary_round_exact (s : bool) (p : positive) (e : Z) :
  Zpos (digits2_pos p) <= 53 ->
  -1074 <= Zpos (digits2_pos p) + e - 53 <= 971 ->
  exists m, binary_round FloatOps.prec FloatOps.emax s p e
            = S754_finite s m (Zpos (digits2_pos p) + e - 53) /\
            Zpos m = Zpos p * 2 ^ (53 - Zpos (digits2_pos p)).
Proof.
  intros Hd Hr. unfold binary_round.
  assert (Hf : fexp FloatOps.prec FloatOps.emax (Zpos (digits2_pos p) + e)
               = Zpos (digits2_pos p) + e - 53).
  { unfold fexp, SpecFloat.emin, FloatOps.prec, FloatOps.emax.
    change IntDef.Z.max with Z.max. lia. }
  rewrite Hf.
  pose proof (shl_align_value p e (Zpos (digits2_pos p) + e - 53) ltac:(lia)) as Hv.
  destruct (shl_align p e (Zpos (digits2_pos p) + e - 53)) as [mz ez] eqn:Hal.
  simpl in Hv.
  assert (Hez : ez = Zpos (digits2_pos p) + e - 53 /\
                Zpos (digits2_pos mz) = 53).
  { revert Hal. unfold shl_align.
    destruct (Zpos (digits2_pos p) + e - 53 - e) as [|k|k] eqn:Hk; intros [= <- <-].
    - split; lia.
    - lia.
    - rewrite digits2_pos_iter_xO. split; lia. }
  destruct Hez as [-> Hdz].
  exists mz. split.
  - apply binary_round_aux_canonical.
    + rewrite Hdz. unfold fexp, SpecFloat.emin, FloatOps.prec, FloatOps.emax.
      change IntDef.Z.max with Z.max. lia.
    + unfold FloatOps.prec, FloatOps.emax. lia.
  - rewrite Hv. f_equal. f_equal. lia.
Qed.

(** The decoded form of a positive integer below 2^53. *)
Lemma of_int_decoded (n : Z) :
  0 < n < 2 ^ 53 ->
  exists m e, Prim2SF (of_int n) = S754_finite false m e /\
              -52 <= e <= 0 /\ Zpos m = n * 2 ^ (- e) /\ 2 ^ 52 <= Zpos m < 2 ^ 53.
Proof.
  intros Hn. unfold of_int. rewrite FloatAxioms.of_uint63_spec.
  assert (HwB : wB = 2 ^ 63) by reflexivity.
  rewrite Uint63.of_Z_spec, Z.mod_small by lia.
  destruct n as [|p|p]; try lia. unfold binary_normalize.
  pose proof (digits2_pos_bounds p) as [Hlo Hhi].
  assert (Hd : 1 <= Zpos (digits2_pos p) <= 53).
  { split; [lia|].
    destruct (Z.le_gt_cases (Zpos (digits2_pos p)) 53) as [H|H]; [exact H|exfalso].
    assert (2 ^ 53 <= 2 ^ (Zpos (digits2_pos p) - 1)) by (apply Z.pow_le_mono_r; lia). lia. }
  destruct (binary_round_exact false p 0 ltac:(lia) ltac:(lia)) as (m & Hm & Hv).
  exists m, (Zpos (digits2_pos p) + 0 - 53). split; [exact Hm|].
  split; [lia|]. split.
  - rewrite Hv. f_equal. f_equal. lia.
  - rewrite Hv. replace (Zpos (digits2_pos p)) with (Zpos (digits2_pos p) - 1 + 1) in Hhi by lia.
    rewrite Z.pow_add_r in Hhi by lia.
    replace (2 ^ 52) with (2 ^ (Zpos (digits2_pos p) - 1) * 2 ^ (53 - Zpos (digits2_pos p)))
      by (rewrite <- Z.pow_add_r by lia; f_equal; lia).
    replace (2 ^ 53) with (2 ^ (Zpos (digits2_pos p) - 1) * 2 ^ 1 * 2 ^ (53 - Zpos (digits2_pos p))).
    2:{ rewrite <- !Z.pow_add_r by lia. f_equal. lia. }
    assert (0 < 2 ^ (53 - Zpos (digits2_pos p))) by (apply Z.pow_pos_nonneg; lia).
    nia.
Qed.


Lemma fexp_normal (d e : Z) :
  -1074 <= d + e - 53 ->
  fexp FloatOps.prec FloatOps.emax (d + e) = d + e - 53.
Proof.
  intros H. unfold fexp, SpecFloat.emin, FloatOps.prec, FloatOps.emax.
  change IntDef.Z.max with Z.max. lia.
Qed.

(** The second alignment of [binary_round_aux]: it acts only when rounding
    has carried into a 54th bit. *)
Lemma realign (M1 : positive) (e1 : Z) :
  2 ^ 52 <= Zpos M1 <= 2 ^ 53 -> -1074 <= e1 ->
  exists M c,
    shr_m (fst (shr_fexp FloatOps.prec FloatOps.emax (Zpos M1) e1 loc_Exact)) = Zpos M /\
    snd (shr_fexp FloatOps.prec FloatOps.emax (Zpos M1) e1 loc_Exact) = e1 + c /\
    0 <= c <= 1 /\ Zpos M * 2 ^ c = Zpos M1.
Proof.
  intros HM He. unfold shr_fexp. change (Zdigits2 (Zpos M1)) with (Zpos (digits2_pos M1)).
  destruct (Z.eq_dec (Zpos M1) (2 ^ 53)) as [Heq|Hne].
  - assert (M1 = 9007199254740992%positive) as -> by lia.
    change (Zpos (digits2_pos 9007199254740992)) with 54.
    rewrite fexp_normal by lia. replace (54 + e1 - 53 - e1) with 1 by lia.
    exists 4503599627370496%positive, 1. simpl. repeat split; lia.
  - rewrite (digits2_unique M1 53) by lia.
    rewrite fexp_normal by lia. replace (53 + e1 - 53 - e1) with 0 by lia.
    exists M1, 0. simpl. repeat split; lia.
Qed.

Lemma loc_of_record (m : Z) (l : location) :
  loc_of_shr_record (shr_record_of_loc m l) = l /\ shr_m (shr_record_of_loc m l) = m.
Proof. by destruct l as [|[]]. Qed.

Lemma round_nearest_even_step (p : positive) (l : location) :
  exists M1 : positive,
    round_nearest_even (Zpos p) l = Zpos M1 /\ Zpos p <= Zpos M1 <= Zpos p + 1.
Proof.
  unfold round_nearest_even. destruct l as [|[]].
  - exists p. lia.
  - destruct (IntDef.Z.even (Zpos p)); [exists p|exists (p + 1)%positive]; lia.
  - exists p. lia.
  - exists (p + 1)%positive. lia.
Qed.

(** Rounding a quotient of 53 or 54 bits: the result is the quotient cut to
    53 bits, or the next number up. *)
Lemma binary_round_aux_bounds (q : positive) (e : Z) (l : location) :
  2 ^ 52 <= Zpos q < 2 ^ 54 -> -1074 <= e <= 960 ->
  exists M c,
    binary_round_aux FloatOps.prec FloatOps.emax false (Zpos q) e l
      = S754_finite false M (e + c) /\
    0 <= c <= 2 /\ Zpos q - 2 ^ c < Zpos M * 2 ^ c <= Zpos q + 2 ^ c.
Proof.
  intros Hq He. unfold binary_round_aux.
  destruct (Z.lt_ge_cases (Zpos q) (2 ^ 53)) as [H53|H54].
  - (* 53 bits *)
    unfold shr_fexp at 1. change (Zdigits2 (Zpos q)) with (Zpos (digits2_pos q)).
    rewrite (digits2_unique q 53) by lia.
    rewrite fexp_normal by lia. replace (53 + e - 53 - e) with 0 by lia.
    cbn [shr]. destruct (loc_of_record (Zpos q) l) as [-> ->].
    destruct (round_nearest_even_step q l) as (M1 & -> & HM1).
    destruct (realign M1 e ltac:(lia) ltac:(lia)) as (M & c & Hm & Hc & Hcr & Hval).
    destruct (shr_fexp FloatOps.prec FloatOps.emax (Zpos M1) e loc_Exact) as [mrs e2].
    simpl in Hm, Hc. rewrite Hm, Hc.
    assert (Hle : (e + c <=? FloatOps.emax - FloatOps.prec) = true)
      by (apply Z.leb_le; unfold FloatOps.prec, FloatOps.emax; lia).
    rewrite Hle. exists M, c. split; [reflexivity|]. split; [lia|].
    assert (c = 0 \/ c = 1) as [-> | ->] by lia; simpl in Hval |- *; lia.
  - (* 54 bits *)
    unfold shr_fexp at 1. change (Zdigits2 (Zpos q)) with (Zpos (digits2_pos q)).
    rewrite (digits2_unique q 54) by lia.
    rewrite fexp_normal by lia. replace (54 + e - 53 - e) with 1 by lia.
    cbn [shr SpecFloat.iter_pos].
    assert (Hhalf : exists (p : positive) (l' : location),
              shr_m (shr_1 (shr_record_of_loc (Zpos q) l)) = Zpos p /\
              loc_of_shr_record (shr_1 (shr_record_of_loc (Zpos q) l)) = l' /\
              2 * Zpos p <= Zpos q <= 2 * Zpos p + 1).
    { destruct q as [p|p|]; [| |lia]; destruct l as [|[]]; simpl;
        eexists p, _; repeat split; lia. }
    destruct Hhalf as (p & l' & Hp & Hl' & Hpq). rewrite Hp, Hl'.
    destruct (round_nearest_even_step p l') as (M1 & -> & HM1).
    destruct (realign M1 (e + 1) ltac:(lia) ltac:(lia)) as (M & c & Hm & Hc & Hcr & Hval).
    destruct (shr_fexp FloatOps.prec FloatOps.emax (Zpos M1) (e + 1) loc_Exact) as [mrs e2].
    simpl in Hm, Hc. rewrite Hm, Hc.
    assert (Hle : (e + 1 + c <=? FloatOps.emax - FloatOps.prec) = true)
      by (apply Z.leb_le; unfold FloatOps.prec, FloatOps.emax; lia).
    rewrite Hle. exists M, (1 + c). replace (e + (1 + c)) with (e + 1 + c) by lia.
    split; [reflexivity|]. split; [lia|].
    assert (c = 0 \/ c = 1) as [-> | ->] by lia; simpl in Hval |- *; lia.
Qed.


(** Two facts of integer arithmetic. *)
Lemma quotient_bits (T m1 m2 q r : Z) :
  0 < T -> T <= m1 < 2 * T -> T <= m2 < 2 * T ->
  m1 * (2 * T) = m2 * q + r -> 0 <= r < m2 ->
  T <= q < 4 * T.
Proof.
  intros HT H1 H2 Hdiv Hr. split.
  - destruct (Z.le_gt_cases T q) as [H|H]; [exact H|exfalso].
    assert (m2 * (q + 1) <= m2 * T) by (apply Z.mul_le_mono_nonneg_l; lia).
    assert (m2 * T < 2 * T * T) by (apply Z.mul_lt_mono_pos_r; lia).
    assert (T * (2 * T) <= m1 * (2 * T)) by (apply Z.mul_le_mono_nonneg_r; lia).
    lia.
  - destruct (Z.lt_ge_cases q (4 * T)) as [H|H]; [exact H|exfalso].
    assert (m2 * (4 * T) <= m2 * q) by (apply Z.mul_le_mono_nonneg_l; lia).
    assert (T * (4 * T) <= m2 * (4 * T)) by (apply Z.mul_le_mono_nonneg_r; lia).
    assert (m1 * (2 * T) < 2 * T * (2 * T)) by (apply Z.mul_lt_mono_pos_r; lia).
    lia.
Qed.

Lemma floor_of_rounded (n d k r0 q r B G H C M : Z) :
  0 < d -> n = d * k + r0 -> 0 <= r0 < d ->
  0 < B -> 0 < H -> 1 <= C <= 4 -> H * C = G ->
  n * G * B = d * B * q + r -> 0 <= r < d * B ->
  4 * d < G ->
  q - C < M * C <= q + C ->
  k * H <= M < (k + 1) * H.
Proof.
  intros Hd Hn Hr0 HB HH HC HG Hdiv Hr H4 HM.
  assert (H1 : d * q <= n * G).
  { apply (Z.mul_le_mono_pos_r _ _ B); [lia|].
    replace (d * q * B) with (d * B * q) by ring. lia. }
  assert (H2 : n * G < d * (q + 1)).
  { apply (Z.mul_lt_mono_pos_r B); [lia|].
    replace (d * (q + 1) * B) with (d * B * q + d * B) by ring. lia. }
  assert (H3 : k * G <= q).
  { assert (d * (k * G) < d * (q + 1)).
    { replace (d * (k * G)) with ((d * k) * G) by ring.
      assert ((d * k) * G <= n * G) by (apply Z.mul_le_mono_nonneg_r; lia). lia. }
    assert (k * G < q + 1) by (apply (Z.mul_lt_mono_pos_l d); lia). lia. }
  assert (H5 : q + C < (k + 1) * G).
  { apply (Z.mul_lt_mono_pos_l d); [lia|].
    assert (n * G <= (d * k + d - 1) * G) by (apply Z.mul_le_mono_nonneg_r; lia).
    replace (d * ((k + 1) * G)) with ((d * k + d - 1) * G + G) by ring.
    assert (d * C <= d * 4) by (apply Z.mul_le_mono_nonneg_l; lia).
    replace (d * (q + C)) with (d * q + d * C) by ring. lia. }
  rewrite <- HG in H3, H5. split.
  - assert ((k * H - 1) * C < M * C).
    { replace ((k * H - 1) * C) with (k * (H * C) - C) by ring. lia. }
    assert (k * H - 1 < M) by (apply (Z.mul_lt_mono_pos_r C); lia). lia.
  - apply (Z.mul_lt_mono_pos_r C); [lia|].
    replace ((k + 1) * H * C) with ((k + 1) * (H * C)) by ring. lia.
Qed.

(** The quotient of two positive integers, as the division rounds it: it
    lies in the same unit interval as the exact quotient. *)
Lemma div_decoded (n d : Z) :
  0 < n < 2 ^ 51 -> 0 < d < 2 ^ 53 ->
  exists M E, Prim2SF (of_int n / of_int d) = S754_finite false M E /\
              E < 0 /\ Zpos M / 2 ^ (- E) = n / d.
Proof.
  intros Hn Hd.
  destruct (of_int_decoded n ltac:(lia)) as (m1 & e1 & Hx & He1 & Hm1 & Hb1).
  destruct (of_int_decoded d Hd) as (m2 & e2 & Hy & He2 & Hm2 & Hb2).
  rewrite FloatAxioms.div_spec, Hx, Hy. unfold SF64div, SFdiv, SFdiv_core_binary. cbv zeta.
  change (Zdigits2 (Zpos m1)) with (Zpos (digits2_pos m1)).
  change (Zdigits2 (Zpos m2)) with (Zpos (digits2_pos m2)).
  rewrite (digits2_unique m1 53), (digits2_unique m2 53) by lia.
  replace (53 + e1 - (53 + e2)) with (0 + (e1 - e2)) by lia.
  rewrite fexp_normal by lia. change IntDef.Z.min with Z.min.
  replace (Z.min (0 + (e1 - e2) - 53) (e1 - e2)) with (e1 - e2 - 53) by lia.
  replace (e1 - e2 - (e1 - e2 - 53)) with 53 by lia. cbv iota.
  change (IntDef.Z.shiftl (Zpos m1) 53) with (Z.shiftl (Zpos m1) 53).
  rewrite Z.shiftl_mul_pow2 by lia.
  change IntDef.Z.div_eucl with Z.div_eucl.
  pose proof (Z_div_mod (Zpos m1 * 2 ^ 53) (Zpos m2) ltac:(lia)) as Hdm.
  destruct (Z.div_eucl (Zpos m1 * 2 ^ 53) (Zpos m2)) as [q r] eqn:Hqr.
  destruct Hdm as [Hdiv Hrem].
  (* the quotient has 53 or 54 bits *)
  assert (Hq : 2 ^ 52 <= q < 2 ^ 54).
  { change (2 ^ 54) with (4 * 2 ^ 52).
    apply (quotient_bits (2 ^ 52) (Zpos m1) (Zpos m2) q r); lia. }
  destruct q as [|q|q]; try lia.
  change (xorb false false) with false.
  destruct (binary_round_aux_bounds q (e1 - e2 - 53) (new_location (Zpos m2) r)
              Hq ltac:(lia)) as (M & c & HR & Hc & Hbounds).
  rewrite HR. exists M, (e1 - e2 - 53 + c).
  split; [reflexivity|].
  (* the scales *)
  assert (HA : 0 < 2 ^ (- e1)) by (apply Z.pow_pos_nonneg; lia).
  assert (HB : 0 < 2 ^ (- e2)) by (apply Z.pow_pos_nonneg; lia).
  assert (He1' : e1 <= -2).
  { destruct (Z.le_gt_cases (- e1) 1) as [Hle|Hgt]; [exfalso|lia].
    assert (2 ^ (- e1) <= 2 ^ 1) by (apply Z.pow_le_mono_r; lia).
    assert (n * 2 ^ (- e1) <= n * 2 ^ 1) by (apply Z.mul_le_mono_nonneg_l; lia).
    change (2 ^ 1) with 2 in *. lia. }
  assert (HG : 2 ^ (53 - e1 + e2) * 2 ^ (- e2) = 2 ^ 53 * 2 ^ (- e1)).
  { rewrite <- !Z.pow_add_r by lia. f_equal. lia. }
  assert (HH : 2 ^ (- (e1 - e2 - 53 + c)) * 2 ^ c = 2 ^ (53 - e1 + e2)).
  { rewrite <- Z.pow_add_r by lia. f_equal. lia. }
  assert (HH0 : 0 < 2 ^ (- (e1 - e2 - 53 + c))) by (apply Z.pow_pos_nonneg; lia).
  assert (Hc4 : 1 <= 2 ^ c <= 4).
  { assert (c = 0 \/ c = 1 \/ c = 2) as [-> |[-> | ->]] by lia; simpl; lia. }
  assert (H4d : 4 * d < 2 ^ (53 - e1 + e2)).
  { assert (Hdlt : d * 2 ^ (- e2) < 2 ^ (53 + e2) * 2 ^ (- e2)).
    { rewrite <- Z.pow_add_r by lia. replace (53 + e2 + - e2) with 53 by lia. lia. }
    assert (d < 2 ^ (53 + e2)) by (apply (Z.mul_lt_mono_pos_r (2 ^ (- e2))); lia).
    assert (2 ^ 2 * 2 ^ (53 + e2) <= 2 ^ (53 - e1 + e2)).
    { rewrite <- Z.pow_add_r by lia. apply Z.pow_le_mono_r; lia. }
    change (2 ^ 2) with 4 in *. lia. }
  (* the exact quotient *)
  pose proof (Z_div_mod n d ltac:(lia)) as Hnd.
  unfold Z.div at 2. destruct (Z.div_eucl n d) as [k r0]. destruct Hnd as [Hnk Hr0].
  split; [lia|].
  assert (Hfloor : k * 2 ^ (- (e1 - e2 - 53 + c)) <= Zpos M
                   < (k + 1) * 2 ^ (- (e1 - e2 - 53 + c))).
  { apply (floor_of_rounded n d k r0 (Zpos q) r (2 ^ (- e2)) (2 ^ (53 - e1 + e2))
             (2 ^ (- (e1 - e2 - 53 + c))) (2 ^ c) (Zpos M)); lia. }
  symmetry. apply (Z.div_unique_pos _ _ _ (Zpos M - k * 2 ^ (- (e1 - e2 - 53 + c)))); lia.
Qed.

End FormatLemmas.

Module FormatFacts.
Import JS FloatFacts FormatLemmas Format.


Lemma of_int_zero : of_int 0 = 0%float.
Proof. reflexivity. Qed.

Lemma of_int_positive (k : Z) :
  0 <= k < 2 ^ 53 -> (0 <? of_int k)%float = (0 <? k).
Proof.
  intros Hk. destruct (Z.eq_dec k 0) as [->|Hne]; [reflexivity|].
  destruct (of_int_decoded k ltac:(lia)) as (m & e & Hx & _).
  rewrite FloatAxioms.ltb_spec, Hx.
  symmetry. change (SFltb (Prim2SF 0) (S754_finite false m e)) with true.
  apply Z.ltb_lt. lia.
Qed.

(** Equal values round alike. *)
Lemma binary_round_scaled (p v : positive) (g : Z) :
  0 <= g -> Zpos p = Zpos v * 2 ^ g -> Zpos p < 2 ^ 53 -> g <= 1000 ->
  binary_round FloatOps.prec FloatOps.emax false p (- g)
  = binary_round FloatOps.prec FloatOps.emax false v 0.
Proof.
  intros Hg Hp Hlt Hg'.
  pose proof (digits2_pos_bounds v) as [Hlo Hhi].
  assert (H2g : 0 < 2 ^ g) by (apply Z.pow_pos_nonneg; lia).
  assert (Hdp : Zpos (digits2_pos p) = Zpos (digits2_pos v) + g).
  { apply digits2_unique. rewrite Hp.
    replace (Zpos (digits2_pos v) + g - 1) with (Zpos (digits2_pos v) - 1 + g) by lia.
    rewrite !Z.pow_add_r by lia. split.
    - apply Z.mul_le_mono_nonneg_r; lia.
    - apply Z.mul_lt_mono_pos_r; lia. }
  assert (Hd53 : Zpos (digits2_pos p) <= 53).
  { destruct (Z.le_gt_cases (Zpos (digits2_pos p)) 53) as [H|H]; [exact H|exfalso].
    pose proof (digits2_pos_bounds p) as [Hlo' _].
    assert (2 ^ 53 <= 2 ^ (Zpos (digits2_pos p) - 1)) by (apply Z.pow_le_mono_r; lia). lia. }
  destruct (binary_round_exact false p (- g) Hd53 ltac:(lia)) as (mA & -> & HA).
  destruct (binary_round_exact false v 0 ltac:(lia) ltac:(lia)) as (mB & -> & HB).
  f_equal; [|lia].
  assert (Zpos mA = Zpos mB); [|congruence].
  rewrite HA, HB, Hp, Hdp.
  replace (53 - Zpos (digits2_pos v)) with (g + (53 - (Zpos (digits2_pos v) + g))) by lia.
  rewrite Z.pow_add_r by lia. ring.
Qed.

Lemma remainder_int (n d : Z) :
  0 <= n < 2 ^ 53 -> 0 < d < 2 ^ 53 ->
  remainder (of_int n) (of_int d) = of_int (n mod d).
Proof.
  intros Hn Hd. unfold remainder.
  destruct (of_int_decoded d Hd) as (m2 & e2 & Hy & He2 & Hm2 & Hb2). rewrite Hy.
  destruct (Z.eq_dec n 0) as [->|Hne].
  { rewrite Z.mod_0_l by lia. reflexivity. }
  destruct (of_int_decoded n ltac:(lia)) as (m1 & e1 & Hx & He1 & Hm1 & Hb1). rewrite Hx.
  cbv zeta. cbn [cond_Zopp].
  set (e := Z.min e1 e2).
  assert (HG : 0 < 2 ^ (- e)) by (apply Z.pow_pos_nonneg; lia).
  assert (HX : Zpos m1 * 2 ^ (e1 - e) = n * 2 ^ (- e)).
  { rewrite Hm1, <- Z.mul_assoc, <- Z.pow_add_r by lia. do 2 f_equal. lia. }
  assert (HY : Zpos m2 * 2 ^ (e2 - e) = d * 2 ^ (- e)).
  { rewrite Hm2, <- Z.mul_assoc, <- Z.pow_add_r by lia. do 2 f_equal. lia. }
  rewrite HX, HY.
  rewrite Z.rem_mod_nonneg by (try apply Z.mul_nonneg_nonneg; try apply Z.mul_pos_pos; lia).
  rewrite Z.mul_mod_distr_r by lia.
  pose proof (Z.mod_pos_bound n d ltac:(lia)) as Hv.
  pose proof (Z.mod_le n d ltac:(lia) ltac:(lia)) as Hvn.
  destruct (n mod d) as [|v|v] eqn:Ev; [reflexivity| |lia].
  assert (Hlt : Zpos v * 2 ^ (- e) < 2 ^ 53).
  { destruct (Z.min_spec e1 e2) as [[_ Hmin]|[_ Hmin]]; fold e in Hmin.
    - assert (Zpos v * 2 ^ (- e) <= n * 2 ^ (- e)) by (apply Z.mul_le_mono_nonneg_r; lia).
      rewrite Hmin in *. lia.
    - assert (Zpos v * 2 ^ (- e) < d * 2 ^ (- e)) by (apply Z.mul_lt_mono_pos_r; lia).
      rewrite Hmin in *. lia. }
  destruct (Zpos v * 2 ^ (- e)) as [|p|p] eqn:Ep; [lia| |lia].
  unfold binary_normalize.
  replace e with (- (- e)) by lia.
  rewrite (binary_round_scaled p v (- e)) by lia.
  unfold of_int. apply Prim2SF_inj. rewrite Prim2SF_SF2Prim.
  - rewrite FloatAxioms.of_uint63_spec.
    assert (HwB : wB = 2 ^ 63) by reflexivity.
    rewrite Uint63.of_Z_spec, Z.mod_small by lia. reflexivity.
  - pose proof (digits2_pos_bounds v) as [Hlo Hhi].
    assert (Hdv : Zpos (digits2_pos v) <= 53).
    { destruct (Z.le_gt_cases (Zpos (digits2_pos v)) 53) as [H|H]; [exact H|exfalso].
      assert (2 ^ 53 <= 2 ^ (Zpos (digits2_pos v) - 1)) by (apply Z.pow_le_mono_r; lia). lia. }
    destruct (binary_round_exact false v 0 Hdv ltac:(lia)) as (m & -> & Hm).
    unfold valid_binary, bounded, canonical_mantissa.
    apply andb_true_iff. split.
    + apply Z.eqb_eq.
      assert (Hdm : Zpos (digits2_pos m) = 53).
      { apply digits2_unique. rewrite Hm.
        replace (Zpos (digits2_pos v)) with (Zpos (digits2_pos v) - 1 + 1) in Hhi by lia.
        rewrite Z.pow_add_r in Hhi by lia.
        assert (0 < 2 ^ (53 - Zpos (digits2_pos v))) by (apply Z.pow_pos_nonneg; lia).
        replace (2 ^ (53 - 1)) with (2 ^ (Zpos (digits2_pos v) - 1) * 2 ^ (53 - Zpos (digits2_pos v)))
          by (rewrite <- Z.pow_add_r by lia; f_equal; lia).
        replace (2 ^ 53) with (2 ^ (Zpos (digits2_pos v) - 1) * 2 ^ 1 * 2 ^ (53 - Zpos (digits2_pos v))).
        2:{ rewrite <- !Z.pow_add_r by lia. f_equal. lia. }
        split.
        - apply Z.mul_le_mono_nonneg_r; lia.
        - apply Z.mul_lt_mono_pos_r; lia. }
      rewrite Hdm. rewrite fexp_normal by lia. lia.
    + apply Z.leb_le. unfold FloatOps.prec, FloatOps.emax. lia.
Qed.

Lemma Math_floor_div (n d : Z) :
  0 <= n < 2 ^ 51 -> 0 < d < 2 ^ 53 ->
  Math_floor (of_int n / of_int d) = of_int (n / d).
Proof.
  intros Hn Hd. destruct (Z.eq_dec n 0) as [->|Hne].
  - rewrite Z.div_0_l by lia. unfold Math_floor.
    destruct (of_int_decoded d Hd) as (m2 & e2 & Hy & _).
    assert (Hz : (of_int 0 / of_int d)%float = 0%float).
    { apply Prim2SF_inj. rewrite FloatAxioms.div_spec, Hy. reflexivity. }
    rewrite Hz. reflexivity.
  - destruct (div_decoded n d ltac:(lia) Hd) as (M & E & HR & HE & Hq).
    unfold Math_floor. rewrite HR.
    rewrite (proj2 (Z.leb_gt 0 E)) by lia.
    rewrite <- Z.shiftr_opp_r, Z.shiftr_div_pow2 by lia. by rewrite Hq.
Qed.

Lemma toString_int (k : Z) :
  0 <= k < 2 ^ 53 -> Number_toString (of_int k) = Some (digits k).
Proof.
  intros Hk. unfold Number_toString.
  destruct (Z.eq_dec k 0) as [->|Hne]; [reflexivity|].
  destruct (of_int_decoded k ltac:(lia)) as (m & e & -> & He & Hm & Hb).
  unfold integerValue.
  assert (H2 : 0 < 2 ^ (- e)) by (apply Z.pow_pos_nonneg; lia).
  destruct (Z.eq_dec e 0) as [->|He0].
  - simpl in Hm. change (0 <=? 0) with true. cbn [cond_Zopp mbind option_bind].
    replace (Zpos m * 2 ^ 0) with k by (simpl; lia).
    assert (Hs : (Z.abs k <? 2 ^ 53) = true) by (apply Z.ltb_lt; lia).
    simpl. rewrite Hs. reflexivity.
  - rewrite (proj2 (Z.leb_gt 0 e)) by lia.
    rewrite Hm, Z.mod_mul, Z.div_mul by lia. simpl.
    assert (Hs : (Z.abs k <? 2 ^ 53) = true) by (apply Z.ltb_lt; lia).
    rewrite Hs. reflexivity.
Qed.

Lemma padStart2_digits (k : Z) : 0 <= k < 100 -> padStart2 (digits k) = twoDigits k.
Proof.
  intros Hk.
  assert (Hall : forallb (fun i : nat => String.eqb (padStart2 (digits (Z.of_nat i)))
                                           (twoDigits (Z.of_nat i))) (seq 0 100) = true)
    by (vm_compute; reflexivity).
  rewrite forallb_forall in Hall.
  specialize (Hall (Z.to_nat k)). rewrite Z2Nat.id in Hall by lia.
  apply String.eqb_eq, Hall, in_seq. lia.
Qed.


Lemma float_3600 : 3600%float = of_int 3600.
Proof. reflexivity. Qed.

Lemma float_60 : 60%float = of_int 60.
Proof. reflexivity. Qed.

(** X15. For a whole number of seconds [n] below 2^51, [formatDuration]
    returns "S sec" below one minute, "M min S sec" below one hour and
    "H:MM:SS" from one hour on, the minutes and seconds of the last form
    padded to two digits. The numbers shown are the quotients and
    remainders of the exact integer division, whatever the rounding of the
    two divisions: they add up to [n], with minutes and seconds below 60. *)
Theorem formatDuration_whole_seconds (n : Z) :
  0 <= n < 2 ^ 51 ->
  formatDuration (of_int n) =
    Some (if 3600 <=? n
          then (digits (n / 3600) ++ ":" ++ twoDigits (n mod 3600 / 60) ++ ":"
                ++ twoDigits (n mod 60))%string
          else if 60 <=? n
               then (digits (n / 60) ++ " min " ++ digits (n mod 60) ++ " sec")%string
               else (digits n ++ " sec")%string) /\
  n = 3600 * (n / 3600) + 60 * (n mod 3600 / 60) + n mod 60 /\
  0 <= n mod 3600 / 60 < 60 /\ 0 <= n mod 60 < 60.
Proof.
  intros Hn.
  pose proof (Z.mod_pos_bound n 3600 ltac:(lia)) as Hm3600.
  pose proof (Z.mod_pos_bound n 60 ltac:(lia)) as Hm60.
  pose proof (Z.div_pos n 3600 ltac:(lia) ltac:(lia)) as Hh0.
  pose proof (Z.div_le_upper_bound n 3600 n ltac:(lia) ltac:(lia)) as Hhn.
  assert (Hmin : 0 <= n mod 3600 / 60 < 60).
  { split; [apply Z.div_pos; lia|apply Z.div_lt_upper_bound; lia]. }
  split; [|split; [|split; [exact Hmin|exact Hm60]]].
  - unfold formatDuration. cbv zeta. rewrite float_3600, float_60.
    rewrite (remainder_int n 3600), (remainder_int n 60) by lia.
    rewrite (Math_floor_div n 3600), (Math_floor_div (n mod 3600) 60) by lia.
    rewrite !of_int_positive by lia.
    rewrite !toString_int by lia.
    cbn [mbind option_bind].
    destruct (Z.leb_spec 3600 n) as [H1|H1].
    + assert (0 < n / 3600) by (apply Z.div_str_pos; lia).
      rewrite (proj2 (Z.ltb_lt 0 (n / 3600))) by lia.
      rewrite !padStart2_digits by lia. reflexivity.
    + rewrite (Z.div_small n 3600) by lia. change (0 <? 0) with false. cbv iota.
      rewrite (Z.mod_small n 3600) by lia.
      destruct (Z.leb_spec 60 n) as [H2|H2].
      * assert (0 < n / 60) by (apply Z.div_str_pos; lia).
        rewrite (proj2 (Z.ltb_lt 0 (n / 60))) by lia. reflexivity.
      * rewrite (Z.div_small n 60) by lia. change (0 <? 0) with false. cbv iota.
        rewrite (Z.mod_small n 60) by lia. reflexivity.
  - pose proof (Z.div_mod n 3600 ltac:(lia)) as E1.
    pose proof (Z.div_mod (n mod 3600) 60 ltac:(lia)) as E2.
    rewrite Z.mod_mod_divide in E2 by (exists 60; reflexivity). lia.
Qed.

Lemma formatDuration_whole_seconds_witness :
  formatDuration (of_int 3725) = Some "1:02:05"%string /\
  formatDuration (of_int 300) = Some "5 min 0 sec"%string.
Proof.
  split.
  - exact (proj1 (formatDuration_whole_seconds 3725 ltac:(lia))).
  - exact (proj1 (formatDuration_whole_seconds 300 ltac:(lia))).
Defined.

(** *** Negative durations *)

Lemma of_int_sign (z : Z) :
  match Prim2SF (of_int z) with
  | S754_zero s | S754_infinity s | S754_finite s _ _ => s = false
  | S754_nan => True
  end.
Proof.
  unfold of_int. rewrite FloatAxioms.of_uint63_spec.
  pose proof (Uint63.to_Z_bounded (Uint63.of_Z z)) as [Hlo _].
  destruct (Uint63.to_Z (Uint63.of_Z z)) as [|p|p]; [reflexivity| |lia].
  unfold binary_normalize, binary_round, binary_round_aux.
  destruct (shl_align _ _ _) as [mz ez].
  destruct (shr_fexp _ _ _ _ _) as [mrs' e'].
  destruct (shr_fexp _ _ _ _ _) as [mrs'' e''].
  destruct (shr_m mrs''); [reflexivity| |exact I].
  destruct (Z.leb _ _); reflexivity.
Qed.

Lemma Math_floor_minus (x : number) :
  sign_bit_set (Prim2SF x) -> (0 <? Math_floor x)%float = false.
Proof.
  intros Hs. unfold Math_floor.
  destruct (Prim2SF x) as [s|s| |s m e] eqn:E; try contradiction; simpl in Hs; subst s.
  - rewrite FloatAxioms.ltb_spec, E. reflexivity.
  - rewrite FloatAxioms.ltb_spec, E. reflexivity.
  - destruct (0 <=? e)%Z.
    + rewrite FloatAxioms.ltb_spec, E. reflexivity.
    + rewrite FloatAxioms.ltb_spec, FloatAxioms.opp_spec.
      pose proof (of_int_sign (- Z.shiftl (Zneg m) e)) as Hsign.
      destruct (Prim2SF (of_int _)) as [s|s| |s m' e']; try subst s; reflexivity.
Qed.

Lemma div_minus (x : number) (d : Z) :
  0 < d < 2 ^ 53 -> sign_bit_set (Prim2SF x) -> sign_bit_set (Prim2SF (x / of_int d)).
Proof.
  intros Hd Hs. destruct (of_int_decoded d Hd) as (m2 & e2 & Hy & _).
  rewrite FloatAxioms.div_spec, Hy.
  destruct (Prim2SF x) as [s|s| |s m e]; try contradiction; simpl in Hs; subst s;
    try reflexivity.
  pose proof (SFdiv_core_nonneg m m2 e e2) as Hq.
  unfold SF64div, SFdiv.
  destruct (SFdiv_core_binary FloatOps.prec FloatOps.emax (Zpos m) e (Zpos m2) e2)
    as [[mz ez] lz]. simpl in Hq.
  pose proof (binary_round_aux_signed (xorb true false) mz ez lz Hq) as H.
  destruct (binary_round_aux _ _ _ _ _ _) as [s|s| |s m' e']; try contradiction; exact H.
Qed.

Lemma binary_round_opp (p : positive) (e : Z) :
  Zpos (digits2_pos p) <= 53 ->
  -1074 <= Zpos (digits2_pos p) + e - 53 <= 971 ->
  binary_round FloatOps.prec FloatOps.emax true p e
  = SFopp (binary_round FloatOps.prec FloatOps.emax false p e).
Proof.
  intros Hd Hr.
  destruct (binary_round_exact true p e Hd Hr) as (mA & -> & HA).
  destruct (binary_round_exact false p e Hd Hr) as (mB & -> & HB).
  simpl. f_equal. lia.
Qed.

Lemma remainder_minus (n d : Z) :
  0 < n < 2 ^ 53 -> 0 < d < 2 ^ 53 ->
  remainder (- of_int n) (of_int d) = (- of_int (n mod d))%float.
Proof.
  intros Hn Hd.
  pose proof (remainder_int n d ltac:(lia) Hd) as Hpos.
  unfold remainder in *. rewrite FloatAxioms.opp_spec.
  destruct (of_int_decoded d Hd) as (m2 & e2 & Hy & He2 & Hm2 & Hb2). rewrite Hy in *.
  destruct (of_int_decoded n Hn) as (m1 & e1 & Hx & He1 & Hm1 & Hb1). rewrite Hx in *.
  cbn [SFopp negb]. cbv zeta in *. cbn [cond_Zopp] in *.
  rewrite Z.rem_opp_l'.
  assert (HX : 0 < 2 ^ (e1 - Z.min e1 e2)) by (apply Z.pow_pos_nonneg; lia).
  assert (HY : 0 < 2 ^ (e2 - Z.min e1 e2)) by (apply Z.pow_pos_nonneg; lia).
  pose proof (Z.rem_bound_pos (Zpos m1 * 2 ^ (e1 - Z.min e1 e2))
                (Zpos m2 * 2 ^ (e2 - Z.min e1 e2)) ltac:(lia) ltac:(lia)) as [Hr0 Hrd].
  pose proof (Z.rem_le (Zpos m1 * 2 ^ (e1 - Z.min e1 e2))
                (Zpos m2 * 2 ^ (e2 - Z.min e1 e2)) ltac:(lia) ltac:(lia)) as Hrn.
  assert (Hrlt : Z.rem (Zpos m1 * 2 ^ (e1 - Z.min e1 e2))
                       (Zpos m2 * 2 ^ (e2 - Z.min e1 e2)) < 2 ^ 53).
  { destruct (Z.min_spec e1 e2) as [[_ Hmin]|[_ Hmin]]; rewrite Hmin in *.
    - rewrite Z.sub_diag, Z.pow_0_r, Z.mul_1_r in Hrn |- *. lia.
    - rewrite Z.sub_diag, Z.pow_0_r, Z.mul_1_r in Hrd |- *. lia. }
  set (r := Z.rem (Zpos m1 * 2 ^ (e1 - Z.min e1 e2)) (Zpos m2 * 2 ^ (e2 - Z.min e1 e2))) in *.
  rewrite <- Hpos. apply Prim2SF_inj. rewrite FloatAxioms.opp_spec.
  unfold binary_normalize.
  destruct r as [|p|p]; [reflexivity| |lia].
  cbn [Z.opp].
  pose proof (digits2_pos_bounds p) as [Hlo Hhi].
  assert (Hdp : Zpos (digits2_pos p) <= 53).
  { destruct (Z.le_gt_cases (Zpos (digits2_pos p)) 53) as [H|H]; [exact H|exfalso].
    assert (2 ^ 53 <= 2 ^ (Zpos (digits2_pos p) - 1)) by (apply Z.pow_le_mono_r; lia). lia. }
  assert (Hrange : -1074 <= Zpos (digits2_pos p) + Z.min e1 e2 - 53 <= 971) by lia.
  destruct (binary_round_exact true p (Z.min e1 e2) Hdp Hrange) as (mA & HA & HvA).
  destruct (binary_round_exact false p (Z.min e1 e2) Hdp Hrange) as (mB & HB & HvB).
  change (- Z.pos p) with (Z.neg p). cbv iota. rewrite HA, HB.
  assert (mA = mB) as -> by lia.
  assert (Hdm : Zpos (digits2_pos mB) = 53).
  { apply digits2_unique. rewrite HvB.
    replace (Zpos (digits2_pos p)) with (Zpos (digits2_pos p) - 1 + 1) in Hhi by lia.
    rewrite Z.pow_add_r in Hhi by lia.
    assert (0 < 2 ^ (53 - Zpos (digits2_pos p))) by (apply Z.pow_pos_nonneg; lia).
    replace (2 ^ (53 - 1)) with (2 ^ (Zpos (digits2_pos p) - 1) * 2 ^ (53 - Zpos (digits2_pos p)))
      by (rewrite <- Z.pow_add_r by lia; f_equal; lia).
    replace (2 ^ 53) with (2 ^ (Zpos (digits2_pos p) - 1) * 2 ^ 1 * 2 ^ (53 - Zpos (digits2_pos p))).
    2:{ rewrite <- !Z.pow_add_r by lia. f_equal. lia. }
    split.
    - apply Z.mul_le_mono_nonneg_r; lia.
    - apply Z.mul_lt_mono_pos_r; lia. }
  assert (Hv : forall s, FloatAxioms.valid_binary
                 (S754_finite s mB (Zpos (digits2_pos p) + Z.min e1 e2 - 53)) = true).
  { intros s. unfold FloatAxioms.valid_binary, SpecFloat.valid_binary, bounded, canonical_mantissa.
    apply andb_true_iff. split.
    - apply Z.eqb_eq. rewrite Hdm, fexp_normal by lia. lia.
    - apply Z.leb_le. unfold FloatOps.prec, FloatOps.emax. lia. }
  rewrite !Prim2SF_SF2Prim by apply Hv. reflexivity.
Qed.

Lemma toString_minus (k : Z) :
  0 <= k < 2 ^ 53 -> Number_toString (- of_int k) = Some (digits (- k)).
Proof.
  intros Hk. unfold Number_toString. rewrite FloatAxioms.opp_spec.
  destruct (Z.eq_dec k 0) as [->|Hne]; [reflexivity|].
  destruct (of_int_decoded k ltac:(lia)) as (m & e & -> & He & Hm & Hb).
  cbn [SFopp negb]. unfold integerValue.
  assert (H2 : 0 < 2 ^ (- e)) by (apply Z.pow_pos_nonneg; lia).
  assert (Hs : (Z.abs (- k) <? 2 ^ 53) = true) by (apply Z.ltb_lt; lia).
  destruct (Z.eq_dec e 0) as [->|He0].
  - simpl in Hm. change (0 <=? 0) with true. cbn [cond_Zopp mbind option_bind].
    replace (Zpos m * 2 ^ 0) with k by (simpl; lia).
    simpl. rewrite Hs. reflexivity.
  - rewrite (proj2 (Z.leb_gt 0 e)) by lia.
    rewrite Hm, Z.mod_mul, Z.div_mul by lia. simpl. rewrite Hs. reflexivity.
Qed.

Lemma opp_sign_bit (k : Z) : 0 <= k < 2 ^ 53 -> sign_bit_set (Prim2SF (- of_int k)).
Proof.
  intros Hk. rewrite FloatAxioms.opp_spec.
  destruct (Z.eq_dec k 0) as [->|Hne]; [reflexivity|].
  destruct (of_int_decoded k ltac:(lia)) as (m & e & -> & _). reflexivity.
Qed.

(** X16. For a negative whole number of seconds [-n], [formatDuration]
    prints the seconds alone: the text is the remainder of [-n] by 60, a
    number from -59 to 0, followed by " sec"; the hours and minutes are
    not shown, and a multiple of 60 prints as "0 sec". *)
Theorem formatDuration_negative (n : Z) :
  0 < n < 2 ^ 53 ->
  formatDuration (- of_int n) = Some (digits (- (n mod 60)) ++ " sec")%string.
Proof.
  intros Hn.
  pose proof (Z.mod_pos_bound n 3600 ltac:(lia)) as Hm3600.
  pose proof (Z.mod_pos_bound n 60 ltac:(lia)) as Hm60.
  unfold formatDuration. cbv zeta. rewrite float_3600, float_60.
  rewrite (remainder_minus n 3600), (remainder_minus n 60) by lia.
  rewrite (Math_floor_minus (- of_int n / of_int 3600)).
  2:{ apply div_minus; [lia|]. apply opp_sign_bit. lia. }
  rewrite (Math_floor_minus (- of_int (n mod 3600) / of_int 60)).
  2:{ apply div_minus; [lia|]. apply opp_sign_bit. lia. }
  rewrite toString_minus by lia. reflexivity.
Qed.

Lemma formatDuration_negative_witness :
  formatDuration (- of_int 3725) = Some "-5 sec"%string.
Proof. exact (formatDuration_negative 3725 ltac:(lia)). Defined.

End FormatFacts.
